(** * Arc-length traversal of vector paths: WebCore's PathTraversalState

    A shallow embedding of
    [webkit/WebCore/platform/graphics/PathTraversalState.cpp]:
    the curve primitives [QuadraticBezier] and [CubicBezier], the adaptive
    subdivision loop [curveLength], and the segment operations of
    [PathTraversalState].

    The C++ code computes on [float].  The arithmetic it uses is gathered
    in the class [FloatArith]; the code is embedded once, over any
    instance.  Two instances are given:
    - [Binary32.arith]: IEEE 754 binary32 with round-to-nearest-even, built
      on the Standard Library's [SpecFloat] (prec = 24, emax = 128).  This
      is what the code runs on, and it computes.
    - [Exact.arith]: the real numbers, that is the same code without
      rounding and without overflow.

    Where a length computed in binary32 is compared with a Euclidean
    distance, the binary32 values are read as real numbers through [B2R],
    and every rounding of the code is accounted for.

    The module [PataSch] embeds the two functions of
    [kernel/drivers/ata/pata_sch.c] that program the timing registers of
    the Intel SCH PATA controller. *)

From Stdlib Require Import ZArith List Bool Lia Btauto.
From Stdlib Require Import Reals Lra.
From Stdlib Require Import Floats.SpecFloat.
Import ListNotations.

Set Implicit Arguments.

(** ** The arithmetic of [float] *)

Declare Scope float_scope.
Delimit Scope float_scope with flt.

(** The operations of [float] that the file uses: [+ - * /], [sqrtf],
    the comparison [>], and the literals [0.0f], [2.0f] and [0.00001f].
    The comparison [<=] occurs in no expression of the file; it is part of
    the interface for the statements that speak of it. *)
Class FloatArith (F : Type) : Type := {
  fadd : F -> F -> F;
  fsub : F -> F -> F;
  fmul : F -> F -> F;
  fdiv : F -> F -> F;
  sqrtf : F -> F;
  fgt : F -> F -> bool;
  fle : F -> F -> bool;
  f0 : F;
  f2 : F;
  kPathSegmentLengthTolerance : F
}.

Infix "+" := fadd : float_scope.
Infix "-" := fsub : float_scope.
Infix "*" := fmul : float_scope.
Infix "/" := fdiv : float_scope.
Infix ">?" := fgt (at level 70, no associativity) : float_scope.
Infix "<=?" := fle (at level 70, no associativity) : float_scope.

(** IEEE 754 binary32, round to nearest even. *)
Module Binary32.
Definition prec : Z := 24.
Definition emax : Z := 128.

Definition float : Type := spec_float.

Definition add : float -> float -> float := SFadd prec emax.
Definition sub : float -> float -> float := SFsub prec emax.
Definition mul : float -> float -> float := SFmul prec emax.
Definition div : float -> float -> float := SFdiv prec emax.
Definition sqrt : float -> float := SFsqrt prec emax.

(** [a > b]; false as soon as one side is NaN. *)
Definition gt (a b : float) : bool := SFltb b a.
(** [a <= b]; false as soon as one side is NaN. *)
Definition le (a b : float) : bool := SFleb a b.

(** The float [m * 2^e], rounded. *)
Definition of_Z2 (m e : Z) : float := binary_normalize prec emax m e false.
Definition of_Z (m : Z) : float := of_Z2 m 0.

Definition zero : float := S754_zero false.
Definition two : float := Eval cbv in of_Z 2.

(** [0.00001f]: the binary32 number nearest to 10^-5,
    10995116 * 2^-40 (bit pattern 0x3727C5AC). *)
Definition tolerance : float := S754_finite false 10995116 (-40).

Definition is_nan (a : float) : bool :=
  match a with
  | S754_nan => true
  | _ => false
  end.

(** [+0], a positive finite number or [+infinity]. *)
Definition sign_clear (a : float) : bool :=
  match a with
  | S754_zero false | S754_finite false _ _ | S754_infinity false => true
  | _ => false
  end.

(** [a >= 0], which NaN fails, and [!(a < 0)], which NaN passes. *)
Definition nonNegative (a : float) : bool := le zero a.
Definition notNegative (a : float) : bool := negb (gt zero a).

(** Neither infinite nor NaN. *)
Definition is_finite (a : float) : bool :=
  match a with
  | S754_zero _ | S754_finite _ _ _ => true
  | _ => false
  end.

#[global] Instance arith : FloatArith float := {
  fadd := add;
  fsub := sub;
  fmul := mul;
  fdiv := div;
  sqrtf := sqrt;
  fgt := gt;
  fle := le;
  f0 := zero;
  f2 := two;
  kPathSegmentLengthTolerance := tolerance
}.
End Binary32.

(** Exact arithmetic on the reals: no rounding, no overflow, no NaN.  The
    tolerance is the number the literal [0.00001f] denotes,
    10995116 / 2^40. *)
Module Exact.
Definition gt (a b : R) : bool := if Rgt_dec a b then true else false.
Definition le (a b : R) : bool := if Rle_dec a b then true else false.

#[global] Instance arith : FloatArith R := {
  fadd := Rplus;
  fsub := Rminus;
  fmul := Rmult;
  fdiv := Rdiv;
  sqrtf := sqrt;
  fgt := gt;
  fle := le;
  f0 := 0%R;
  f2 := 2%R;
  kPathSegmentLengthTolerance := (10995116 / 1099511627776)%R
}.
End Exact.

(** ** Points *)

(** Modelled from the spec: [FloatPoint] is declared in FloatPoint.h, which
    is not among the sources; the specification has it as a pair of
    floating-point coordinates, read here through [x()] and [y()]. *)
Module FloatPoint.
Record t (F : Type) : Type := mk { x : F; y : F }.
Arguments mk {F} _ _.
Arguments x {F} _.
Arguments y {F} _.
End FloatPoint.
Abbreviation FloatPoint := FloatPoint.t.

Section Geometry.
Context {F : Type} {A : FloatArith F}.
Local Open Scope float_scope.

Definition midPoint (first second : FloatPoint F) : FloatPoint F :=
  FloatPoint.mk ((FloatPoint.x first + FloatPoint.x second) / f2)
                ((FloatPoint.y first + FloatPoint.y second) / f2).

Definition distanceLine (start end_ : FloatPoint F) : F :=
  sqrtf ((FloatPoint.x end_ - FloatPoint.x start) * (FloatPoint.x end_ - FloatPoint.x start)
         + (FloatPoint.y end_ - FloatPoint.y start) * (FloatPoint.y end_ - FloatPoint.y start)).
End Geometry.
Arguments distanceLine : simpl never.
Arguments midPoint : simpl never.

(** ** Curve primitives *)

(** What the template [curveLength<CurveType>] asks of [CurveType]:
    the members [start] and [end], [approximateDistance()] and
    [split(left, right)], which assigns every member of [left] and of
    [right] and is rendered as a function to the pair. *)
Class CurveType (F : Type) (C : Type) : Type := {
  start : C -> FloatPoint F;
  end_ : C -> FloatPoint F;
  approximateDistance : C -> F;
  split : C -> C * C
}.

Module QuadraticBezier.
Record t (F : Type) : Type :=
  mk { start : FloatPoint F; control : FloatPoint F; end_ : FloatPoint F }.
Arguments mk {F} _ _ _.
Arguments start {F} _.
Arguments control {F} _.
Arguments end_ {F} _.

Section Ops.
Context {F : Type} {A : FloatArith F}.
Local Open Scope float_scope.

Definition approximateDistance (c : t F) : F :=
  distanceLine (start c) (control c) + distanceLine (control c) (end_ c).

Definition split (c : t F) : t F * t F :=
  let left_control := midPoint (start c) (control c) in
  let right_control := midPoint (control c) (end_ c) in
  let leftControlToRightControl := midPoint left_control right_control in
  (mk (start c) left_control leftControlToRightControl,
   mk leftControlToRightControl right_control (end_ c)).
End Ops.
End QuadraticBezier.

Module CubicBezier.
Record t (F : Type) : Type :=
  mk { start : FloatPoint F; control1 : FloatPoint F;
       control2 : FloatPoint F; end_ : FloatPoint F }.
Arguments mk {F} _ _ _ _.
Arguments start {F} _.
Arguments control1 {F} _.
Arguments control2 {F} _.
Arguments end_ {F} _.

Section Ops.
Context {F : Type} {A : FloatArith F}.
Local Open Scope float_scope.

Definition approximateDistance (c : t F) : F :=
  distanceLine (start c) (control1 c) + distanceLine (control1 c) (control2 c)
  + distanceLine (control2 c) (end_ c).

Definition split (c : t F) : t F * t F :=
  let startToControl1 := midPoint (control1 c) (control2 c) in
  let left_control1 := midPoint (start c) (control1 c) in
  let left_control2 := midPoint left_control1 startToControl1 in
  let right_control2 := midPoint (control2 c) (end_ c) in
  let right_control1 := midPoint right_control2 startToControl1 in
  let leftControl2ToRightControl1 := midPoint left_control2 right_control1 in
  (mk (start c) left_control1 left_control2 leftControl2ToRightControl1,
   mk leftControl2ToRightControl1 right_control1 right_control2 (end_ c)).
End Ops.
End CubicBezier.

#[global] Instance QuadraticBezier_CurveType {F : Type} {A : FloatArith F}
  : CurveType F (QuadraticBezier.t F) := {
  start := QuadraticBezier.start;
  end_ := QuadraticBezier.end_;
  approximateDistance := QuadraticBezier.approximateDistance;
  split := QuadraticBezier.split
}.

#[global] Instance CubicBezier_CurveType {F : Type} {A : FloatArith F}
  : CurveType F (CubicBezier.t F) := {
  start := CubicBezier.start;
  end_ := CubicBezier.end_;
  approximateDistance := CubicBezier.approximateDistance;
  split := CubicBezier.split
}.

(** ** The traversal state *)

(** Modelled from the spec: the enumeration [PathTraversalAction] is
    declared in PathTraversalState.h, which is not among the sources; the
    specification lists its values as TotalLength, PointAtLength and
    NormalAngleAtLength. *)
Inductive PathTraversalAction : Type :=
| TraversalTotalLength
| TraversalPointAtLength
| TraversalNormalAngleAtLength.

(** The members of [PathTraversalState] that the constructor and the
    segment operations name; the class itself is declared in
    PathTraversalState.h, not among the sources, and the types of the
    members are those of the values the constructor gives them. *)
Record PathTraversalState (F : Type) : Type := mkState {
  m_action : PathTraversalAction;
  m_success : bool;
  m_totalLength : F;
  m_segmentIndex : N;
  m_desiredLength : F;
  m_normalAngle : F;
  m_current : FloatPoint F;
  m_start : FloatPoint F;
  m_control1 : FloatPoint F;
  m_control2 : FloatPoint F;
  m_previous : FloatPoint F
}.

Section State.
Context {F : Type} {A : FloatArith F}.
Local Open Scope float_scope.

Definition set_current (p : FloatPoint F) (s : PathTraversalState F) :=
  mkState (m_action s) (m_success s) (m_totalLength s) (m_segmentIndex s)
          (m_desiredLength s) (m_normalAngle s)
          p (m_start s) (m_control1 s) (m_control2 s) (m_previous s).

Definition set_start (p : FloatPoint F) (s : PathTraversalState F) :=
  mkState (m_action s) (m_success s) (m_totalLength s) (m_segmentIndex s)
          (m_desiredLength s) (m_normalAngle s)
          (m_current s) p (m_control1 s) (m_control2 s) (m_previous s).

Definition set_control1 (p : FloatPoint F) (s : PathTraversalState F) :=
  mkState (m_action s) (m_success s) (m_totalLength s) (m_segmentIndex s)
          (m_desiredLength s) (m_normalAngle s)
          (m_current s) (m_start s) p (m_control2 s) (m_previous s).

Definition set_control2 (p : FloatPoint F) (s : PathTraversalState F) :=
  mkState (m_action s) (m_success s) (m_totalLength s) (m_segmentIndex s)
          (m_desiredLength s) (m_normalAngle s)
          (m_current s) (m_start s) (m_control1 s) p (m_previous s).

Definition set_previous (p : FloatPoint F) (s : PathTraversalState F) :=
  mkState (m_action s) (m_success s) (m_totalLength s) (m_segmentIndex s)
          (m_desiredLength s) (m_normalAngle s)
          (m_current s) (m_start s) (m_control1 s) (m_control2 s) p.

(** [m_action == TraversalPointAtLength || m_action == TraversalNormalAngleAtLength] *)
Definition isPointOrAngle (a : PathTraversalAction) : bool :=
  match a with
  | TraversalPointAtLength | TraversalNormalAngleAtLength => true
  | TraversalTotalLength => false
  end.

(** The constructor.  The point members are default-constructed
    [FloatPoint]s, the origin. *)
Definition newPathTraversalState (action : PathTraversalAction) : PathTraversalState F :=
  let origin := FloatPoint.mk f0 f0 in
  mkState action false f0 0%N f0 f0 origin origin origin origin origin.
End State.

(** ** The adaptive length loop *)

Section CurveLength.
Context {F : Type} {A : FloatArith F} {C : Type} {CT : CurveType F C}.
Local Open Scope float_scope.

(** The variables of the [do ... while] loop of [curveLength]:
    the traversal state, [curve], [curveStack] and [totalLength].
    [curveStack] is a list whose head is the vector's last element:
    [append] is cons, [last()] the head, [removeLast()] the tail. *)
Record LoopVars : Type := mkVars {
  v_state : PathTraversalState F;
  v_curve : C;
  v_stack : list C;
  v_total : F
}.

(** One pass through the loop body. *)
Inductive BodyResult : Type :=
| Next (v : LoopVars)                           (* the closing brace is reached *)
| Return (totalLength : F) (st : PathTraversalState F)  (* [return totalLength;] inside the body *)
| LastOfEmpty.                                  (* [curveStack.last()] on an empty vector *)

(** [length - distanceLine(curve.start, curve.end)], the excess of the
    control polygon over the chord. *)
Definition slack (curve : C) : F :=
  approximateDistance curve - distanceLine (start curve) (end_ curve).

(** [length - distanceLine(curve.start, curve.end) > kPathSegmentLengthTolerance] *)
Definition needsSplit (curve : C) : bool :=
  (approximateDistance curve - distanceLine (start curve) (end_ curve))
    >? kPathSegmentLengthTolerance.

Definition curveLength_body (v : LoopVars) : BodyResult :=
  let st := v_state v in
  let curve := v_curve v in
  let length := approximateDistance curve in
  if (length - distanceLine (start curve) (end_ curve)) >? kPathSegmentLengthTolerance then
    let '(left_, right_) := split curve in
    Next (mkVars st left_ (right_ :: v_stack v) (v_total v))
  else
    let totalLength := v_total v + length in
    let pop (st' : PathTraversalState F) :=
      match v_stack v with
      | [] => LastOfEmpty
      | last :: rest => Next (mkVars st' last rest totalLength)
      end in
    if isPointOrAngle (m_action st) then
      let st' := set_current (end_ curve) (set_previous (start curve) st) in
      if (m_totalLength st' + totalLength) >? m_desiredLength st' then
        Return totalLength st'
      else pop st'
    else pop st.

(** The loop, with a bound on the number of passes: [None] when the
    bound is reached before the loop is left (or on [LastOfEmpty]). *)
Fixpoint curveLength_loop (fuel : nat) (v : LoopVars) : option (F * PathTraversalState F) :=
  match fuel with
  | O => None
  | S fuel' =>
    match curveLength_body v with
    | Return totalLength st => Some (totalLength, st)
    | LastOfEmpty => None
    | Next v' =>
      match v_stack v' with
      | [] => Some (v_total v', v_state v')        (* [while (!curveStack.isEmpty())] fails *)
      | _ :: _ => curveLength_loop fuel' v'
      end
    end
  end.

Definition curveLength (fuel : nat) (traversalState : PathTraversalState F) (curve : C)
  : option (F * PathTraversalState F) :=
  curveLength_loop fuel (mkVars traversalState curve [curve] f0).

(** Whether a run of the loop comes to call [last()] on an empty vector
    within the bound. *)
Fixpoint popsEmpty (fuel : nat) (v : LoopVars) : bool :=
  match fuel with
  | O => false
  | S fuel' =>
    match curveLength_body v with
    | Return _ _ => false
    | LastOfEmpty => true
    | Next v' =>
      match v_stack v' with
      | [] => false
      | _ :: _ => popsEmpty fuel' v'
      end
    end
  end.
End CurveLength.

(** ** Segment operations *)

Section SegmentOperations.
Context {F : Type} {A : FloatArith F}.
Local Open Scope float_scope.

Definition closeSubpath (s : PathTraversalState F) : F * PathTraversalState F :=
  let distance := distanceLine (m_current s) (m_start s) in
  (distance,
   set_start (m_current s) (set_control1 (m_current s) (set_control2 (m_current s) s))).

Definition moveTo (s : PathTraversalState F) (point : FloatPoint F)
  : F * PathTraversalState F :=
  (f0, set_current point (set_start point (set_control1 point (set_control2 point s)))).

Definition lineTo (s : PathTraversalState F) (point : FloatPoint F)
  : F * PathTraversalState F :=
  let distance := distanceLine (m_current s) point in
  (distance, set_current point (set_control1 point (set_control2 point s))).

Definition quadraticBezierTo (fuel : nat) (s : PathTraversalState F)
           (newControl newEnd : FloatPoint F) : option (F * PathTraversalState F) :=
  match curveLength fuel s (QuadraticBezier.mk (m_current s) newControl newEnd) with
  | None => None
  | Some (distance, s1) =>
    let s2 := set_control2 newEnd (set_control1 newControl s1) in
    Some (distance,
          if isPointOrAngle (m_action s2) then s2 else set_current newEnd s2)
  end.

Definition cubicBezierTo (fuel : nat) (s : PathTraversalState F)
           (newControl1 newControl2 newEnd : FloatPoint F)
  : option (F * PathTraversalState F) :=
  match curveLength fuel s (CubicBezier.mk (m_current s) newControl1 newControl2 newEnd) with
  | None => None
  | Some (distance, s1) =>
    let s2 := set_control2 newControl2 (set_control1 newEnd s1) in
    Some (distance,
          if isPointOrAngle (m_action s2) then s2 else set_current newEnd s2)
  end.

(** The six members that no operation of the file assigns. *)
Definition sameAccumulators (s s' : PathTraversalState F) : Prop :=
  m_totalLength s' = m_totalLength s
  /\ m_desiredLength s' = m_desiredLength s
  /\ m_action s' = m_action s
  /\ m_success s' = m_success s
  /\ m_segmentIndex s' = m_segmentIndex s
  /\ m_normalAngle s' = m_normalAngle s.
End SegmentOperations.

(** ** The path iterator *)

(** Modelled from the spec: the iterator that walks the elements of a path
    and calls the segment operations is in Path.cpp, which is not among the
    sources.  By the specification (sections 3, 4.3, 5 and 6) it calls one
    operation per path element, in order; it adds each returned length to
    [m_totalLength] before the next call; for a point or angle query
    [m_success] becomes true once [m_desiredLength <= m_totalLength]; and
    from then on it issues no further call. *)
Inductive PathElement (F : Type) : Type :=
| MoveTo (point : FloatPoint F)
| LineTo (point : FloatPoint F)
| QuadraticCurveTo (control end_ : FloatPoint F)
| CubicCurveTo (control1 control2 end_ : FloatPoint F)
| CloseSubpath.
Arguments MoveTo {F} _.
Arguments LineTo {F} _.
Arguments QuadraticCurveTo {F} _ _.
Arguments CubicCurveTo {F} _ _ _.
Arguments CloseSubpath {F}.

Section PathIterator.
Context {F : Type} {A : FloatArith F}.
Local Open Scope float_scope.

Definition set_totalLength (t : F) (s : PathTraversalState F) :=
  mkState (m_action s) (m_success s) t (m_segmentIndex s)
          (m_desiredLength s) (m_normalAngle s)
          (m_current s) (m_start s) (m_control1 s) (m_control2 s) (m_previous s).


Definition set_action (a : PathTraversalAction) (s : PathTraversalState F) :=
  mkState a (m_success s) (m_totalLength s) (m_segmentIndex s)
          (m_desiredLength s) (m_normalAngle s)
          (m_current s) (m_start s) (m_control1 s) (m_control2 s) (m_previous s).

Definition set_success (b : bool) (s : PathTraversalState F) :=
  mkState (m_action s) b (m_totalLength s) (m_segmentIndex s)
          (m_desiredLength s) (m_normalAngle s)
          (m_current s) (m_start s) (m_control1 s) (m_control2 s) (m_previous s).

(** The segment operation that belongs to a path element. *)
Definition segmentLength (fuel : nat) (s : PathTraversalState F) (e : PathElement F)
  : option (F * PathTraversalState F) :=
  match e with
  | MoveTo p => Some (moveTo s p)
  | LineTo p => Some (lineTo s p)
  | QuadraticCurveTo c e => quadraticBezierTo fuel s c e
  | CubicCurveTo c1 c2 e => cubicBezierTo fuel s c1 c2 e
  | CloseSubpath => Some (closeSubpath s)
  end.

(** Modelled from the spec: one step of the iterator. *)
Definition applySegment (fuel : nat) (s : PathTraversalState F) (e : PathElement F)
  : option (PathTraversalState F) :=
  if m_success s then Some s
  else
    match segmentLength fuel s e with
    | None => None
    | Some (length, s1) =>
      let s2 := set_totalLength (m_totalLength s1 + length) s1 in
      Some (if isPointOrAngle (m_action s2) && (m_desiredLength s2 <=? m_totalLength s2)
            then set_success true s2 else s2)
    end.

(** Modelled from the spec: the pass over the whole path. *)
Fixpoint traverse (fuel : nat) (s : PathTraversalState F) (path : list (PathElement F))
  : option (PathTraversalState F) :=
  match path with
  | [] => Some s
  | e :: rest =>
    match applySegment fuel s e with
    | None => None
    | Some s' => traverse fuel s' rest
    end
  end.



End PathIterator.

(** The piece that is summed last: the one just above the copy of the
    input curve at the bottom of the stack, or [curve] itself when nothing
    else is above it. *)
Fixpoint lastPiece {C : Type} (curve : C) (curveStack : list C) : C :=
  match curveStack with
  | [] => curve
  | c :: rest =>
    match rest with
    | [] => curve
    | _ :: _ => lastPiece c rest
    end
  end.

(** ** Recursive readings of the subdivision *)

Section Recursive.
Context {F : Type} {A : FloatArith F} {C : Type} {CT : CurveType F C}.
Local Open Scope float_scope.

(** The naive recursive length, in the words of the specification:
    [recLen(c) = if c.approximateDistance() - distance(c.start, c.end) <= tolerance
                 then c.approximateDistance() else recLen(left) + recLen(right)].
    [depth] bounds the depth of the recursion; [None] when it is reached. *)
Fixpoint recLen (depth : nat) (c : C) : option F :=
  match depth with
  | O => None
  | S depth' =>
    if (approximateDistance c - distanceLine (start c) (end_ c))
         <=? kPathSegmentLengthTolerance
    then Some (approximateDistance c)
    else
      match recLen depth' (fst (split c)), recLen depth' (snd (split c)) with
      | Some a, Some b => Some (a + b)
      | _, _ => None
      end
  end.

(** The same recursion with the running total threaded through the left
    half and then the right half, and with the flatness test of the code. *)
Fixpoint recAcc (depth : nat) (totalLength : F) (c : C) : option F :=
  match depth with
  | O => None
  | S depth' =>
    if needsSplit c then
      match recAcc depth' totalLength (fst (split c)) with
      | Some t => recAcc depth' t (snd (split c))
      | None => None
      end
    else Some (totalLength + approximateDistance c)
  end.

(** What the loop does once [curve] and all that it pushed are summed up,
    with [curveStack] as it was when [curve] became current: pop, test the
    stack, leave or go on. *)
Definition resume (fuel : nat) (st : PathTraversalState F) (curveStack : list C)
           (totalLength : F) : option (F * PathTraversalState F) :=
  match curveStack with
  | [] => None
  | last :: [] => Some (totalLength, st)
  | last :: rest => curveLength_loop fuel (mkVars st last rest totalLength)
  end.
End Recursive.

(** ** Finite points in binary32 *)

Definition finitePoint (p : FloatPoint Binary32.float) : bool :=
  Binary32.is_finite (FloatPoint.x p) && Binary32.is_finite (FloatPoint.y p).

(** A point with a coordinate that is not a number. *)
Definition nanPoint (p : FloatPoint Binary32.float) : bool :=
  Binary32.is_nan (FloatPoint.x p) || Binary32.is_nan (FloatPoint.y p).

(** ** Pieces of a curve *)

Section Pieces.
Context {F : Type} {A : FloatArith F} {C : Type} {CT : CurveType F C}.

(** The pieces the loop can come to hold for the input [c0]: [c0] itself,
    and the two halves of every piece the flatness test sends to [split]. *)
Inductive subPiece (c0 : C) : C -> Prop :=
| subPiece_whole : subPiece c0 c0
| subPiece_left (c : C) :
    subPiece c0 c -> needsSplit c = true -> subPiece c0 (fst (split c))
| subPiece_right (c : C) :
    subPiece c0 c -> needsSplit c = true -> subPiece c0 (snd (split c)).
End Pieces.

(** ** A given number of passes *)

Section Passes.
Context {F : Type} {A : FloatArith F} {C : Type} {CT : CurveType F C}.

(** The loop variables after [k] passes through the body, when the loop
    has not been left by then. *)
Fixpoint passes (k : nat) (v : LoopVars (C := C)) : option (LoopVars (C := C)) :=
  match k with
  | O => Some v
  | S k' =>
    match curveLength_body v with
    | Next v' =>
      match v_stack v' with
      | [] => None
      | _ :: _ => passes k' v'
      end
    | _ => None
    end
  end.
End Passes.

(** ** Concrete binary32 inputs *)

Module Sample.
Import Binary32.

Definition point (a b : float) : FloatPoint float := FloatPoint.mk a b.

Definition lengthQuery : PathTraversalState float :=
  newPathTraversalState TraversalTotalLength.

(** A point query with [m_desiredLength = 1.0f]. *)
Definition pointQuery : PathTraversalState float :=
  mkState TraversalPointAtLength false zero 0%N (of_Z 1) zero
          (point zero zero) (point zero zero) (point zero zero)
          (point zero zero) (point zero zero).

(** (0,0) (1, 2^-10) (2,0): nearly flat, control point slightly off the chord. *)
Definition shallow : QuadraticBezier.t float :=
  QuadraticBezier.mk (point zero zero) (point (of_Z 1) (of_Z2 1 (-10)))
                     (point (of_Z 2) zero).

(** (0,0) (1,1) (7,7): the three points on one line. *)
Definition diagonal : QuadraticBezier.t float :=
  QuadraticBezier.mk (point zero zero) (point (of_Z 1) (of_Z 1))
                     (point (of_Z 7) (of_Z 7)).

(** (0,0) (-3,-3) (-2,-2): on one line, the control point beyond the end. *)
Definition hairpin : QuadraticBezier.t float :=
  QuadraticBezier.mk (point zero zero) (point (of_Z (-3)) (of_Z (-3)))
                     (point (of_Z (-2)) (of_Z (-2))).

(** 3 * 2^126, about 2.55e38: finite, and more than half the largest float. *)
Definition huge : float := of_Z2 3 126.

(** (huge,0) (huge,1) (huge,0). *)
Definition spike : QuadraticBezier.t float :=
  QuadraticBezier.mk (point huge zero) (point huge (of_Z 1)) (point huge zero).

(** 256 + 2^-15 and its successor 256 + 2^-14. *)
Definition x1 : float := of_Z2 8388609 (-15).
Definition x2 : float := of_Z2 8388610 (-15).

(** (x1,x1) (x2,x1) (x2,x2): a corner one unit in the last place wide. *)
Definition corner : QuadraticBezier.t float :=
  QuadraticBezier.mk (point x1 x1) (point x2 x1) (point x2 x2).

(** (281,511) (369,531) (255,505) (225,497): a cubic with small whole
    coordinates that doubles back on itself. *)
Definition loopback : CubicBezier.t float :=
  CubicBezier.mk (point (of_Z 281) (of_Z 511)) (point (of_Z 369) (of_Z 531))
                 (point (of_Z 255) (of_Z 505)) (point (of_Z 225) (of_Z 497)).

(** A length traversal whose current point is the start of [loopback]. *)
Definition atLoopback : PathTraversalState float :=
  snd (moveTo lengthQuery (point (of_Z 281) (of_Z 511))).
End Sample.

(** * Timing registers of the Intel SCH PATA controller

    A shallow embedding of [sch_set_piomode] and [sch_set_dmamode] of
    [kernel/drivers/ata/pata_sch.c].  An [unsigned int] is an integer in
    [0, 2^32); the bit operations are those of [Z], which agree with two's
    complement on every bit, and each conversion to [unsigned int] is
    written out as [u32]. *)

Module PataSch.
Local Unset Implicit Arguments.
Local Open Scope Z_scope.

(** Conversion to [unsigned int]. *)
Definition u32 (z : Z) : Z := z mod 2 ^ 32.

(** Conversion to [int], 32 bits, two's complement. *)
Definition int (z : Z) : Z := (z + 2 ^ 31) mod 2 ^ 32 - 2 ^ 31.

(** The anonymous [enum]: its constants are of type [int], so that
    [1 << 31] is the least [int]. *)
Definition D0TIM : Z := 0x80.              (* Device 0 Timing Register *)
Definition D1TIM : Z := 0x84.              (* Device 1 Timing Register *)
Definition PM : Z := 0x07.                 (* PIO Mode Bit Mask *)
Definition MDM : Z := Z.shiftl 0x03 8.     (* Multi-word DMA Mode Bit Mask *)
Definition UDM : Z := Z.shiftl 0x07 16.    (* Ultra DMA Mode Bit Mask *)
Definition PPE : Z := Z.shiftl 1 30.       (* Prefetch/Post Enable *)
Definition USD : Z := int (Z.shiftl 1 31). (* Use Synchronous DMA *)

(** The constants of [linux/ata.h] and [linux/libata.h] that the two
    functions use.  The headers are not among the sources: the values are
    parameters. *)
Class AtaConstants : Type := {
  XFER_PIO_0 : Z;
  XFER_MW_DMA_0 : Z;
  XFER_UDMA_0 : Z;
  ATA_DEV_ATA : Z
}.

(** The fields of [struct ata_device] that the two functions read. *)
Record ata_device : Type := mk_ata_device {
  pio_mode : Z;
  dma_mode : Z;
  devno : Z;
  class : Z
}.

(** The configuration space of the controller, [to_pci_dev(ap->host->dev)],
    with the two accesses the functions make.  [pci_read_config_dword]
    gives the dword read, [pci_write_config_dword] the configuration space
    after the write. *)
Class PciConfig (pci_dev : Type) : Type := {
  pci_read_config_dword : pci_dev -> Z -> Z;
  pci_write_config_dword : pci_dev -> Z -> Z -> pci_dev
}.

Section Driver.
Context {K : AtaConstants} {pci_dev : Type} {P : PciConfig pci_dev}.

Definition sch_set_piomode (dev : pci_dev) (adev : ata_device) : pci_dev :=
  let pio := u32 (pio_mode adev - XFER_PIO_0) in
  let port := if devno adev =? 0 then D0TIM else D1TIM in
  let data := u32 (pci_read_config_dword dev port) in
  (* set PIO mode *)
  let data := Z.land data (u32 (Z.lnot (Z.lor PM PPE))) in
  let data := Z.lor data pio in
  (* enable PPE for block device *)
  let data := if class adev =? ATA_DEV_ATA then Z.lor data (u32 PPE) else data in
  pci_write_config_dword dev port data.

Definition sch_set_dmamode (dev : pci_dev) (adev : ata_device) : pci_dev :=
  let dma_mode := u32 (dma_mode adev) in
  let port := if devno adev =? 0 then D0TIM else D1TIM in
  let data := u32 (pci_read_config_dword dev port) in
  let data :=
    if u32 XFER_UDMA_0 <=? dma_mode then
      (* enable Synchronous DMA mode *)
      let data := Z.lor data (u32 USD) in
      let data := Z.land data (u32 (Z.lnot UDM)) in
      Z.lor data (u32 (Z.shiftl (u32 (dma_mode - XFER_UDMA_0)) 16))
    else
      let data := Z.land data (u32 (Z.lnot (Z.lor USD MDM))) in
      Z.lor data (u32 (Z.shiftl (u32 (dma_mode - XFER_MW_DMA_0)) 8)) in
  pci_write_config_dword dev port data.

(** [adev->devno ? D1TIM : D0TIM], the register the two functions
    address. *)
Definition timing_port (adev : ata_device) : Z :=
  if devno adev =? 0 then D0TIM else D1TIM.

(** What [sch_set_piomode] writes, as a function of what it read. *)
Definition piomode_data (adev : ata_device) (data : Z) : Z :=
  let pio := u32 (pio_mode adev - XFER_PIO_0) in
  let data := Z.land data (u32 (Z.lnot (Z.lor PM PPE))) in
  let data := Z.lor data pio in
  if class adev =? ATA_DEV_ATA then Z.lor data (u32 PPE) else data.

(** What [sch_set_dmamode] writes, as a function of what it read. *)
Definition dmamode_data (adev : ata_device) (data : Z) : Z :=
  let dma_mode := u32 (dma_mode adev) in
  if u32 XFER_UDMA_0 <=? dma_mode then
    let data := Z.lor data (u32 USD) in
    let data := Z.land data (u32 (Z.lnot UDM)) in
    Z.lor data (u32 (Z.shiftl (u32 (dma_mode - XFER_UDMA_0)) 16))
  else
    let data := Z.land data (u32 (Z.lnot (Z.lor USD MDM))) in
    Z.lor data (u32 (Z.shiftl (u32 (dma_mode - XFER_MW_DMA_0)) 8)).

Definition timing_register (port : Z) : Prop := port = D0TIM \/ port = D1TIM.

(** The two timing registers behave as memory: a register holds the dword
    last written to it, and a write to one leaves the other alone. *)
Class TimingRegisterLaws : Prop := {
  read_written : forall dev port data,
    timing_register port -> 0 <= data < 2 ^ 32 ->
    pci_read_config_dword (pci_write_config_dword dev port data) port = data;
  read_other : forall dev port port' data,
    timing_register port -> timing_register port' -> port <> port' ->
    pci_read_config_dword (pci_write_config_dword dev port data) port'
    = pci_read_config_dword dev port';
  write_written : forall dev port data data',
    timing_register port ->
    pci_write_config_dword (pci_write_config_dword dev port data) port data'
    = pci_write_config_dword dev port data';
  write_other : forall dev port port' data data',
    timing_register port -> timing_register port' -> port <> port' ->
    pci_write_config_dword (pci_write_config_dword dev port data) port' data'
    = pci_write_config_dword (pci_write_config_dword dev port' data') port data
}.
End Driver.

(** A configuration space that is the two timing registers and nothing
    else. *)
Record timing : Type := mk_timing { d0tim : Z; d1tim : Z }.

#[global] Instance timing_config : PciConfig timing := {
  pci_read_config_dword dev port :=
    if port =? D0TIM then d0tim dev else if port =? D1TIM then d1tim dev else 0;
  pci_write_config_dword dev port data :=
    if port =? D0TIM then mk_timing data (d1tim dev)
    else if port =? D1TIM then mk_timing (d0tim dev) data else dev
}.

(** Concrete inputs: a choice of the constants, three devices, and a
    register file whose device 1 runs UDMA 5, MWDMA 2 and PIO 3. *)
Definition sample_constants : AtaConstants :=
  {| XFER_PIO_0 := 0x08; XFER_MW_DMA_0 := 0x20; XFER_UDMA_0 := 0x40; ATA_DEV_ATA := 1 |}.

Definition sample_device : ata_device :=
  {| pio_mode := 0x0C; dma_mode := 0x45; devno := 1; class := 1 |}.

Definition sample_mwdma_device : ata_device :=
  {| pio_mode := 0x0C; dma_mode := 0x22; devno := 0; class := 1 |}.

Definition sample_swdma_device : ata_device :=
  {| pio_mode := 0x0C; dma_mode := 0x12; devno := 0; class := 1 |}.

Definition sample_timing : timing := {| d0tim := 0; d1tim := 0x80050203 |}.
End PataSch.

(** ** Rounding in binary32, spelled out *)

(** What [binary_round_aux] of the Standard Library computes on a positive
    mantissa, written without the shift records. *)
Section RoundingForm.
Import Binary32.
Local Unset Implicit Arguments.
Local Open Scope Z_scope.

(** Whether nothing lies beyond the mantissa. *)
Definition is_exact (l : location) : bool :=
  match l with loc_Exact => true | _ => false end.

(** The location after [n] more bits of the mantissa [M] have been shifted
    out, when [M] itself was at the location [l]. *)
Definition shift_loc (M n : Z) (l : location) : location :=
  if n <=? 0 then l
  else loc_of_shr_record
         (Build_shr_record 0 (Z.testbit M (n - 1))
                           (negb (is_exact l) || negb (M mod 2 ^ (n - 1) =? 0))).

(** The mantissa [M] at exponent [e], with what lies beyond it at [l],
    brought to the exponent of its format and rounded to nearest even. *)
Definition rounded (M e : Z) (l : location) : Z :=
  let n := fexp prec emax (Zdigits2 M + e) - e in
  round_nearest_even (M / 2 ^ n) (shift_loc M n l).

(** The float of mantissa [m2] at exponent [E], once a carry out of the
    mantissa and the overflow of the exponent are seen to. *)
Definition packed (m2 E : Z) : float :=
  match m2 with
  | Z0 => S754_zero false
  | Zpos p =>
    if Zpos p =? 2 ^ prec
    then (if E + 1 <=? emax - prec
          then S754_finite false (Z.to_pos (2 ^ (prec - 1))) (E + 1)
          else S754_infinity false)
    else (if E <=? emax - prec then S754_finite false p E else S754_infinity false)
  | Zneg _ => S754_nan
  end.

(** The mantissa of [binary_round], before it is packed. *)
Definition normal_mantissa (M : positive) (e : Z) : Z :=
  let E := fexp prec emax (Zpos (digits2_pos M) + e) in
  if E <? e then Zpos M * 2 ^ (e - E) else rounded (Zpos M) e loc_Exact.

(** A valid binary32 number that is not negative: [+0], a positive finite
    number in its canonical form, or [+infinity]. *)
Definition number (x : float) : bool := valid_binary prec emax x && sign_clear x.
End RoundingForm.

(** ** Binary32 values as real numbers *)

Section RealValues.
Import Binary32.
Local Unset Implicit Arguments.

(** [2^e] on the reals, for any integer [e]. *)
Definition pow2 (e : Z) : R := powerRZ 2 e.

(** The real number a binary32 value stands for; [0] for infinities and
    NaN. *)
Definition B2R (x : float) : R :=
  match x with
  | S754_finite s m e =>
    if s then (- (IZR (Zpos m) * pow2 e))%R else (IZR (Zpos m) * pow2 e)%R
  | _ => 0%R
  end.

(** The relative error of one rounding, [2^-23], and the absolute error of
    a rounding that underflows, [2^-149]. *)
Definition eps : R := pow2 (-23).
Definition eta : R := pow2 (-149).

(** The absolute error of a distance whose squares underflow, [2^-74]. *)
Definition tiny : R := pow2 (-74).

(** Both coordinates are valid binary32 values. *)
Definition validPoint (p : FloatPoint float) : bool :=
  valid_binary prec emax (FloatPoint.x p) && valid_binary prec emax (FloatPoint.y p).

(** The Euclidean distance between the points that two points of binary32
    coordinates stand for. *)
Definition distR (a b : FloatPoint float) : R :=
  dist_euc (B2R (FloatPoint.x a)) (B2R (FloatPoint.y a))
           (B2R (FloatPoint.x b)) (B2R (FloatPoint.y b)).

(** All the points of a curve have valid binary32 coordinates. *)
Definition validQuadratic (c : QuadraticBezier.t float) : bool :=
  validPoint (QuadraticBezier.start c) && validPoint (QuadraticBezier.control c)
  && validPoint (QuadraticBezier.end_ c).

Definition validCubic (c : CubicBezier.t float) : bool :=
  validPoint (CubicBezier.start c) && validPoint (CubicBezier.control1 c)
  && validPoint (CubicBezier.control2 c) && validPoint (CubicBezier.end_ c).

(** The pieces that wait on the stack follow one another: each starts
    where the one before it ends.  The bottom of the stack, the copy of
    the input curve, is not a piece. *)
Fixpoint chained {C : Type} {CT : CurveType float C} (curve : C) (curveStack : list C)
  : Prop :=
  match curveStack with
  | [] => True
  | c :: rest =>
    match rest with
    | [] => True
    | _ :: _ => end_ curve = start c /\ chained c rest
    end
  end.
End RealValues.

(** * Properties *)

(** ** Running the loop: general facts *)

Section LoopFacts.
Context {F : Type} {A : FloatArith F} {C : Type} {CT : CurveType F C}.
Local Open Scope float_scope.

(** The loop unfolds by one pass. *)
Lemma curveLength_loop_S (n : nat) (v : LoopVars (C := C)) :
  curveLength_loop (S n) v =
  match curveLength_body v with
  | Return totalLength st => Some (totalLength, st)
  | LastOfEmpty => None
  | Next v' =>
    match v_stack v' with
    | [] => Some (v_total v', v_state v')
    | _ :: _ => curveLength_loop n v'
    end
  end.
Proof. reflexivity. Qed.

(** A result obtained within some bound is obtained within any larger one. *)
Lemma curveLength_loop_mono (n m : nat) (v : LoopVars (C := C)) r :
  (n <= m)%nat -> curveLength_loop n v = Some r -> curveLength_loop m v = Some r.
Proof.
  revert m v. induction n as [|n IH]; intros m v Hle Hn.
  - discriminate.
  - destruct m as [|m]; [lia|].
    rewrite curveLength_loop_S in *.
    destruct (curveLength_body v) as [v'| |]; try assumption.
    destruct (v_stack v'); [assumption|].
    apply IH; [lia|assumption].
Qed.

(** The stack is never empty when the loop pops it: [None] only ever
    means that the bound was too small. *)
Lemma loop_never_pops_empty (n : nat) :
  forall v : LoopVars (C := C), v_stack v <> [] -> popsEmpty n v = false.
Proof.
  induction n as [|n IH]; intros v Hne; [reflexivity|].
  simpl. unfold curveLength_body.
  destruct (_ >? kPathSegmentLengthTolerance).
  - destruct (split (v_curve v)) as [l r]. simpl. apply IH. simpl. discriminate.
  - destruct (v_stack v) as [|c0 rest]; [contradiction|].
    destruct (isPointOrAngle _); [destruct (_ >? _); [reflexivity|]|];
      simpl; (destruct rest as [|c1 rest']; [reflexivity|]);
      apply IH; simpl; discriminate.
Qed.

Lemma curveLength_never_pops_empty (n : nat) (st : PathTraversalState F) (curve : C) :
  popsEmpty n (mkVars st curve [curve] f0) = false.
Proof. apply loop_never_pops_empty. simpl. discriminate. Qed.

(** The body on a piece that is split. *)
Lemma body_split (v : LoopVars (C := C)) :
  needsSplit (v_curve v) = true ->
  curveLength_body v =
  Next (mkVars (v_state v) (fst (split (v_curve v)))
               (snd (split (v_curve v)) :: v_stack v) (v_total v)).
Proof.
  unfold needsSplit, curveLength_body. intros ->.
  destruct (split (v_curve v)); reflexivity.
Qed.

(** The body on a flat piece when no point or angle is asked for. *)
Lemma body_flat_total (v : LoopVars (C := C)) :
  needsSplit (v_curve v) = false ->
  isPointOrAngle (m_action (v_state v)) = false ->
  curveLength_body v =
  match v_stack v with
  | [] => LastOfEmpty
  | last :: rest =>
    Next (mkVars (v_state v) last rest (v_total v + approximateDistance (v_curve v)))
  end.
Proof.
  unfold needsSplit, curveLength_body. intros -> ->. reflexivity.
Qed.

(** The body on a flat piece for a point or angle query. *)
Lemma body_flat_query (v : LoopVars (C := C)) :
  needsSplit (v_curve v) = false ->
  isPointOrAngle (m_action (v_state v)) = true ->
  let st' := set_current (end_ (v_curve v)) (set_previous (start (v_curve v)) (v_state v)) in
  let totalLength := v_total v + approximateDistance (v_curve v) in
  curveLength_body v =
  if (m_totalLength (v_state v) + totalLength) >? m_desiredLength (v_state v)
  then Return totalLength st'
  else match v_stack v with
       | [] => LastOfEmpty
       | last :: rest => Next (mkVars st' last rest totalLength)
       end.
Proof.
  unfold needsSplit, curveLength_body. intros -> ->. reflexivity.
Qed.
End LoopFacts.

(** ** Subdivision of the curve primitives *)

Section Split.
Context {F : Type} {A : FloatArith F}.
Local Open Scope float_scope.

(** [midPoint] is the coordinate-wise arithmetic mean, computed as
    [(a + b) / 2.0f] on each coordinate. *)
Lemma midPoint_coordinates (a b : FloatPoint F) :
  FloatPoint.x (midPoint a b) = (FloatPoint.x a + FloatPoint.x b) / f2 /\
  FloatPoint.y (midPoint a b) = (FloatPoint.y a + FloatPoint.y b) / f2.
Proof. split; reflexivity. Qed.

(** The halves of a split, point by point. *)
Lemma split_structure :
  (forall c : QuadraticBezier.t F,
      let midOfMids :=
          midPoint (midPoint (QuadraticBezier.start c) (QuadraticBezier.control c))
                   (midPoint (QuadraticBezier.control c) (QuadraticBezier.end_ c)) in
      QuadraticBezier.split c =
      (QuadraticBezier.mk (QuadraticBezier.start c)
                          (midPoint (QuadraticBezier.start c) (QuadraticBezier.control c))
                          midOfMids,
       QuadraticBezier.mk midOfMids
                          (midPoint (QuadraticBezier.control c) (QuadraticBezier.end_ c))
                          (QuadraticBezier.end_ c))
      /\ start (fst (split c)) = start c
      /\ end_ (snd (split c)) = end_ c
      /\ end_ (fst (split c)) = start (snd (split c)))
  /\
  (forall c : CubicBezier.t F,
      let m01 := midPoint (CubicBezier.start c) (CubicBezier.control1 c) in
      let m12 := midPoint (CubicBezier.control1 c) (CubicBezier.control2 c) in
      let m23 := midPoint (CubicBezier.control2 c) (CubicBezier.end_ c) in
      let junction := midPoint (midPoint m01 m12) (midPoint m23 m12) in
      CubicBezier.split c =
      (CubicBezier.mk (CubicBezier.start c) m01 (midPoint m01 m12) junction,
       CubicBezier.mk junction (midPoint m23 m12) m23 (CubicBezier.end_ c))
      /\ start (fst (split c)) = start c
      /\ end_ (snd (split c)) = end_ c
      /\ end_ (fst (split c)) = start (snd (split c)))
  /\
  (forall a b : FloatPoint F,
      midPoint a b =
      FloatPoint.mk ((FloatPoint.x a + FloatPoint.x b) / f2)
                    ((FloatPoint.y a + FloatPoint.y b) / f2)).
Proof.
  split; [|split].
  - intros c midOfMids. repeat split.
  - intros c m01 m12 m23 junction. repeat split.
  - intros a b. reflexivity.
Qed.
End Split.

(** ** The segment operations *)

Section Frame.
Context {F : Type} {A : FloatArith F}.
Local Open Scope float_scope.

Lemma sameAccumulators_refl (s : PathTraversalState F) : sameAccumulators s s.
Proof. repeat split. Qed.

Lemma sameAccumulators_trans (s1 s2 s3 : PathTraversalState F) :
  sameAccumulators s1 s2 -> sameAccumulators s2 s3 -> sameAccumulators s1 s3.
Proof.
  unfold sameAccumulators.
  intros (a1 & a2 & a3 & a4 & a5 & a6) (b1 & b2 & b3 & b4 & b5 & b6).
  repeat split; congruence.
Qed.

Lemma sameAccumulators_body {C : Type} {CT : CurveType F C} (v : LoopVars (C := C)) :
  match curveLength_body v with
  | Next v' => sameAccumulators (v_state v) (v_state v')
  | Return _ st => sameAccumulators (v_state v) st
  | LastOfEmpty => True
  end.
Proof.
  unfold curveLength_body.
  destruct (_ >? kPathSegmentLengthTolerance).
  - destruct (split (v_curve v)). apply sameAccumulators_refl.
  - destruct (isPointOrAngle (m_action (v_state v))).
    + destruct (_ >? _); [repeat split|].
      destruct (v_stack v); [exact I|repeat split].
    + destruct (v_stack v); [exact I|apply sameAccumulators_refl].
Qed.

Lemma sameAccumulators_loop {C : Type} {CT : CurveType F C}
      (n : nat) (v : LoopVars (C := C)) r st :
  curveLength_loop n v = Some (r, st) -> sameAccumulators (v_state v) st.
Proof.
  revert v. induction n as [|n IH]; intros v H; [discriminate|].
  rewrite curveLength_loop_S in H.
  pose proof (sameAccumulators_body v) as Hb.
  destruct (curveLength_body v) as [v'| |]; try discriminate.
  - destruct (v_stack v').
    + inversion H; subst. exact Hb.
    + eapply sameAccumulators_trans; [exact Hb|]. apply IH. exact H.
  - inversion H; subst. exact Hb.
Qed.

Lemma quadraticBezierTo_keeps_accumulators n s c e d s' :
  quadraticBezierTo n s c e = Some (d, s') -> sameAccumulators s s'.
Proof.
  unfold quadraticBezierTo.
  destruct (curveLength n s _) as [[d1 s1]|] eqn:E; [|discriminate].
  apply sameAccumulators_loop in E. simpl in E.
  intros H; inversion H; subst; clear H.
  destruct (isPointOrAngle _); exact E.
Qed.

Lemma cubicBezierTo_keeps_accumulators n s c1 c2 e d s' :
  cubicBezierTo n s c1 c2 e = Some (d, s') -> sameAccumulators s s'.
Proof.
  unfold cubicBezierTo.
  destruct (curveLength n s _) as [[d1 s1]|] eqn:E; [|discriminate].
  apply sameAccumulators_loop in E. simpl in E.
  intros H; inversion H; subst; clear H.
  destruct (isPointOrAngle _); exact E.
Qed.

Lemma segmentLength_keeps_accumulators n s (e : PathElement F) d s' :
  segmentLength n s e = Some (d, s') -> sameAccumulators s s'.
Proof.
  destruct e as [p|p|c e|c1 c2 e|]; simpl; intros H.
  - inversion H; subst. repeat split.
  - inversion H; subst. repeat split.
  - eapply quadraticBezierTo_keeps_accumulators. exact H.
  - eapply cubicBezierTo_keeps_accumulators. exact H.
  - inversion H; subst. repeat split.
Qed.

(** C7.  No segment operation and no run of [curveLength] assigns
    [m_totalLength], [m_desiredLength], [m_action], [m_success],
    [m_segmentIndex] or [m_normalAngle]: whenever a call returns, the six
    members are what they were before it.  Adding the returned length to
    [m_totalLength] is left to the caller. *)
Theorem operations_keep_accumulators :
  (forall s p, sameAccumulators s (snd (moveTo s p)))
  /\ (forall s p, sameAccumulators s (snd (lineTo s p)))
  /\ (forall s, sameAccumulators s (snd (closeSubpath s)))
  /\ (forall n s c e d s',
         quadraticBezierTo n s c e = Some (d, s') -> sameAccumulators s s')
  /\ (forall n s c1 c2 e d s',
         cubicBezierTo n s c1 c2 e = Some (d, s') -> sameAccumulators s s')
  /\ (forall (C : Type) (CT : CurveType F C) n s (curve : C) d s',
         curveLength n s curve = Some (d, s') -> sameAccumulators s s').
Proof.
  split; [|split; [|split; [|split; [|split]]]];
    try (intros; repeat split; fail).
  - intros n s c e d s'. apply quadraticBezierTo_keeps_accumulators.
  - intros n s c1 c2 e d s'. apply cubicBezierTo_keeps_accumulators.
  - intros C CT n s curve d s' H.
    apply sameAccumulators_loop in H. exact H.
Qed.
End Frame.

(** ** One pass of the loop *)

Section OnePass.
Context {F : Type} {A : FloatArith F} {C : Type} {CT : CurveType F C}.
Local Open Scope float_scope.

(** C1, as the code has it.  Every pass computes
    [slack = approximateDistance() - distanceLine(start, end)].  When
    [slack > kPathSegmentLengthTolerance] the piece is split, the left half
    becomes the current piece and the right half is pushed, the running
    length unchanged.  Otherwise the piece is flat and the value added to
    the running length is [approximateDistance()], the length of its
    control polygon: the pass either returns that sum or goes on with it
    and the piece popped off the stack. *)
Theorem pass_splits_or_adds_polygon_length (v : LoopVars (C := C)) :
  let curve := v_curve v in
  let slack := approximateDistance curve - distanceLine (start curve) (end_ curve) in
  let running := v_total v + approximateDistance curve in
  ((slack >? kPathSegmentLengthTolerance) = true ->
   curveLength_body v =
   Next (mkVars (v_state v) (fst (split curve)) (snd (split curve) :: v_stack v) (v_total v)))
  /\
  ((slack >? kPathSegmentLengthTolerance) = false ->
   forall last rest, v_stack v = last :: rest ->
   exists st',
     curveLength_body v = Return running st' \/
     curveLength_body v = Next (mkVars st' last rest running)).
Proof.
  intros curve slack running. split.
  - intros Hs. apply body_split. exact Hs.
  - intros Hs last rest Hst.
    destruct (isPointOrAngle (m_action (v_state v))) eqn:Ha.
    + pose proof (body_flat_query v Hs Ha) as Hb. cbv zeta in Hb.
      rewrite Hst in Hb.
      eexists. destruct (_ >? m_desiredLength _); [left|right]; exact Hb.
    + pose proof (body_flat_total v Hs Ha) as Hb. rewrite Hst in Hb.
      eexists. right. exact Hb.
Qed.

(** C3.  For a point or angle query, a pass over a flat piece sets
    [m_previous] to the start of the piece and [m_current] to its end.  If
    then [m_totalLength + totalLength > m_desiredLength], with the length
    of the piece already added to [totalLength], the loop returns
    [totalLength] at once, whatever is left on the stack; if not, it goes
    on with the piece popped off the stack. *)
Theorem query_pass_sets_points_and_stops (v : LoopVars (C := C)) :
  isPointOrAngle (m_action (v_state v)) = true ->
  needsSplit (v_curve v) = false ->
  let st' := set_current (end_ (v_curve v)) (set_previous (start (v_curve v)) (v_state v)) in
  let running := v_total v + approximateDistance (v_curve v) in
  m_previous st' = start (v_curve v)
  /\ m_current st' = end_ (v_curve v)
  /\ (((m_totalLength (v_state v) + running) >? m_desiredLength (v_state v)) = true ->
      curveLength_body v = Return running st'
      /\ forall n, curveLength_loop (S n) v = Some (running, st'))
  /\ (((m_totalLength (v_state v) + running) >? m_desiredLength (v_state v)) = false ->
      forall last rest, v_stack v = last :: rest ->
      curveLength_body v = Next (mkVars st' last rest running)).
Proof.
  intros Ha Hs st' running.
  pose proof (body_flat_query v Hs Ha) as Hb. cbv zeta in Hb.
  fold st' running in Hb.
  split; [reflexivity|]. split; [reflexivity|]. split.
  - intros Hgt. rewrite Hgt in Hb. split; [exact Hb|].
    intros n. rewrite curveLength_loop_S, Hb. reflexivity.
  - intros Hgt last rest Hst. rewrite Hgt, Hst in Hb. exact Hb.
Qed.
End OnePass.

(** ** The loop against the recursion *)

Section LoopVersusRecursion.
Context {F : Type} {A : FloatArith F} {C : Type} {CT : CurveType F C}.
Local Open Scope float_scope.

Lemma cons_not_nil (c : C) (l : list C) : c :: l <> [].
Proof. discriminate. Qed.
Arguments cons_not_nil : clear implicits.

Lemma recAcc_S (d : nat) (t : F) (c : C) :
  recAcc (S d) t c =
  if needsSplit c then
    match recAcc d t (fst (split c)) with
    | Some t1 => recAcc d t1 (snd (split c))
    | None => None
    end
  else Some (t + approximateDistance c).
Proof. reflexivity. Qed.

Lemma recLen_S (d : nat) (c : C) :
  recLen (S d) c =
  if (approximateDistance c - distanceLine (start c) (end_ c))
       <=? kPathSegmentLengthTolerance
  then Some (approximateDistance c)
  else match recLen d (fst (split c)), recLen d (snd (split c)) with
       | Some a, Some b => Some (a + b)
       | _, _ => None
       end.
Proof. reflexivity. Qed.

Lemma recAcc_mono (d d' : nat) (t : F) (c : C) r :
  (d <= d')%nat -> recAcc d t c = Some r -> recAcc d' t c = Some r.
Proof.
  revert d' t c r. induction d as [|d IH]; intros d' t c r Hle H; [discriminate|].
  destruct d' as [|d']; [lia|]. simpl in *.
  destruct (needsSplit c); [|exact H].
  destruct (recAcc d t (fst (split c))) as [t1|] eqn:E1; [|discriminate].
  rewrite (IH d' t _ t1); [|lia|exact E1].
  apply IH; [lia|exact H].
Qed.

Lemma resume_mono (n m : nat) st (stack : list C) t r :
  (n <= m)%nat -> resume n st stack t = Some r -> resume m st stack t = Some r.
Proof.
  intros Hle. unfold resume. destruct stack as [|last [|c rest]]; trivial.
  apply curveLength_loop_mono. exact Hle.
Qed.

(** When the recursion sums [curve] up to [r], the loop needs a bounded
    number of passes to do the same, and then resumes below [curve]. *)
Lemma recursion_drives_loop (d : nat) :
  forall (t : F) (curve : C) (r : F),
    recAcc d t curve = Some r ->
    forall st (stack : list C),
      isPointOrAngle (m_action st) = false ->
      stack <> [] ->
      exists n, forall m,
          curveLength_loop (n + m) (mkVars st curve stack t) = resume m st stack r.
Proof.
  induction d as [|d IH]; intros t curve r H st stack Ha Hne; [discriminate|].
  simpl in H. destruct (needsSplit curve) eqn:Hs.
  - destruct (recAcc d t (fst (split curve))) as [t1|] eqn:E1; [|discriminate].
    destruct (IH _ _ _ E1 st (snd (split curve) :: stack) Ha (cons_not_nil _ _))
      as [n1 Hn1].
    destruct (IH _ _ _ H st stack Ha Hne) as [n2 Hn2].
    exists (S (n1 + n2)). intros m.
    change (S (n1 + n2) + m)%nat with (S (n1 + n2 + m)).
    rewrite curveLength_loop_S, body_split by exact Hs. simpl v_stack.
    replace (n1 + n2 + m)%nat with (n1 + (n2 + m))%nat by lia.
    cbn [v_state v_total].
    rewrite Hn1. unfold resume at 1.
    destruct stack as [|c0 rest]; [contradiction|]. apply Hn2.
  - inversion H; subst; clear H.
    exists 1%nat. intros m. change (1 + m)%nat with (S m).
    rewrite curveLength_loop_S, body_flat_total by assumption. simpl.
    destruct stack as [|c0 [|c1 rest]]; [contradiction| |]; reflexivity.
Qed.

(** When the loop returns, the recursion sums [curve] up within a bounded
    depth, and the loop has resumed below [curve] with that sum. *)
Lemma loop_follows_recursion (n : nat) :
  forall (t : F) (curve : C) st (stack : list C) res,
    isPointOrAngle (m_action st) = false ->
    stack <> [] ->
    curveLength_loop n (mkVars st curve stack t) = Some res ->
    exists d r n', (n' < n)%nat /\ recAcc d t curve = Some r
                   /\ resume n' st stack r = Some res.
Proof.
  induction n as [n IH] using lt_wf_ind.
  intros t curve st stack res Ha Hne H.
  destruct n as [|n]; [discriminate|].
  rewrite curveLength_loop_S in H.
  destruct (needsSplit curve) eqn:Hs.
  - rewrite body_split in H by exact Hs. simpl in H.
    destruct (IH n (Nat.lt_succ_diag_r n) _ _ _ _ _ Ha (cons_not_nil _ _) H)
      as (d1 & r1 & n1 & Hlt1 & Hr1 & Hres1).
    unfold resume in Hres1.
    destruct stack as [|c0 rest]; [contradiction|].
    destruct (IH n1 (Nat.lt_lt_succ_r _ _ Hlt1) _ _ _ _ _ Ha (cons_not_nil _ _) Hres1)
      as (d2 & r2 & n2 & Hlt2 & Hr2 & Hres2).
    exists (S (Nat.max d1 d2)), r2, n2. split; [lia|]. split; [|exact Hres2].
    simpl. rewrite Hs.
    rewrite (@recAcc_mono d1 (Nat.max d1 d2) _ _ _ (Nat.le_max_l d1 d2) Hr1).
    exact (@recAcc_mono d2 (Nat.max d1 d2) _ _ _ (Nat.le_max_r d1 d2) Hr2).
  - rewrite body_flat_total in H by assumption.
    destruct stack as [|c0 rest]; [contradiction|]. simpl in H.
    exists 1%nat, (t + approximateDistance curve), n.
    split; [lia|]. split; [simpl; rewrite Hs; reflexivity|].
    unfold resume. destruct rest; exact H.
Qed.

(** For a length query the loop computes what the recursion with the
    threaded total computes, and leaves the state alone. *)
Lemma curveLength_iff_recAcc (st : PathTraversalState F) (curve : C) (r : F) st' :
  isPointOrAngle (m_action st) = false ->
  (exists n, curveLength n st curve = Some (r, st'))
  <-> (st' = st /\ exists d, recAcc d f0 curve = Some r).
Proof.
  intros Ha. split.
  - intros [n H]. unfold curveLength in H.
    apply loop_follows_recursion in H; [|exact Ha|apply cons_not_nil].
    destruct H as (d & r1 & n' & _ & Hr & Hres). simpl in Hres.
    inversion Hres; subst. split; [reflexivity|]. exists d. exact Hr.
  - intros [-> [d H]].
    destruct (recursion_drives_loop _ _ _ H st Ha (cons_not_nil curve []))
      as [n Hn].
    exists (n + 0)%nat. unfold curveLength. rewrite Hn. reflexivity.
Qed.
End LoopVersusRecursion.

(** ** Exact arithmetic *)

Section ExactGeometry.
Local Open Scope R_scope.

Lemma exact_distanceLine (a b : FloatPoint R) :
  distanceLine a b =
  dist_euc (FloatPoint.x b) (FloatPoint.y b) (FloatPoint.x a) (FloatPoint.y a).
Proof. reflexivity. Qed.

Lemma exact_fle_not_fgt (a b : R) : fle a b = negb (fgt a b).
Proof.
  simpl. unfold Exact.le, Exact.gt.
  destruct (Rle_dec a b), (Rgt_dec a b); try reflexivity; exfalso; lra.
Qed.

End ExactGeometry.

(** C6.  [closeSubpath] returns the Euclidean distance from [m_current]
    to [m_start] as the two are before the call:
    [sqrtf(dx * dx + dy * dy)] with [dx = m_start.x - m_current.x] and
    [dy = m_start.y - m_current.y], computed in the arithmetic of the code,
    whatever it is (in binary32 each of the six operations rounds).  It
    leaves [m_start], [m_control1] and [m_control2] all equal to
    [m_current], which it does not move; so the distance is that to the
    old [m_start], not to the new one.  Without rounding the value is the
    Euclidean distance [dist_euc] of the Standard Library. *)
Theorem closeSubpath_distance_then_reset :
  (forall (F : Type) (A : FloatArith F) (s : PathTraversalState F),
      fst (closeSubpath s)
      = sqrtf (fadd (fmul (fsub (FloatPoint.x (m_start s)) (FloatPoint.x (m_current s)))
                          (fsub (FloatPoint.x (m_start s)) (FloatPoint.x (m_current s))))
                    (fmul (fsub (FloatPoint.y (m_start s)) (FloatPoint.y (m_current s)))
                          (fsub (FloatPoint.y (m_start s)) (FloatPoint.y (m_current s)))))
      /\ m_start (snd (closeSubpath s)) = m_current s
      /\ m_control1 (snd (closeSubpath s)) = m_current s
      /\ m_control2 (snd (closeSubpath s)) = m_current s
      /\ m_current (snd (closeSubpath s)) = m_current s
      /\ m_previous (snd (closeSubpath s)) = m_previous s)
  /\ (forall s : PathTraversalState R,
         fst (closeSubpath s)
         = dist_euc (FloatPoint.x (m_current s)) (FloatPoint.y (m_current s))
                    (FloatPoint.x (m_start s)) (FloatPoint.y (m_start s))).
Proof.
  split.
  - intros F A s. split; [|repeat split].
    unfold closeSubpath, distanceLine. reflexivity.
  - intros s. unfold closeSubpath. cbn [fst].
    rewrite exact_distanceLine. apply distance_symm.
Qed.

Section ExactLoop.
Local Open Scope R_scope.
Context {C : Type} {CT : CurveType R C}.

(** In exact arithmetic the threaded recursion is the naive one, shifted
    by the total it starts from. *)
Lemma exact_recAcc_recLen (d : nat) :
  forall (t : R) (c : C) (r : R),
    recAcc d t c = Some r <-> exists w, recLen d c = Some w /\ r = t + w.
Proof.
  induction d as [|d IH]; intros t c r.
  - simpl. split; [discriminate|]. intros (w & H & _). discriminate.
  - rewrite recAcc_S, recLen_S, exact_fle_not_fgt. fold (needsSplit c).
    change fadd with Rplus.
    destruct (needsSplit c); cbn [negb].
    + split.
      * destruct (recAcc d t (fst (split c))) as [t1|] eqn:E1; [|discriminate].
        intros H. apply IH in E1. apply IH in H.
        destruct E1 as (w1 & -> & ->). destruct H as (w2 & -> & ->).
        exists (w1 + w2). split; [reflexivity|lra].
      * intros (w & H & ->).
        destruct (recLen d (fst (split c))) as [w1|] eqn:E1; [|discriminate].
        destruct (recLen d (snd (split c))) as [w2|] eqn:E2; [|discriminate].
        inversion H; subst; clear H.
        assert (H1 : recAcc d t (fst (split c)) = Some (t + w1))
          by (apply IH; eauto).
        rewrite H1. apply IH. exists w2. split; [exact E2|lra].
    + split.
      * intros H. inversion H; subst. eauto.
      * intros (w & H & ->). inversion H; subst. reflexivity.
Qed.

End ExactLoop.

(** ** Runs in binary32 *)

Section Binary32Runs.
Import Binary32 Sample.

(** The literal [0.00001f] is the binary32 number nearest to 10^-5: the
    error of 10995116 * 2^-40 is below half a unit in the last place. *)
Lemma tolerance_is_nearest :
  (2 * Z.abs (10995116 * 10 ^ 5 - 2 ^ 40) < 10 ^ 5)%Z
  /\ (2 ^ 40 = 1099511627776)%Z
  /\ valid_binary prec emax tolerance = true
  /\ SFclassify prec tolerance = FloatClass.PNormal.
Proof. repeat split. Qed.

(** C1 as the specification words it fails: on the flat piece (0,0) (1,2^-10) (2,0)
    the chord is 2 and the pass adds 2 + 2^-20, the length of the control
    polygon; [curveLength] returns that value. *)
Lemma flat_piece_adds_polygon_not_chord :
  needsSplit shallow = false
  /\ distanceLine (start shallow) (end_ shallow) = of_Z 2
  /\ approximateDistance shallow = S754_finite false 8388612 (-22)
  /\ curveLength_body (mkVars lengthQuery shallow [shallow] zero)
     = Next (mkVars lengthQuery shallow [] (S754_finite false 8388612 (-22)))
  /\ S754_finite false 8388612 (-22)
     <> add zero (distanceLine (start shallow) (end_ shallow))
  /\ curveLength 1 lengthQuery shallow
     = Some (S754_finite false 8388612 (-22), lengthQuery).
Proof.
  vm_compute. repeat split; discriminate.
Qed.

(** C9 as the specification words it fails in binary32: for (0,0) (1,1) (7,7) the
    computed length is one unit in the last place below the chord. *)
Lemma length_below_chord :
  curveLength 1 lengthQuery diagonal
  = Some (S754_finite false 10380372 (-20), lengthQuery)
  /\ distanceLine (start diagonal) (end_ diagonal) = S754_finite false 10380373 (-20)
  /\ le (distanceLine (start diagonal) (end_ diagonal))
        (S754_finite false 10380372 (-20)) = false.
Proof. vm_compute. repeat split. Qed.

(** C10 as the specification words it fails in binary32: for (0,0) (-3,-3) (-2,-2)
    the loop sums three pieces from left to right, the naive recursion sums
    the last two first, and the two results differ in the last place. *)
Lemma loop_differs_from_recLen :
  ~ (forall n d a b st',
        curveLength n lengthQuery hairpin = Some (a, st') ->
        recLen d hairpin = Some b ->
        a = b).
Proof.
  intros H.
  assert (E1 : curveLength 5 lengthQuery hairpin
               = Some (S754_finite false 14829103 (-22), lengthQuery))
    by (vm_compute; reflexivity).
  assert (E2 : recLen 3 hairpin = Some (S754_finite false 14829104 (-22)))
    by (vm_compute; reflexivity).
  specialize (H _ _ _ _ _ E1 E2). discriminate H.
Qed.

(** Finite input on which a curve operation returns no number: from the
    finite points (huge,0) (huge,1) (huge,0) the first split overflows the
    midpoints to infinity, the next piece has length NaN, and
    [quadraticBezierTo] returns NaN, which is not [>= 0]; adding it makes
    the total NaN. *)
Lemma curve_operation_returns_nan :
  let st := snd (moveTo lengthQuery (point huge zero)) in
  is_finite huge = true /\ is_finite (of_Z 1) = true /\ is_finite zero = true
  /\ option_map fst (quadraticBezierTo 3 st (point huge (of_Z 1)) (point huge zero))
     = Some S754_nan
  /\ le zero S754_nan = false
  /\ le (m_totalLength st) (add (m_totalLength st) S754_nan) = false.
Proof. vm_compute. repeat split. Qed.

(** The corner (x1,x1) (x2,x1) (x2,x2), with x1 = 256 + 2^-15 and x2 the
    next float, is not flat, and its left half is the corner itself: every
    midpoint falls back on a vertex. *)
Lemma corner_splits_into_itself :
  needsSplit corner = true /\ fst (split corner) = corner.
Proof. vm_compute. split; reflexivity. Qed.

(** So the loop never leaves on it, whatever the bound and the state. *)
Lemma corner_never_returns (n : nat) (st : PathTraversalState float) :
  curveLength n st corner = None.
Proof.
  unfold curveLength. generalize (@nil (QuadraticBezier.t float)).
  generalize zero. generalize corner at 2.
  induction n as [|n IH]; intros c0 t stack; [reflexivity|].
  destruct corner_splits_into_itself as [Hs Hl].
  rewrite curveLength_loop_S, body_split by exact Hs.
  cbn [v_stack v_curve v_state v_total]. rewrite Hl.
  exact (IH (snd (split corner)) t (c0 :: stack)).
Qed.
End Binary32Runs.

(** ** Signs in binary32 *)

Unset Implicit Arguments.

Section Binary32Signs.
Import Binary32.

(** Rounding: shifting a mantissa to the right keeps it non-negative. *)
Lemma iter_pos_invariant {T : Type} (P : T -> Prop) (f : T -> T) :
  (forall x, P x -> P (f x)) -> forall p x, P x -> P (iter_pos f p x).
Proof.
  intros Hf. induction p as [p IH|p IH|]; intros x Hx; simpl; auto.
Qed.

Lemma shr_1_nonneg (mrs : shr_record) :
  (0 <= shr_m mrs)%Z -> (0 <= shr_m (shr_1 mrs))%Z.
Proof.
  destruct mrs as [m r s]. simpl.
  destruct m as [|[p|p|]|[p|p|]]; simpl; lia.
Qed.

Lemma shr_fexp_nonneg (m e : Z) (l : location) :
  (0 <= m)%Z -> (0 <= shr_m (fst (shr_fexp prec emax m e l)))%Z.
Proof.
  intros Hm. unfold shr_fexp, shr.
  assert (H0 : (0 <= shr_m (shr_record_of_loc m l))%Z)
    by (destruct l as [|[ | | ]]; exact Hm).
  destruct (_ - e)%Z as [|p|p]; simpl; try exact H0.
  apply (iter_pos_invariant (fun mrs => (0 <= shr_m mrs)%Z)); [|exact H0].
  exact shr_1_nonneg.
Qed.

Lemma round_nearest_even_nonneg (m : Z) (l : location) :
  (0 <= m)%Z -> (0 <= round_nearest_even m l)%Z.
Proof.
  intros Hm. destruct l as [|[ | | ]]; simpl; try lia.
  destruct (Z.even m); lia.
Qed.

(** The shape of a rounded result: its sign is the one asked for; it is
    NaN only for a negative mantissa. *)
Lemma binary_round_aux_shape (sx : bool) (mx ex : Z) (lx : location) :
  match binary_round_aux prec emax sx mx ex lx with
  | S754_zero s | S754_infinity s | S754_finite s _ _ => s = sx
  | S754_nan => (mx < 0)%Z
  end.
Proof.
  unfold binary_round_aux.
  destruct (Z_lt_le_dec mx 0) as [Hneg|Hpos].
  - destruct (shr_fexp prec emax mx ex lx) as [mrs' e'].
    destruct (shr_fexp _ _ _ e' loc_Exact) as [mrs'' e''].
    destruct (shr_m mrs''); [reflexivity| |exact Hneg].
    destruct (_ <=? _)%Z; reflexivity.
  - pose proof (shr_fexp_nonneg mx ex lx Hpos) as H1.
    destruct (shr_fexp prec emax mx ex lx) as [mrs' e']. simpl in H1.
    pose proof (shr_fexp_nonneg _ e' loc_Exact
                  (round_nearest_even_nonneg (shr_m mrs') (loc_of_shr_record mrs') H1)) as H2.
    destruct (shr_fexp _ _ _ e' loc_Exact) as [mrs'' e'']. simpl in H2.
    destruct (shr_m mrs''); [reflexivity| |lia].
    destruct (_ <=? _)%Z; reflexivity.
Qed.

Lemma binary_round_shape (sx : bool) (mx : positive) (ex : Z) :
  match binary_round prec emax sx mx ex with
  | S754_zero s | S754_infinity s | S754_finite s _ _ => s = sx
  | S754_nan => False
  end.
Proof.
  unfold binary_round.
  destruct (shl_align mx ex _) as [mz ez].
  pose proof (binary_round_aux_shape sx (Zpos mz) ez loc_Exact) as H.
  destruct (binary_round_aux _ _ _ _ _ _); try exact H. lia.
Qed.

(** A difference of finite numbers is never NaN. *)
Lemma sub_finite_not_nan (a b : float) :
  is_finite a = true -> is_finite b = true -> is_nan (sub a b) = false.
Proof.
  destruct a as [sa|sa| |sa ma ea]; try discriminate;
    destruct b as [sb|sb| |sb mb eb]; try discriminate; intros _ _.
  - destruct sa, sb; reflexivity.
  - reflexivity.
  - reflexivity.
  - unfold sub, SFsub, binary_normalize.
    destruct (_ - _)%Z as [|p|p]; [reflexivity| |].
    + pose proof (binary_round_shape false p (Z.min ea eb)) as H.
      destruct (binary_round _ _ _ _ _); try reflexivity. contradiction.
    + pose proof (binary_round_shape true p (Z.min ea eb)) as H.
      destruct (binary_round _ _ _ _ _); try reflexivity. contradiction.
Qed.

(** A square is [+0], positive or [+infinity], unless it is NaN already. *)
Lemma mul_self_sign_clear (a : float) :
  is_nan a = false -> sign_clear (mul a a) = true.
Proof.
  destruct a as [sa|sa| |sa ma ea]; try discriminate; intros _.
  - destruct sa; reflexivity.
  - destruct sa; reflexivity.
  - unfold mul, SFmul.
    pose proof (binary_round_aux_shape (xorb sa sa) (Zpos (ma * ma)) (ea + ea) loc_Exact) as H.
    rewrite xorb_nilpotent in *.
    destruct (binary_round_aux _ _ _ _ _ _); try (subst; reflexivity). lia.
Qed.

Lemma mul_self_sign_clear_or_nan (a : float) :
  sign_clear (mul a a) || is_nan (mul a a) = true.
Proof.
  destruct (is_nan a) eqn:E.
  - destruct a; try discriminate. reflexivity.
  - rewrite mul_self_sign_clear by exact E. reflexivity.
Qed.

Lemma add_sign_clear (a b : float) :
  sign_clear a = true -> sign_clear b = true -> sign_clear (add a b) = true.
Proof.
  destruct a as [[|]|[|]| |[|] ma ea]; try discriminate;
    destruct b as [[|]|[|]| |[|] mb eb]; try discriminate; intros _ _;
      try reflexivity.
  unfold add, SFadd, binary_normalize, cond_Zopp.
  rewrite <- Pos2Z.inj_add.
  pose proof (binary_round_shape false
                (fst (shl_align ma ea (Z.min ea eb)) + fst (shl_align mb eb (Z.min ea eb)))
                (Z.min ea eb)) as H.
  destruct (binary_round _ _ _ _ _); try (subst; reflexivity). contradiction.
Qed.

Lemma add_sign_clear_or_nan (a b : float) :
  sign_clear a || is_nan a = true -> sign_clear b || is_nan b = true ->
  sign_clear (add a b) || is_nan (add a b) = true.
Proof.
  intros Ha Hb.
  destruct (is_nan a) eqn:Ea; [destruct a; try discriminate; reflexivity|].
  destruct (is_nan b) eqn:Eb;
    [destruct b; try discriminate; destruct a; reflexivity|].
  rewrite orb_false_r in Ha, Hb.
  rewrite add_sign_clear by assumption. reflexivity.
Qed.

Lemma sqrt_core_nonneg (m : positive) (e : Z) :
  (0 <= fst (fst (SFsqrt_core_binary prec emax (Zpos m) e)))%Z.
Proof.
  unfold SFsqrt_core_binary.
  set (s := (e - 2 * _)%Z).
  set (m' := match s with Zpos _ => Z.shiftl (Zpos m) s | Z0 => Zpos m | Zneg _ => 0%Z end).
  assert (Hm' : (0 <= m')%Z).
  { subst m'. destruct s; try lia. apply Z.shiftl_nonneg. lia. }
  pose proof (Z.sqrtrem_spec m' Hm') as H.
  destruct (Z.sqrtrem m') as [q r]. simpl. lia.
Qed.

Lemma sqrt_sign_clear (a : float) :
  sign_clear a = true -> sign_clear (sqrt a) = true.
Proof.
  destruct a as [[|]|[|]| |[|] ma ea]; try discriminate; intros _; try reflexivity.
  unfold sqrt, SFsqrt.
  pose proof (sqrt_core_nonneg ma ea) as Hq.
  destruct (SFsqrt_core_binary prec emax (Zpos ma) ea) as [[mz ez] lz]. simpl in Hq.
  pose proof (binary_round_aux_shape false mz ez lz) as H.
  destruct (binary_round_aux _ _ _ _ _ _); try (subst; reflexivity). lia.
Qed.

Lemma sqrt_sign_clear_or_nan (a : float) :
  sign_clear a || is_nan a = true -> sign_clear (sqrt a) || is_nan (sqrt a) = true.
Proof.
  intros Ha. destruct (is_nan a) eqn:Ea; [destruct a; try discriminate; reflexivity|].
  rewrite orb_false_r in Ha. rewrite sqrt_sign_clear by exact Ha. reflexivity.
Qed.

Lemma sign_clear_nonNegative (a : float) : sign_clear a = true -> nonNegative a = true.
Proof. destruct a as [[|]|[|]| |[|] ma ea]; try discriminate; reflexivity. Qed.

Lemma sign_clear_or_nan_notNegative (a : float) :
  sign_clear a || is_nan a = true -> notNegative a = true.
Proof. destruct a as [[|]|[|]| |[|] ma ea]; try discriminate; reflexivity. Qed.
End Binary32Signs.

(** ** Lengths in binary32 *)

Section Binary32Lengths.
Import Binary32.

Lemma sub_self (a : float) : is_finite a = true -> sub a a = zero.
Proof.
  destruct a as [s|s| |s m e]; try discriminate; intros _.
  - destruct s; reflexivity.
  - unfold sub, SFsub. rewrite Z.sub_diag. reflexivity.
Qed.

(** The distance from a finite point to itself is [+0]. *)
Lemma distanceLine_self (p : FloatPoint float) :
  finitePoint p = true -> distanceLine p p = zero.
Proof.
  unfold finitePoint. intros H. apply andb_prop in H. destruct H as [Hx Hy].
  unfold distanceLine. cbn [fsub fmul fadd sqrtf arith].
  rewrite (sub_self _ Hx), (sub_self _ Hy). reflexivity.
Qed.

(** A distance is never negative, and it is not NaN between finite points. *)
Lemma distanceLine_sign_clear_or_nan (a b : FloatPoint float) :
  sign_clear (distanceLine a b) || is_nan (distanceLine a b) = true.
Proof.
  unfold distanceLine. cbn [fsub fmul fadd sqrtf arith].
  apply sqrt_sign_clear_or_nan, add_sign_clear_or_nan; apply mul_self_sign_clear_or_nan.
Qed.

Lemma distanceLine_sign_clear (a b : FloatPoint float) :
  finitePoint a = true -> finitePoint b = true -> sign_clear (distanceLine a b) = true.
Proof.
  unfold finitePoint. intros Ha Hb.
  apply andb_prop in Ha. apply andb_prop in Hb.
  destruct Ha as [Hax Hay], Hb as [Hbx Hby].
  unfold distanceLine. cbn [fsub fmul fadd sqrtf arith].
  apply sqrt_sign_clear, add_sign_clear; apply mul_self_sign_clear, sub_finite_not_nan;
    assumption.
Qed.

Lemma quadratic_polygon_sign (c : QuadraticBezier.t float) :
  sign_clear (approximateDistance c) || is_nan (approximateDistance c) = true.
Proof.
  cbn [approximateDistance QuadraticBezier_CurveType].
  unfold QuadraticBezier.approximateDistance. cbn [fadd arith].
  apply add_sign_clear_or_nan; apply distanceLine_sign_clear_or_nan.
Qed.

Lemma cubic_polygon_sign (c : CubicBezier.t float) :
  sign_clear (approximateDistance c) || is_nan (approximateDistance c) = true.
Proof.
  cbn [approximateDistance CubicBezier_CurveType].
  unfold CubicBezier.approximateDistance. cbn [fadd arith].
  repeat apply add_sign_clear_or_nan; apply distanceLine_sign_clear_or_nan.
Qed.
End Binary32Lengths.

(** ** What every run of the loop preserves *)

Section LoopInvariant.
Context {F : Type} {A : FloatArith F} {C : Type} {CT : CurveType F C}.
Variable P : F -> Prop.
Hypothesis P_add : forall a b : F, P a -> P b -> P (fadd a b).
Hypothesis P_polygon : forall c : C, P (approximateDistance c).

(** A property that sums inherit and that every polygon length has holds
    of the returned length as soon as it holds of the initial one. *)
Lemma loop_total_invariant (n : nat) :
  forall (v : LoopVars (C := C)) r st,
    curveLength_loop n v = Some (r, st) -> P (v_total v) -> P r.
Proof.
  induction n as [|n IH]; intros v r st H Hv; [discriminate|].
  rewrite curveLength_loop_S in H.
  assert (Hsum : P (fadd (v_total v) (approximateDistance (v_curve v))))
    by (apply P_add; [exact Hv|apply P_polygon]).
  unfold curveLength_body in H.
  destruct (fgt _ kPathSegmentLengthTolerance).
  - destruct (split (v_curve v)) as [l r0]. cbn [v_stack] in H.
    apply IH in H; exact H || exact Hv.
  - destruct (isPointOrAngle _).
    + destruct (fgt _ (m_desiredLength _)).
      * inversion H; subst. exact Hsum.
      * destruct (v_stack v) as [|c0 [|c1 rest]]; [discriminate| |].
        -- inversion H; subst. exact Hsum.
        -- cbn [v_stack] in H. apply IH in H; exact H || exact Hsum.
    + destruct (v_stack v) as [|c0 [|c1 rest]]; [discriminate| |].
      * inversion H; subst. exact Hsum.
      * cbn [v_stack] in H. apply IH in H; exact H || exact Hsum.
Qed.
End LoopInvariant.

(** ** Degenerate curves *)

Section Degenerate.
Import Binary32.

Lemma degenerate_quadratic_flat (p : FloatPoint float) :
  finitePoint p = true ->
  approximateDistance (QuadraticBezier.mk p p p) = zero
  /\ needsSplit (QuadraticBezier.mk p p p) = false.
Proof.
  intros Hp.
  assert (Hpoly : approximateDistance (QuadraticBezier.mk p p p) = zero).
  { cbn [approximateDistance QuadraticBezier_CurveType].
    unfold QuadraticBezier.approximateDistance.
    cbn [QuadraticBezier.start QuadraticBezier.control QuadraticBezier.end_].
    rewrite (distanceLine_self p Hp). reflexivity. }
  split; [exact Hpoly|].
  unfold needsSplit. rewrite Hpoly.
  cbn [start end_ QuadraticBezier_CurveType QuadraticBezier.start QuadraticBezier.end_].
  rewrite (distanceLine_self p Hp). reflexivity.
Qed.

Lemma degenerate_cubic_flat (p : FloatPoint float) :
  finitePoint p = true ->
  approximateDistance (CubicBezier.mk p p p p) = zero
  /\ needsSplit (CubicBezier.mk p p p p) = false.
Proof.
  intros Hp.
  assert (Hpoly : approximateDistance (CubicBezier.mk p p p p) = zero).
  { cbn [approximateDistance CubicBezier_CurveType].
    unfold CubicBezier.approximateDistance.
    cbn [CubicBezier.start CubicBezier.control1 CubicBezier.control2 CubicBezier.end_].
    rewrite (distanceLine_self p Hp). reflexivity. }
  split; [exact Hpoly|].
  unfold needsSplit. rewrite Hpoly.
  cbn [start end_ CubicBezier_CurveType CubicBezier.start CubicBezier.end_].
  rewrite (distanceLine_self p Hp). reflexivity.
Qed.

(** A flat curve whose polygon has length [+0] is done in one pass, with
    length [+0], whatever is asked for. *)
Lemma zero_length_curve_one_pass {C : Type} {CT : CurveType float C}
      (n : nat) (st : PathTraversalState float) (c : C) :
  approximateDistance c = zero ->
  needsSplit c = false ->
  curveLength (S n) st c
  = Some (zero, if isPointOrAngle (m_action st)
                then set_current (end_ c) (set_previous (start c) st) else st).
Proof.
  intros Hpoly Hflat. unfold curveLength. rewrite curveLength_loop_S.
  destruct (isPointOrAngle (m_action st)) eqn:Ha.
  - rewrite body_flat_query by assumption.
    cbn [v_state v_curve v_stack v_total]. rewrite Hpoly.
    destruct (fgt _ _); reflexivity.
  - rewrite body_flat_total by assumption.
    cbn [v_state v_curve v_stack v_total]. rewrite Hpoly. reflexivity.
Qed.

(** C8.  A quadratic or cubic curve whose control points all equal one
    finite point [p] passes the flatness test at once: one pass of the loop
    suffices, for every state and every action, and the length returned is
    [+0].  The same holds of the segment operations called from [p]. *)
Theorem degenerate_curve_contributes_zero
        (p : FloatPoint float) (st : PathTraversalState float) (n : nat) :
  finitePoint p = true ->
  let st' := if isPointOrAngle (m_action st)
             then set_current p (set_previous p st) else st in
  needsSplit (QuadraticBezier.mk p p p) = false
  /\ curveLength (S n) st (QuadraticBezier.mk p p p) = Some (zero, st')
  /\ needsSplit (CubicBezier.mk p p p p) = false
  /\ curveLength (S n) st (CubicBezier.mk p p p p) = Some (zero, st')
  /\ (m_current st = p ->
      option_map fst (quadraticBezierTo (S n) st p p) = Some zero
      /\ option_map fst (cubicBezierTo (S n) st p p p) = Some zero).
Proof.
  intros Hp st'.
  destruct (degenerate_quadratic_flat p Hp) as [Hq1 Hq2].
  destruct (degenerate_cubic_flat p Hp) as [Hc1 Hc2].
  pose proof (zero_length_curve_one_pass n st _ Hq1 Hq2) as Hq.
  pose proof (zero_length_curve_one_pass n st _ Hc1 Hc2) as Hc.
  split; [exact Hq2|]. split; [exact Hq|]. split; [exact Hc2|]. split; [exact Hc|].
  intros Hcur. unfold quadraticBezierTo, cubicBezierTo. rewrite Hcur, Hq, Hc.
  split; reflexivity.
Qed.

(** Beyond the finite points: whatever the coordinates of [p], infinite
    or NaN included, the degenerate curves pass the flatness test at once,
    so the loop makes one pass and no split. *)
Lemma sub_self_cases (a : float) : sub a a = zero \/ sub a a = S754_nan.
Proof.
  destruct (is_finite a) eqn:E; [left; apply sub_self; exact E|right].
  destruct a as [s|[|]| |s m e]; try discriminate; reflexivity.
Qed.

Lemma distanceLine_self_cases (p : FloatPoint float) :
  distanceLine p p = zero \/ distanceLine p p = S754_nan.
Proof.
  unfold distanceLine. cbn [fsub fmul fadd sqrtf arith].
  destruct (sub_self_cases (FloatPoint.x p)) as [-> | ->],
           (sub_self_cases (FloatPoint.y p)) as [-> | ->];
    [left|right|right|right]; reflexivity.
Qed.

Lemma degenerate_curve_never_splits (p : FloatPoint float) :
  needsSplit (QuadraticBezier.mk p p p) = false
  /\ needsSplit (CubicBezier.mk p p p p) = false.
Proof.
  unfold needsSplit.
  cbn [approximateDistance start end_ QuadraticBezier_CurveType CubicBezier_CurveType].
  unfold QuadraticBezier.approximateDistance, CubicBezier.approximateDistance.
  cbn [QuadraticBezier.start QuadraticBezier.control QuadraticBezier.end_
       CubicBezier.start CubicBezier.control1 CubicBezier.control2 CubicBezier.end_].
  destruct (distanceLine_self_cases p) as [-> | ->]; split; reflexivity.
Qed.

(** The theorem at the point (1, 2), for a point query. *)
Lemma degenerate_curve_contributes_zero_witness :
  finitePoint (Sample.point (of_Z 1) (of_Z 2)) = true
  /\ curveLength 1 Sample.pointQuery
                 (QuadraticBezier.mk (Sample.point (of_Z 1) (of_Z 2))
                                     (Sample.point (of_Z 1) (of_Z 2))
                                     (Sample.point (of_Z 1) (of_Z 2)))
     = Some (zero,
             set_current (Sample.point (of_Z 1) (of_Z 2))
                         (set_previous (Sample.point (of_Z 1) (of_Z 2)) Sample.pointQuery)).
Proof.
  split; [reflexivity|].
  apply (degenerate_curve_contributes_zero
           (Sample.point (of_Z 1) (of_Z 2)) Sample.pointQuery 0).
  reflexivity.
Defined.
End Degenerate.

(** ** The theorems at concrete inputs *)

Section Witnesses.
Import Binary32 Sample.

(** A point query with [m_desiredLength = 1] on the flat piece
    (0,0) (1,2^-10) (2,0): the pass moves [m_previous] and [m_current] to
    the ends of the piece and the loop returns its length at once, though
    the stack still holds an entry. *)
Lemma query_pass_sets_points_and_stops_witness :
  let v := mkVars pointQuery shallow [shallow] zero in
  isPointOrAngle (m_action (v_state v)) = true
  /\ needsSplit (v_curve v) = false
  /\ curveLength_loop 1 v
     = Some (S754_finite false 8388612 (-22),
             set_current (point (of_Z 2) zero) (set_previous (point zero zero) pointQuery)).
Proof.
  intros v.
  assert (Ha : isPointOrAngle (m_action (v_state v)) = true) by reflexivity.
  assert (Hs : needsSplit (v_curve v) = false) by (vm_compute; reflexivity).
  split; [exact Ha|]. split; [exact Hs|].
  destruct (query_pass_sets_points_and_stops v Ha Hs) as (_ & _ & H & _).
  apply H. vm_compute. reflexivity.
Defined.
End Witnesses.

(** ** The halves of a curve follow one another *)

Lemma quadratic_split_chain {F : Type} {A : FloatArith F} (c : QuadraticBezier.t F) :
  start (fst (split c)) = start c
  /\ end_ (snd (split c)) = end_ c
  /\ end_ (fst (split c)) = start (snd (split c)).
Proof. repeat split. Qed.

Lemma cubic_split_chain {F : Type} {A : FloatArith F} (c : CubicBezier.t F) :
  start (fst (split c)) = start c
  /\ end_ (snd (split c)) = end_ c
  /\ end_ (fst (split c)) = start (snd (split c)).
Proof. repeat split. Qed.

(** ** The loop and the recursion, as a theorem *)

(** C10, as the code has it.  For a length query, and over any arithmetic,
    the loop returns [r] exactly when the recursion that threads the
    running total through the left half and then the right half, started
    from [0.0f], sums the curve up to [r]; the state is returned untouched.
    The copy of the input curve at the bottom of the stack only keeps the
    loop going and is never summed.  In exact arithmetic, where sums do not
    depend on their grouping, this is the value of the naive recursion
    [recLen]. *)
Theorem loop_is_threaded_recursion :
  (forall (F : Type) (A : FloatArith F) (C : Type) (CT : CurveType F C)
          (st st' : PathTraversalState F) (curve : C) (r : F),
      isPointOrAngle (m_action st) = false ->
      ((exists n, curveLength n st curve = Some (r, st'))
       <-> (st' = st /\ exists d, recAcc d f0 curve = Some r)))
  /\
  (forall (C : Type) (CT : CurveType R C)
          (st st' : PathTraversalState R) (curve : C) (r : R),
      isPointOrAngle (m_action st) = false ->
      ((exists n, curveLength n st curve = Some (r, st'))
       <-> (st' = st /\ exists d, recLen d curve = Some r))).
Proof.
  split.
  - intros F A C CT st st' curve r Ha. apply curveLength_iff_recAcc. exact Ha.
  - intros C CT st st' curve r Ha.
    rewrite (curveLength_iff_recAcc st curve r st' Ha).
    split; intros [Hst [d Hd]]; (split; [exact Hst|]); exists d.
    + apply exact_recAcc_recLen in Hd. destruct Hd as (w & Hw & ->).
      rewrite Hw. f_equal. simpl. lra.
    + apply exact_recAcc_recLen. exists r. split; [exact Hd|]. simpl. lra.
Qed.

(** ** The iterator: bounds only delay *)

Section IteratorFacts.
Context {F : Type} {A : FloatArith F}.

Lemma segmentLength_mono (n m : nat) (s : PathTraversalState F) (e : PathElement F) r :
  (n <= m)%nat -> segmentLength n s e = Some r -> segmentLength m s e = Some r.
Proof.
  intros Hle. destruct e as [p|p|c e|c1 c2 e|]; simpl; trivial.
  - unfold quadraticBezierTo, curveLength.
    destruct (curveLength_loop n _) as [[d1 s1]|] eqn:E; [|discriminate].
    eapply curveLength_loop_mono in E; [|exact Hle]. rewrite E. trivial.
  - unfold cubicBezierTo, curveLength.
    destruct (curveLength_loop n _) as [[d1 s1]|] eqn:E; [|discriminate].
    eapply curveLength_loop_mono in E; [|exact Hle]. rewrite E. trivial.
Qed.

Lemma applySegment_mono (n m : nat) (s : PathTraversalState F) (e : PathElement F) r :
  (n <= m)%nat -> applySegment n s e = Some r -> applySegment m s e = Some r.
Proof.
  intros Hle. unfold applySegment. destruct (m_success s); trivial.
  destruct (segmentLength n s e) as [[d1 s1]|] eqn:E; [|discriminate].
  rewrite (segmentLength_mono n m s e _ Hle E). trivial.
Qed.

Lemma traverse_mono (n m : nat) (path : list (PathElement F)) :
  forall (s : PathTraversalState F) r,
    (n <= m)%nat -> traverse n s path = Some r -> traverse m s path = Some r.
Proof.
  induction path as [|e rest IH]; intros s r Hle; simpl; trivial.
  destruct (applySegment n s e) as [s'|] eqn:E; [|discriminate].
  rewrite (applySegment_mono n m s e _ Hle E). apply IH. exact Hle.
Qed.

End IteratorFacts.

(** ** Rounding in binary32: sums do not fall below their terms *)

Section Binary32Rounding.
Import Binary32.
Local Open Scope Z_scope.

Lemma digits2_pos_size (m : positive) : digits2_pos m = Pos.size m.
Proof. induction m as [m IH|m IH|]; simpl; congruence. Qed.

Lemma digits2_pos_bounds (m : positive) :
  2 ^ (Zpos (digits2_pos m) - 1) <= Zpos m < 2 ^ Zpos (digits2_pos m).
Proof.
  rewrite digits2_pos_size.
  pose proof (Pos.size_gt m) as Hgt. pose proof (Pos.size_le m) as Hle.
  apply Pos2Z.pos_lt_pos in Hgt. apply Pos2Z.pos_le_pos in Hle.
  rewrite Pos2Z.inj_pow in Hgt, Hle.
  change (Zpos m~0) with (2 * Zpos m) in Hle.
  split; [|exact Hgt].
  replace (Zpos (Pos.size m)) with (Z.succ (Zpos (Pos.size m) - 1)) in Hle by lia.
  rewrite Z.pow_succ_r in Hle by lia. lia.
Qed.

Lemma pow2_lt_exponent (a b : Z) : 0 <= b -> 2 ^ a < 2 ^ b -> a < b.
Proof.
  intros Hb H. destruct (Z_lt_le_dec a b) as [Hlt|Hge]; [exact Hlt|].
  assert (2 ^ b <= 2 ^ a) by (apply Z.pow_le_mono_r; lia). lia.
Qed.

Lemma iter_xO_value (m d : positive) : Zpos (Pos.iter xO m d) = Zpos m * 2 ^ Zpos d.
Proof.
  induction d as [|d IH] using Pos.peano_ind.
  - simpl. lia.
  - rewrite Pos.iter_succ, Pos2Z.inj_xO, IH, Pos2Z.inj_succ, Z.pow_succ_r by lia. lia.
Qed.

Lemma shl_align_value (m : positive) (e e' : Z) :
  e' <= e -> Zpos (fst (shl_align m e e')) = Zpos m * 2 ^ (e - e').
Proof.
  intros Hle. unfold shl_align.
  destruct (e' - e) as [|p|p] eqn:E; simpl.
  - replace (e - e') with 0 by lia. simpl. lia.
  - lia.
  - rewrite iter_xO_value. replace (e - e') with (Zpos p) by lia. reflexivity.
Qed.

Lemma shr_1_value (r : shr_record) : 0 <= shr_m r -> shr_m (shr_1 r) = shr_m r / 2.
Proof.
  destruct r as [m rb sb]. simpl. intros Hm.
  destruct m as [|[p|p|]|p]; simpl; try reflexivity; try lia.
  - rewrite Pos2Z.inj_xI. apply Z.div_unique with 1; lia.
  - rewrite Pos2Z.inj_xO. apply Z.div_unique with 0; lia.
Qed.

Lemma iter_shr_1_value (p : positive) :
  forall r : shr_record,
    0 <= shr_m r -> shr_m (iter_pos shr_1 p r) = shr_m r / 2 ^ Zpos p.
Proof.
  induction p as [p IH|p IH|]; intros r Hr; simpl iter_pos.
  - assert (H1 : 0 <= shr_m (shr_1 r)) by (apply shr_1_nonneg; exact Hr).
    assert (H2 : 0 <= shr_m (iter_pos shr_1 p (shr_1 r)))
      by (apply (iter_pos_invariant (fun x => 0 <= shr_m x)); [exact shr_1_nonneg|exact H1]).
    rewrite IH, IH, shr_1_value by assumption.
    rewrite !Z.div_div by (try apply Z.pow_pos_nonneg; lia).
    replace (Zpos p~1) with (1 + Zpos p + Zpos p) by lia.
    rewrite !Z.pow_add_r by lia. rewrite Z.mul_assoc. reflexivity.
  - assert (H2 : 0 <= shr_m (iter_pos shr_1 p r))
      by (apply (iter_pos_invariant (fun x => 0 <= shr_m x)); [exact shr_1_nonneg|exact Hr]).
    rewrite IH, IH by assumption.
    rewrite !Z.div_div by (try apply Z.pow_pos_nonneg; lia).
    replace (Zpos p~0) with (Zpos p + Zpos p) by lia.
    rewrite !Z.pow_add_r by lia. reflexivity.
  - rewrite shr_1_value by exact Hr. reflexivity.
Qed.

Lemma shr_value (r : shr_record) (e n : Z) :
  0 <= shr_m r -> 0 <= n ->
  shr_m (fst (shr r e n)) = shr_m r / 2 ^ n /\ snd (shr r e n) = e + n.
Proof.
  intros Hr Hn. unfold shr. destruct n as [|p|p]; simpl fst; simpl snd.
  - rewrite Z.div_1_r. split; lia.
  - split; [apply iter_shr_1_value; exact Hr|reflexivity].
  - lia.
Qed.

Lemma round_nearest_even_ge (m : Z) (l : location) : m <= round_nearest_even m l.
Proof.
  destruct l as [|[ | | ]]; simpl; try lia. destruct (Z.even m); lia.
Qed.

Lemma fexp_mono (a b : Z) : a <= b -> fexp prec emax a <= fexp prec emax b.
Proof. unfold fexp. lia. Qed.

Lemma fexp_ge_emin (a : Z) : emin prec emax <= fexp prec emax a.
Proof. unfold fexp. lia. Qed.

(** A mantissa that is at least a canonical number gets at least its
    exponent. *)
Lemma fexp_dominates (M mT : positive) (ez eT : Z) :
  ez <= eT ->
  Zpos mT * 2 ^ (eT - ez) <= Zpos M ->
  canonical_mantissa prec emax mT eT = true ->
  eT <= fexp prec emax (Zpos (digits2_pos M) + ez).
Proof.
  intros Hez HM Hcan.
  unfold canonical_mantissa in Hcan. apply Z.eqb_eq in Hcan.
  pose proof (digits2_pos_bounds M) as HdM.
  pose proof (digits2_pos_bounds mT) as HdT.
  set (dM := Zpos (digits2_pos M)) in *.
  set (dT := Zpos (digits2_pos mT)) in *.
  assert (Hpow : 0 < 2 ^ (eT - ez)) by (apply Z.pow_pos_nonneg; lia).
  assert (Hdig : dT + eT <= dM + ez).
  { assert (H1 : 2 ^ (dT - 1) * 2 ^ (eT - ez) <= Zpos M) by nia.
    rewrite <- Z.pow_add_r in H1 by (subst dT; lia).
    assert (H2 : 2 ^ (dT - 1 + (eT - ez)) < 2 ^ dM) by lia.
    apply pow2_lt_exponent in H2; [lia|subst dM; lia]. }
  rewrite <- Hcan at 1. apply fexp_mono. exact Hdig.
Qed.

(** Rounding a mantissa that is at least a canonical number gives at least
    that number. *)
Lemma binary_round_aux_lower_bound (M mT : positive) (ez eT : Z) :
  ez <= eT ->
  Zpos mT * 2 ^ (eT - ez) <= Zpos M ->
  canonical_mantissa prec emax mT eT = true ->
  match binary_round_aux prec emax false (Zpos M) ez loc_Exact with
  | S754_infinity false => True
  | S754_finite false m3 e3 => eT < e3 \/ (e3 = eT /\ (mT <= m3)%positive)
  | _ => False
  end.
Proof.
  intros Hez HM Hcan.
  pose proof (fexp_dominates M mT ez eT Hez HM Hcan) as HE.
  unfold canonical_mantissa in Hcan. apply Z.eqb_eq in Hcan.
  pose proof (digits2_pos_bounds M) as HdM.
  set (dM := Zpos (digits2_pos M)) in *.
  set (E := fexp prec emax (dM + ez)) in *.
  assert (Hpow : 0 < 2 ^ (eT - ez)) by (apply Z.pow_pos_nonneg; lia).
  assert (HeTmin : emin prec emax <= eT) by (rewrite <- Hcan; apply fexp_ge_emin).
  unfold binary_round_aux, shr_fexp.
  change (Zdigits2 (Zpos M)) with dM. fold E.
  destruct (shr_value (shr_record_of_loc (Zpos M) loc_Exact) ez (E - ez)) as [Hm1 He1];
    [simpl; lia|lia|].
  destruct (shr (shr_record_of_loc (Zpos M) loc_Exact) ez (E - ez)) as [r1 e1].
  simpl fst in Hm1. simpl snd in He1. simpl shr_m in Hm1.
  assert (He1' : e1 = E) by lia. clear He1. subst e1.
  set (m1 := shr_m r1) in *.
  assert (Hk : 0 < 2 ^ (E - ez)) by (apply Z.pow_pos_nonneg; lia).
  assert (Hm1pos : 1 <= m1 /\ (E = eT -> Zpos mT <= m1)).
  { split.
    - destruct (Z.eq_dec E eT) as [Heq|Hne].
      + rewrite Hm1, Heq. apply Z.div_le_lower_bound; [lia|nia].
      + assert (HEval : E = dM + ez - prec) by (unfold E, fexp in *; lia).
        rewrite Hm1. apply Z.div_le_lower_bound; [lia|].
        rewrite Z.mul_1_r.
        apply Z.le_trans with (2 ^ (dM - 1)); [|lia].
        apply Z.pow_le_mono_r; [lia|]. unfold prec in HEval. lia.
    - intros Heq. rewrite Hm1, Heq. apply Z.div_le_lower_bound; [lia|].
      rewrite Z.mul_comm. exact HM. }
  destruct Hm1pos as [Hm1pos Hm1T].
  pose proof (round_nearest_even_ge m1 (loc_of_shr_record r1)) as Hm2.
  set (m2 := round_nearest_even m1 (loc_of_shr_record r1)) in *.
  destruct m2 as [|p2|p2] eqn:Em2; try lia.
  pose proof (digits2_pos_bounds p2) as Hd2.
  change (Zdigits2 (Zpos p2)) with (Zpos (digits2_pos p2)).
  set (d2 := Zpos (digits2_pos p2)) in *.
  set (n2 := fexp prec emax (d2 + E) - E).
  unfold shr. destruct n2 as [|q|q] eqn:En2.
  - simpl shr_m. destruct (E <=? emax - prec); [|exact I].
    destruct (Z.eq_dec E eT) as [Heq|Hne]; [right|left; lia].
    split; [exact Heq|]. specialize (Hm1T Heq). lia.
  - assert (Hn2 : Zpos q = d2 - prec).
    { pose proof (fexp_ge_emin (dM + ez)) as HEmin. fold E in HEmin.
      unfold n2, fexp in En2. unfold fexp in HEmin. lia. }
    pose proof (iter_shr_1_value q (shr_record_of_loc (Zpos p2) loc_Exact)
                                 ltac:(simpl; lia)) as Hm3.
    change (shr_m (shr_record_of_loc (Zpos p2) loc_Exact)) with (Zpos p2) in Hm3.
    set (m3 := shr_m (iter_pos shr_1 q (shr_record_of_loc (Zpos p2) loc_Exact))) in *.
    assert (Hm3pos : 1 <= m3).
    { rewrite Hm3. apply Z.div_le_lower_bound; [apply Z.pow_pos_nonneg; lia|].
      rewrite Z.mul_1_r. apply Z.le_trans with (2 ^ (d2 - 1)); [|lia].
      apply Z.pow_le_mono_r; [lia|]. unfold prec in Hn2. lia. }
    destruct m3 as [|p3|p3]; try lia.
    destruct (E + Zpos q <=? emax - prec); [|exact I].
    left. lia.
  - simpl shr_m. destruct (E <=? emax - prec); [|exact I].
    destruct (Z.eq_dec E eT) as [Heq|Hne]; [right|left; lia].
    split; [exact Heq|]. specialize (Hm1T Heq). lia.
Qed.

(** Adding a number that is not negative to a valid total that is not
    negative does not make the total smaller. *)
Lemma add_not_below (T r : float) :
  valid_binary prec emax T = true ->
  sign_clear T = true -> sign_clear r = true ->
  le T (add T r) = true.
Proof.
  intros Hvalid HT Hr.
  destruct T as [[|]|[|]| |[|] mT eT]; try discriminate;
    destruct r as [[|]|[|]| |[|] mr er]; try discriminate; try reflexivity.
  - unfold le, add, SFadd, SFleb, SFcompare.
    rewrite Z.compare_refl, Pcompare_refl. reflexivity.
  - simpl in Hvalid. unfold bounded in Hvalid. apply andb_prop in Hvalid.
    destruct Hvalid as [Hcan _].
    unfold add, SFadd, binary_normalize, cond_Zopp.
    set (ez := Z.min eT er).
    assert (Hez : ez <= eT) by (unfold ez; lia).
    pose proof (shl_align_value mT eT ez Hez) as HMT.
    set (MT := fst (shl_align mT eT ez)) in *.
    set (Mr := fst (shl_align mr er ez)).
    rewrite <- Pos2Z.inj_add.
    assert (HM : Zpos mT * 2 ^ (eT - ez) <= Zpos (MT + Mr)) by lia.
    pose proof (fexp_dominates (MT + Mr) mT ez eT Hez HM Hcan) as HE.
    pose proof (binary_round_aux_lower_bound (MT + Mr) mT ez eT Hez HM Hcan) as Hb.
    unfold binary_round, shl_align.
    destruct (fexp prec emax (Zpos (digits2_pos (MT + Mr)) + ez) - ez) as [|p|p] eqn:Ek;
      try lia;
      (destruct (binary_round_aux prec emax false (Zpos (MT + Mr)) ez loc_Exact)
        as [[|]|[|]| |[|] m3 e3]; try contradiction; try reflexivity;
       unfold le, SFleb, SFcompare;
       destruct Hb as [Hlt|[Heq Hle]];
       [apply Z.compare_lt_iff in Hlt; rewrite Hlt; reflexivity
       |subst e3; rewrite Z.compare_refl;
        change (Pos.compare_cont Eq mT m3) with (Pos.compare mT m3);
        apply Pos.compare_le_iff in Hle;
        destruct (Pos.compare mT m3); try reflexivity; contradiction]).
Qed.
End Binary32Rounding.

(** ** Signs of the returned lengths, as theorems *)

Section Binary32Operations.
Import Binary32.

Lemma binary32_curveLength_sign {C : Type} {CT : CurveType float C}
      (polygon_sign : forall c : C,
          sign_clear (approximateDistance c) || is_nan (approximateDistance c) = true)
      (n : nat) (st : PathTraversalState float) (c : C) d st' :
  curveLength n st c = Some (d, st') -> sign_clear d || is_nan d = true.
Proof.
  unfold curveLength. intros H.
  refine (loop_total_invariant (fun x => sign_clear x || is_nan x = true)
                               _ polygon_sign n _ d st' H _).
  - intros a b. exact (add_sign_clear_or_nan a b).
  - reflexivity.
Qed.

Lemma binary32_quadraticBezierTo_sign n (s : PathTraversalState float) c e d s' :
  quadraticBezierTo n s c e = Some (d, s') -> notNegative d = true.
Proof.
  unfold quadraticBezierTo.
  destruct (curveLength n s _) as [[d1 s1]|] eqn:E; [|discriminate].
  intros H. inversion H; subst.
  apply sign_clear_or_nan_notNegative.
  exact (binary32_curveLength_sign quadratic_polygon_sign n s _ d s1 E).
Qed.

Lemma binary32_cubicBezierTo_sign n (s : PathTraversalState float) c1 c2 e d s' :
  cubicBezierTo n s c1 c2 e = Some (d, s') -> notNegative d = true.
Proof.
  unfold cubicBezierTo.
  destruct (curveLength n s _) as [[d1 s1]|] eqn:E; [|discriminate].
  intros H. inversion H; subst.
  apply sign_clear_or_nan_notNegative.
  exact (binary32_curveLength_sign cubic_polygon_sign n s _ d s1 E).
Qed.
Lemma binary32_segmentLength_sign n (s : PathTraversalState float) (e : PathElement float)
      d s' :
  segmentLength n s e = Some (d, s') -> sign_clear d || is_nan d = true.
Proof.
  destruct e as [p|p|c e|c1 c2 e|]; simpl; intros H.
  - inversion H; subst. reflexivity.
  - inversion H; subst. apply distanceLine_sign_clear_or_nan.
  - unfold quadraticBezierTo in H.
    destruct (curveLength n s _) as [[d1 s1]|] eqn:E; [|discriminate].
    inversion H; subst.
    exact (binary32_curveLength_sign quadratic_polygon_sign n s _ d s1 E).
  - unfold cubicBezierTo in H.
    destruct (curveLength n s _) as [[d1 s1]|] eqn:E; [|discriminate].
    inversion H; subst.
    exact (binary32_curveLength_sign cubic_polygon_sign n s _ d s1 E).
  - inversion H; subst. apply distanceLine_sign_clear_or_nan.
Qed.

(** In binary32 a returned length that is a number does not pull a valid,
    non-negative total down. *)
Lemma binary32_segment_keeps_total n (s : PathTraversalState float) (e : PathElement float)
      d s' :
  segmentLength n s e = Some (d, s') ->
  valid_binary prec emax (m_totalLength s) = true ->
  sign_clear (m_totalLength s) = true ->
  is_nan d = false ->
  le (m_totalLength s) (add (m_totalLength s') d) = true.
Proof.
  intros H Hvalid Hsign Hnan.
  pose proof (binary32_segmentLength_sign n s e d s' H) as Hd.
  rewrite Hnan, orb_false_r in Hd.
  destruct (@segmentLength_keeps_accumulators _ _ n s e d s' H) as (Htot & _).
  rewrite Htot. apply add_not_below; assumption.
Qed.
End Binary32Operations.

(** ** Runs of the loop that do not end *)

Section EndlessRuns.
Context {F : Type} {A : FloatArith F} {C : Type} {CT : CurveType F C}.

(** After [k] passes the loop goes on from the variables it has reached. *)
Lemma passes_then_loop (k : nat) :
  forall (v v' : LoopVars (C := C)) (n : nat),
    passes k v = Some v' -> curveLength_loop (k + n) v = curveLength_loop n v'.
Proof.
  induction k as [|k IH]; intros v v' n H.
  - inversion H; subst. reflexivity.
  - cbn [passes] in H. cbn [Nat.add]. rewrite curveLength_loop_S.
    destruct (curveLength_body v) as [v1| |]; try discriminate.
    destruct (v_stack v1) as [|c rest]; [discriminate|].
    apply IH. exact H.
Qed.

(** Two passes that lead back to the same variables: the loop is never
    left. *)
Lemma two_cycle_never_returns (v v1 : LoopVars (C := C)) :
  curveLength_body v = Next v1 -> v_stack v1 <> [] ->
  curveLength_body v1 = Next v -> v_stack v <> [] ->
  forall n, curveLength_loop n v = None /\ curveLength_loop n v1 = None.
Proof.
  intros Hb Hs1 Hb1 Hs n.
  induction n as [|n [IH IH1]]; [split; reflexivity|].
  split; rewrite curveLength_loop_S.
  - rewrite Hb. destruct (v_stack v1); [contradiction|exact IH1].
  - rewrite Hb1. destruct (v_stack v); [contradiction|exact IH].
Qed.

(** A run that comes into such a cycle gives no result within any bound. *)
Lemma cycle_reached_never_returns (k : nat) (v0 v v1 : LoopVars (C := C)) :
  passes k v0 = Some v ->
  curveLength_body v = Next v1 -> v_stack v1 <> [] ->
  curveLength_body v1 = Next v -> v_stack v <> [] ->
  forall n, curveLength_loop n v0 = None.
Proof.
  intros Hp Hb Hs1 Hb1 Hs n.
  destruct (curveLength_loop n v0) as [r|] eqn:E; [|reflexivity].
  apply (@curveLength_loop_mono _ _ _ _ n (k + n) v0 r) in E; [|lia].
  rewrite (passes_then_loop k v0 v n Hp) in E.
  destruct (two_cycle_never_returns v v1 Hb Hs1 Hb1 Hs n) as [Hn _].
  congruence.
Qed.
End EndlessRuns.

Section Binary32Endless.
Import Binary32 Sample.

(** On [loopback] the loop comes, after 33 passes, to a piece one unit in
    the last place wide that is not flat, whose left half has length zero
    and whose right half is the piece itself: the 35th pass leaves the
    variables as the 33rd left them. *)
Lemma loopback_reaches_cycle :
  exists v v1 : LoopVars (C := CubicBezier.t float),
    passes 33 (mkVars atLoopback loopback [loopback] zero) = Some v
    /\ curveLength_body v = Next v1 /\ v_stack v1 <> []
    /\ curveLength_body v1 = Next v /\ v_stack v <> [].
Proof.
  eexists. eexists.
  split; [vm_compute; reflexivity|].
  split; [vm_compute; reflexivity|].
  split; [discriminate|].
  split; [vm_compute; reflexivity|discriminate].
Qed.
End Binary32Endless.

(** C5.  Every segment operation is to return a value [>= 0] on finite
    input.  On the cubic (281,511) (369,531) (255,505) (225,497), whose
    coordinates are finite, the code does not: [cubicBezierTo] returns no
    value at all.  From the 33rd pass on the loop of [curveLength]
    alternates between two sets of variables, the stack eight or nine deep
    and the running length unchanged, and it never pops an empty stack:
    within no bound of passes is there a result. *)
Theorem cubicBezierTo_never_returns :
  finitePoint (m_current Sample.atLoopback) = true
  /\ finitePoint (CubicBezier.control1 Sample.loopback) = true
  /\ finitePoint (CubicBezier.control2 Sample.loopback) = true
  /\ finitePoint (CubicBezier.end_ Sample.loopback) = true
  /\ (forall n : nat,
         cubicBezierTo n Sample.atLoopback
                       (CubicBezier.control1 Sample.loopback)
                       (CubicBezier.control2 Sample.loopback)
                       (CubicBezier.end_ Sample.loopback) = None)
  /\ (forall n : nat,
         popsEmpty n (mkVars Sample.atLoopback Sample.loopback [Sample.loopback]
                             Binary32.zero) = false).
Proof.
  split; [reflexivity|]. split; [reflexivity|]. split; [reflexivity|].
  split; [reflexivity|]. split.
  - intros n.
    destruct loopback_reaches_cycle as (v & v1 & Hp & Hb & Hs1 & Hb1 & Hs).
    assert (H : curveLength n Sample.atLoopback Sample.loopback = None)
      by exact (cycle_reached_never_returns 33 _ v v1 Hp Hb Hs1 Hb1 Hs n).
    unfold cubicBezierTo.
    change (CubicBezier.mk (m_current Sample.atLoopback)
              (CubicBezier.control1 Sample.loopback)
              (CubicBezier.control2 Sample.loopback)
              (CubicBezier.end_ Sample.loopback)) with Sample.loopback.
    rewrite H. reflexivity.
  - intros n. apply loop_never_pops_empty. apply cons_not_nil.
Qed.

(** X17.  In binary32: [moveTo] returns [+0]; [lineTo] and [closeSubpath] return
    a value [>= 0] whenever the points involved are finite;
    [quadraticBezierTo] and [cubicBezierTo], when they return, return a
    value that is not negative, NaN included; and a returned length that is
    not NaN, added to a valid total [>= 0], gives a total that is not
    smaller. *)
Theorem binary32_lengths_not_negative :
  (forall (s : PathTraversalState Binary32.float) p,
      fst (moveTo s p) = Binary32.zero)
  /\ (forall (s : PathTraversalState Binary32.float) p,
         finitePoint (m_current s) = true -> finitePoint p = true ->
         Binary32.nonNegative (fst (lineTo s p)) = true)
  /\ (forall s : PathTraversalState Binary32.float,
         finitePoint (m_current s) = true -> finitePoint (m_start s) = true ->
         Binary32.nonNegative (fst (closeSubpath s)) = true)
  /\ (forall n (s : PathTraversalState Binary32.float) c e d s',
         quadraticBezierTo n s c e = Some (d, s') -> Binary32.notNegative d = true)
  /\ (forall n (s : PathTraversalState Binary32.float) c1 c2 e d s',
         cubicBezierTo n s c1 c2 e = Some (d, s') -> Binary32.notNegative d = true)
  /\ (forall n (s : PathTraversalState Binary32.float) (e : PathElement Binary32.float)
             d s',
         segmentLength n s e = Some (d, s') ->
         valid_binary Binary32.prec Binary32.emax (m_totalLength s) = true ->
         Binary32.sign_clear (m_totalLength s) = true ->
         Binary32.is_nan d = false ->
         Binary32.le (m_totalLength s) (fadd (m_totalLength s') d) = true).
Proof.
  split; [|split; [|split; [|split; [|split]]]].
  - intros s p. reflexivity.
  - intros s p Hc Hp. apply sign_clear_nonNegative, distanceLine_sign_clear; assumption.
  - intros s Hc Hs. apply sign_clear_nonNegative, distanceLine_sign_clear; assumption.
  - exact binary32_quadraticBezierTo_sign.
  - exact binary32_cubicBezierTo_sign.
  - intros n s e d s'. apply binary32_segment_keeps_total.
Qed.

(** ** Rounding in binary32: the shifts of [binary_round_aux] *)

Section Binary32Shifts.
Import Binary32.
Local Open Scope Z_scope.

(** [iter_pos] applies the function as many times as its positive argument
    says. *)
Lemma iter_pos_shift {T : Type} (f : T -> T) (p : positive) :
  forall x, iter_pos f p (f x) = f (iter_pos f p x).
Proof.
  induction p as [p IH|p IH|]; intros x; simpl.
  - rewrite !IH. reflexivity.
  - rewrite !IH. reflexivity.
  - reflexivity.
Qed.

Lemma iter_pos_succ {T : Type} (f : T -> T) (p : positive) (x : T) :
  iter_pos f (Pos.succ p) x = f (iter_pos f p x).
Proof.
  revert x. induction p as [p IH|p IH|]; intros x; simpl.
  - rewrite !IH, !iter_pos_shift. reflexivity.
  - rewrite !iter_pos_shift. reflexivity.
  - reflexivity.
Qed.

(** One shift to the right. *)
Lemma shr_1_spec (m : Z) (r s : bool) :
  0 <= m ->
  shr_1 (Build_shr_record m r s) = Build_shr_record (m / 2) (Z.odd m) (r || s).
Proof.
  intros Hm. destruct m as [|[p|p|]|p]; try lia; simpl shr_1; f_equal.
  - rewrite Pos2Z.inj_xI. apply Z.div_unique with 1; lia.
  - rewrite Pos2Z.inj_xO. apply Z.div_unique with 0; lia.
Qed.

(** [k] shifts to the right: the mantissa, the round bit and the sticky
    bit. *)
Lemma iter_shr_1_spec (M : Z) (r0 s0 : bool) (k : positive) :
  0 <= M ->
  iter_pos shr_1 k (Build_shr_record M r0 s0)
  = Build_shr_record (M / 2 ^ Zpos k) (Z.testbit M (Zpos k - 1))
                     (r0 || s0 || negb (M mod 2 ^ (Zpos k - 1) =? 0)).
Proof.
  intros HM. induction k as [|k IH] using Pos.peano_ind.
  - cbn [iter_pos]. rewrite shr_1_spec by exact HM.
    change (Zpos 1 - 1) with 0. rewrite Z.bit0_odd, Z.pow_0_r, Z.mod_1_r.
    change (2 ^ 1) with 2. simpl negb. rewrite orb_false_r. reflexivity.
  - rewrite iter_pos_succ, IH.
    assert (Hq : 0 <= M / 2 ^ Zpos k) by (apply Z.div_pos; [exact HM|apply Z.pow_pos_nonneg; lia]).
    rewrite shr_1_spec by exact Hq.
    rewrite Pos2Z.inj_succ.
    replace (Z.succ (Zpos k) - 1) with (Zpos k) by lia.
    f_equal.
    + rewrite Z.div_div by (try apply Z.pow_pos_nonneg; lia).
      rewrite Z.pow_succ_r by lia. f_equal. lia.
    + rewrite <- Z.bit0_odd, Z.div_pow2_bits by lia. f_equal.
    + (* sticky *)
      assert (Hsplit : M mod 2 ^ Zpos k
                       = M mod 2 ^ (Zpos k - 1)
                         + 2 ^ (Zpos k - 1) * Z.b2z (Z.testbit M (Zpos k - 1))).
      { rewrite Z.testbit_spec' by lia.
        assert (Hp : 0 < 2 ^ (Zpos k - 1)) by (apply Z.pow_pos_nonneg; lia).
        replace (2 ^ Zpos k) with (2 ^ (Zpos k - 1) * 2).
        2:{ rewrite Z.mul_comm, <- Z.pow_succ_r by lia. f_equal. lia. }
        rewrite Z.rem_mul_r by lia. reflexivity. }
      assert (Hp : 0 < 2 ^ (Zpos k - 1)) by (apply Z.pow_pos_nonneg; lia).
      pose proof (Z.mod_pos_bound M (2 ^ (Zpos k - 1)) Hp) as Hb.
      destruct (Z.testbit M (Zpos k - 1)); simpl Z.b2z in Hsplit.
      * rewrite orb_true_l.
        destruct (Z.eqb_spec (M mod 2 ^ Zpos k) 0) as [E|E]; [lia|].
        simpl. rewrite !orb_true_r. reflexivity.
      * rewrite orb_false_l. rewrite Hsplit, Z.mul_0_r, Z.add_0_r. reflexivity.
Qed.
End Binary32Shifts.

(** ** Rounding in binary32: the result of [binary_round_aux] *)

Section Binary32RoundingForm.
Import Binary32.
Local Open Scope Z_scope.

Lemma loc_of_record_of_loc (m : Z) (l : location) :
  loc_of_shr_record (shr_record_of_loc m l) = l.
Proof. destruct l as [|[| |]]; reflexivity. Qed.

Lemma record_bits (m : Z) (l : location) :
  exists r0 s0, shr_record_of_loc m l = Build_shr_record m r0 s0
                /\ r0 || s0 = negb (is_exact l).
Proof. destruct l as [|[| |]]; eexists _, _; split; reflexivity. Qed.

Lemma shr_spec (M e n : Z) (l : location) :
  0 <= M -> 0 <= n ->
  let '(r1, e1) := shr (shr_record_of_loc M l) e n in
  shr_m r1 = M / 2 ^ n /\ loc_of_shr_record r1 = shift_loc M n l /\ e1 = e + n.
Proof.
  intros HM Hn. unfold shr, shift_loc.
  destruct n as [|p|p]; try lia.
  - simpl Z.leb. cbv iota. rewrite loc_of_record_of_loc, Z.div_1_r.
    destruct l as [|[| |]]; simpl; repeat split; lia.
  - destruct (record_bits M l) as (r0 & s0 & -> & Hrs).
    rewrite iter_shr_1_spec by exact HM.
    destruct (Z.leb_spec (Zpos p) 0); [lia|].
    cbn [shr_m]. rewrite Hrs. repeat split.
Qed.

Lemma digits_pos_lt (M : positive) (k : Z) :
  Zpos (digits2_pos M) <= k -> Zpos M < 2 ^ k.
Proof.
  intros Hk. pose proof (digits2_pos_bounds M) as [_ H].
  apply Z.lt_le_trans with (2 ^ Zpos (digits2_pos M)); [exact H|].
  apply Z.pow_le_mono_r; lia.
Qed.

Lemma digits_pos_ge (M : positive) (k : Z) :
  0 <= k -> 2 ^ k <= Zpos M -> k < Zpos (digits2_pos M).
Proof.
  intros Hk H. pose proof (digits2_pos_bounds M) as [_ H2].
  apply pow2_lt_exponent; lia.
Qed.

Lemma round_nearest_even_bounds (m : Z) (l : location) :
  m <= round_nearest_even m l <= m + 1.
Proof.
  destruct l as [|[| |]]; simpl; try lia. destruct (Z.even m); lia.
Qed.

(** What [binary_round_aux] computes from a mantissa that has digits
    enough. *)
Lemma binary_round_aux_spec (M : positive) (e : Z) (l : location) :
  e <= fexp prec emax (Zpos (digits2_pos M) + e) ->
  let E := fexp prec emax (Zpos (digits2_pos M) + e) in
  let m1 := Zpos M / 2 ^ (E - e) in
  binary_round_aux prec emax false (Zpos M) e l = packed (rounded (Zpos M) e l) E
  /\ 0 <= m1 < 2 ^ prec
  /\ (emin prec emax < E -> 2 ^ (prec - 1) <= m1)
  /\ m1 <= rounded (Zpos M) e l <= m1 + 1.
Proof.
  intros Hn E m1.
  pose proof (digits2_pos_bounds M) as [HdL HdU].
  set (d := Zpos (digits2_pos M)) in *.
  assert (Hd : 1 <= d) by (unfold d; lia).
  set (n := E - e) in *.
  assert (Hn0 : 0 <= n) by (unfold n; fold E in Hn; lia).
  assert (Hpn : 0 < 2 ^ n) by (apply Z.pow_pos_nonneg; lia).
  assert (HEmin : emin prec emax <= E) by apply fexp_ge_emin.
  assert (HEd : d + e - prec <= E) by (unfold E, fexp; lia).
  assert (Hm1 : 0 <= m1 < 2 ^ prec).
  { split; [apply Z.div_pos; lia|].
    apply Z.div_lt_upper_bound; [lia|].
    rewrite <- Z.pow_add_r by (unfold prec; lia).
    apply Z.lt_le_trans with (2 ^ d); [exact HdU|].
    apply Z.pow_le_mono_r; [lia|]. unfold n. lia. }
  assert (Hm1n : emin prec emax < E -> 2 ^ (prec - 1) <= m1).
  { intros HE. assert (HEv : E = d + e - prec) by (unfold E, fexp in *; lia).
    apply Z.div_le_lower_bound; [lia|].
    rewrite <- Z.pow_add_r by (unfold prec, n in *; lia).
    replace (n + (prec - 1)) with (d - 1) by (unfold n; lia). exact HdL. }
  pose proof (round_nearest_even_bounds m1 (shift_loc (Zpos M) n l)) as Hm2.
  assert (Hrn : rounded (Zpos M) e l = round_nearest_even m1 (shift_loc (Zpos M) n l)).
  { unfold rounded. change (Zdigits2 (Zpos M)) with d. fold E. fold n. reflexivity. }
  split; [|split; [exact Hm1|split; [exact Hm1n|rewrite Hrn; exact Hm2]]].
  rewrite Hrn.
  unfold binary_round_aux, shr_fexp.
  change (Zdigits2 (Zpos M)) with d. fold E. fold n.
  pose proof (shr_spec (Zpos M) e n l ltac:(lia) Hn0) as Hs.
  destruct (shr (shr_record_of_loc (Zpos M) l) e n) as [r1 e1].
  destruct Hs as (Hs1 & Hs2 & Hs3).
  rewrite Hs1, Hs2. fold m1. replace e1 with E by (unfold n in Hs3; lia).
  set (m2 := round_nearest_even m1 (shift_loc (Zpos M) n l)) in *.
  destruct m2 as [|p2|p2] eqn:Em2; [| |lia].
  - (* rounded to zero *)
    simpl Zdigits2. unfold shr.
    destruct (fexp prec emax (0 + E) - E) as [|q|q] eqn:En2.
    + reflexivity.
    + exfalso. unfold fexp in En2. unfold prec in *. lia.
    + reflexivity.
  - pose proof (digits2_pos_bounds p2) as [H2L H2U].
    change (Zdigits2 (Zpos p2)) with (Zpos (digits2_pos p2)).
    set (d2 := Zpos (digits2_pos p2)) in *.
    unfold packed.
    destruct (Z.eqb_spec (Zpos p2) (2 ^ prec)) as [Hc|Hc].
    + (* carry *)
      assert (Hd2 : d2 = prec + 1).
      { assert (prec < d2) by (apply digits_pos_ge; [unfold prec; lia|lia]).
        assert (d2 - 1 < prec + 1).
        { apply pow2_lt_exponent; [unfold prec; lia|].
          rewrite Hc in H2L. apply Z.le_lt_trans with (2 ^ prec); [exact H2L|].
          apply Z.pow_lt_mono_r; unfold prec; lia. }
        lia. }
      assert (Hn2 : fexp prec emax (d2 + E) - E = 1) by (unfold fexp; lia).
      rewrite Hn2. unfold shr. cbn [iter_pos shr_record_of_loc].
      rewrite shr_1_spec by lia. cbn [shr_m].
      rewrite Hc. change (2 ^ prec / 2) with (2 ^ (prec - 1)).
      change (2 ^ (prec - 1)) with (Zpos (Z.to_pos (2 ^ (prec - 1)))) at 1.
      cbv iota. reflexivity.
    + assert (Hlt : Zpos p2 < 2 ^ prec) by lia.
      assert (Hd2 : d2 <= prec).
      { assert (d2 - 1 < prec); [|lia].
        apply pow2_lt_exponent; [unfold prec; lia|lia]. }
      unfold shr.
      destruct (fexp prec emax (d2 + E) - E) as [|q|q] eqn:En2.
      * reflexivity.
      * exfalso. unfold fexp in En2. lia.
      * reflexivity.
Qed.

Lemma digits_of_range (p : positive) (k : Z) :
  0 < k -> 2 ^ (k - 1) <= Zpos p < 2 ^ k -> Zpos (digits2_pos p) = k.
Proof.
  intros Hk [HL HU].
  pose proof (digits2_pos_bounds p) as [H1 H2].
  assert (k - 1 < Zpos (digits2_pos p)) by (apply pow2_lt_exponent; lia).
  assert (Zpos (digits2_pos p) - 1 < k) by (apply pow2_lt_exponent; lia).
  lia.
Qed.

Lemma digits_le (p : positive) (k : Z) :
  0 <= k -> Zpos p < 2 ^ k -> Zpos (digits2_pos p) <= k.
Proof.
  intros Hk HU. pose proof (digits2_pos_bounds p) as [H1 _].
  assert (Zpos (digits2_pos p) - 1 < k) by (apply pow2_lt_exponent; lia).
  lia.
Qed.

(** A mantissa of the right size at the exponent of the format packs into a
    valid float. *)
Lemma packed_valid (m2 E : Z) :
  0 <= m2 <= 2 ^ prec -> emin prec emax <= E ->
  (emin prec emax < E -> 2 ^ (prec - 1) <= m2) ->
  valid_binary prec emax (packed m2 E) = true.
Proof.
  intros Hm HE Hn. unfold packed.
  destruct m2 as [|p|p]; [reflexivity| |lia].
  destruct (Z.eqb_spec (Zpos p) (2 ^ prec)) as [Hc|Hc].
  - destruct (Z.leb_spec (E + 1) (emax - prec)) as [Hb|Hb]; [|reflexivity].
    cbn [valid_binary]. unfold bounded, canonical_mantissa.
    apply andb_true_intro. split; [|apply Z.leb_le; exact Hb].
    apply Z.eqb_eq. change (Zpos (digits2_pos (Z.to_pos (2 ^ (prec - 1))))) with prec.
    unfold fexp. lia.
  - destruct (Z.leb_spec E (emax - prec)) as [Hb|Hb]; [|reflexivity].
    cbn [valid_binary]. unfold bounded, canonical_mantissa.
    apply andb_true_intro. split; [|apply Z.leb_le; exact Hb].
    apply Z.eqb_eq.
    assert (Hlt : Zpos p < 2 ^ prec) by lia.
    pose proof (digits_le p prec ltac:(unfold prec; lia) Hlt) as Hd.
    destruct (Z.eq_dec E (emin prec emax)) as [He|He].
    + unfold fexp. lia.
    + assert (Hd2 : Zpos (digits2_pos p) = prec).
      { apply digits_of_range; [unfold prec; lia|]. split; [apply Hn; lia|exact Hlt]. }
      rewrite Hd2. unfold fexp. lia.
Qed.

Lemma packed_sign_clear (m2 E : Z) : 0 <= m2 -> sign_clear (packed m2 E) = true.
Proof.
  intros Hm. unfold packed. destruct m2 as [|p|p]; [reflexivity| |lia].
  destruct (_ =? _); destruct (_ <=? _); reflexivity.
Qed.

Lemma digits_shift (M : positive) (k : positive) :
  Zpos (digits2_pos (Pos.iter xO M k)) = Zpos (digits2_pos M) + Zpos k.
Proof.
  induction k as [|k IH] using Pos.peano_ind.
  - simpl. lia.
  - rewrite Pos.iter_succ. cbn [digits2_pos]. rewrite Pos2Z.inj_succ, IH. lia.
Qed.

Lemma binary_round_normal (M : positive) (e : Z) :
  let E := fexp prec emax (Zpos (digits2_pos M) + e) in
  binary_round prec emax false M e = packed (normal_mantissa M e) E
  /\ 0 <= normal_mantissa M e <= 2 ^ prec
  /\ (emin prec emax < E -> 2 ^ (prec - 1) <= normal_mantissa M e).
Proof.
  intros E. unfold binary_round, normal_mantissa. fold E.
  pose proof (digits2_pos_bounds M) as [HdL HdU].
  set (d := Zpos (digits2_pos M)) in *.
  unfold shl_align.
  destruct (Z.ltb_spec E e) as [Hlt|Hge].
  - destruct (E - e) as [|q|q] eqn:Eq; try lia.
    assert (Hq : Zpos q = e - E) by lia.
    pose proof (digits_shift M q) as Hds. fold d in Hds.
    pose proof (iter_xO_value M q) as Hv.
    assert (HE' : fexp prec emax (Zpos (digits2_pos (Pos.iter xO M q)) + E) = E).
    { rewrite Hds, Hq. replace (d + (e - E) + E) with (d + e) by lia. reflexivity. }
    destruct (binary_round_aux_spec (Pos.iter xO M q) E loc_Exact) as (Hr & Hm1 & Hm1n & _);
      [rewrite HE'; lia|].
    rewrite HE' in *. rewrite Z.sub_diag, Z.pow_0_r, Z.div_1_r in *.
    rewrite Hr. unfold rounded. change (Zdigits2 (Zpos (Pos.iter xO M q)))
      with (Zpos (digits2_pos (Pos.iter xO M q))).
    rewrite HE', Z.sub_diag, Z.pow_0_r, Z.div_1_r.
    unfold shift_loc. cbn [Z.leb Z.compare round_nearest_even].
    rewrite Hv, Hq. split; [reflexivity|].
    rewrite Hv, Hq in Hm1, Hm1n. split; [lia|exact Hm1n].
  - destruct (E - e) as [|q|q] eqn:Eq; try lia;
      (destruct (binary_round_aux_spec M e loc_Exact) as (Hr & Hm1 & Hm1n & Hm2);
       [fold d; fold E; lia|]; fold d in Hr, Hm1, Hm1n, Hm2; fold E in Hr, Hm1, Hm1n, Hm2;
       split; [exact Hr|]; split; [lia|]; intros HE; specialize (Hm1n HE); lia).
Qed.

Lemma binary_round_valid (M : positive) (e : Z) :
  valid_binary prec emax (binary_round prec emax false M e) = true.
Proof.
  destruct (binary_round_normal M e) as (Hr & Hm & Hn).
  rewrite Hr. apply packed_valid; [exact Hm|apply fexp_ge_emin|exact Hn].
Qed.
End Binary32RoundingForm.

(** ** Rounding in binary32 keeps the order *)

Section Binary32RoundingOrder.
Import Binary32.
Local Open Scope Z_scope.

Lemma mod_split (M n : Z) :
  0 < n ->
  M mod 2 ^ n = M mod 2 ^ (n - 1) + 2 ^ (n - 1) * Z.b2z (Z.testbit M (n - 1)).
Proof.
  intros Hn. rewrite Z.testbit_spec' by lia.
  assert (Hp : 0 < 2 ^ (n - 1)) by (apply Z.pow_pos_nonneg; lia).
  replace (2 ^ n) with (2 ^ (n - 1) * 2).
  2:{ rewrite Z.mul_comm, <- Z.pow_succ_r by lia. f_equal. lia. }
  rewrite Z.rem_mul_r by lia. reflexivity.
Qed.

(** Where the bits shifted out of an exact mantissa leave it: by the
    remainder against half a unit. *)
Lemma shift_loc_exact (M n : Z) :
  0 < n ->
  shift_loc M n loc_Exact
  = if M mod 2 ^ n =? 0 then loc_Exact
    else loc_Inexact (M mod 2 ^ n ?= 2 ^ (n - 1)).
Proof.
  intros Hn. unfold shift_loc.
  destruct (Z.leb_spec n 0); [lia|].
  pose proof (mod_split M n Hn) as Hs.
  assert (Hp : 0 < 2 ^ (n - 1)) by (apply Z.pow_pos_nonneg; lia).
  pose proof (Z.mod_pos_bound M (2 ^ (n - 1)) Hp) as Hb.
  cbn [is_exact negb orb].
  destruct (Z.testbit M (n - 1)); cbn [Z.b2z] in Hs.
  - destruct (Z.eqb_spec (M mod 2 ^ n) 0) as [E0|E0]; [lia|].
    destruct (Z.eqb_spec (M mod 2 ^ (n - 1)) 0) as [E1|E1]; cbn [negb loc_of_shr_record].
    + destruct (Z.compare_spec (M mod 2 ^ n) (2 ^ (n - 1))); try reflexivity; lia.
    + destruct (Z.compare_spec (M mod 2 ^ n) (2 ^ (n - 1))); try reflexivity; lia.
  - rewrite Z.mul_0_r, Z.add_0_r in Hs. rewrite Hs.
    destruct (Z.eqb_spec (M mod 2 ^ (n - 1)) 0) as [E1|E1]; cbn [negb loc_of_shr_record].
    + reflexivity.
    + destruct (Z.compare_spec (M mod 2 ^ (n - 1)) (2 ^ (n - 1))); try reflexivity; lia.
Qed.







Lemma digits_scaled (M : positive) (k : Z) :
  0 <= k ->
  Zpos (digits2_pos (Z.to_pos (Zpos M * 2 ^ k))) = Zpos (digits2_pos M) + k.
Proof.
  intros Hk. pose proof (digits2_pos_bounds M) as [HL HU].
  assert (Hp : 0 < 2 ^ k) by (apply Z.pow_pos_nonneg; lia).
  apply digits_of_range; [lia|].
  rewrite Z2Pos.id by lia.
  replace (Zpos (digits2_pos M) + k - 1) with (Zpos (digits2_pos M) - 1 + k) by lia.
  rewrite !Z.pow_add_r by lia. nia.
Qed.

Lemma round_exact_multiple (M n : Z) :
  0 <= n -> M mod 2 ^ n = 0 ->
  round_nearest_even (M / 2 ^ n) (shift_loc M n loc_Exact) = M / 2 ^ n.
Proof.
  intros Hn Hr. destruct (Z.eq_dec n 0) as [->|Hn0].
  - reflexivity.
  - rewrite shift_loc_exact by lia. rewrite Hr. reflexivity.
Qed.

(** The same number with a longer mantissa at a lower exponent rounds the
    same. *)
Lemma normal_mantissa_scaled (M : positive) (e k : Z) :
  0 <= k ->
  normal_mantissa (Z.to_pos (Zpos M * 2 ^ k)) (e - k) = normal_mantissa M e.
Proof.
  intros Hk.
  assert (Hp : 0 < 2 ^ k) by (apply Z.pow_pos_nonneg; lia).
  unfold normal_mantissa. rewrite digits_scaled by exact Hk.
  replace (Zpos (digits2_pos M) + k + (e - k)) with (Zpos (digits2_pos M) + e) by lia.
  remember (fexp prec emax (Zpos (digits2_pos M) + e)) as E eqn:HE.
  unfold rounded.
  cbn [Zdigits2]. rewrite digits_scaled by exact Hk.
  replace (Zpos (digits2_pos M) + k + (e - k)) with (Zpos (digits2_pos M) + e) by lia.
  rewrite <- HE.
  rewrite Z2Pos.id by lia.
  destruct (Z.ltb_spec E (e - k)) as [H1|H1], (Z.ltb_spec E e) as [H2|H2]; try lia.
  - rewrite <- Z.mul_assoc, <- Z.pow_add_r by lia. f_equal. f_equal. lia.
  - (* the longer mantissa is shifted right, the shorter one left *)
    replace (Zpos M * 2 ^ k) with (Zpos M * 2 ^ (e - E) * 2 ^ (E - (e - k))).
    2:{ rewrite <- Z.mul_assoc, <- Z.pow_add_r by lia. f_equal. f_equal. lia. }
    rewrite round_exact_multiple.
    + apply Z.div_mul. apply Z.pow_nonzero; lia.
    + lia.
    + apply Z.mod_mul. apply Z.pow_nonzero; lia.
  - (* both are shifted right *)
    set (n := E - e) in *.
    replace (E - (e - k)) with (n + k) by (unfold n; lia).
    assert (Hn : 0 <= n) by (unfold n; lia).
    assert (Hpn : 0 < 2 ^ n) by (apply Z.pow_pos_nonneg; lia).
    assert (Hq : Zpos M * 2 ^ k / 2 ^ (n + k) = Zpos M / 2 ^ n).
    { rewrite Z.pow_add_r by lia. apply Z.div_mul_cancel_r; lia. }
    rewrite Hq. f_equal.
    destruct (Z.eq_dec n 0) as [Hn0|Hn0].
    + rewrite Hn0. cbn [Z.add].
      destruct (Z.eq_dec k 0) as [->|Hk0].
      * rewrite Z.mul_1_r. reflexivity.
      * rewrite shift_loc_exact by lia.
        rewrite Z.mod_mul by (apply Z.pow_nonzero; lia). reflexivity.
    + rewrite !shift_loc_exact by lia.
      assert (Hm : (Zpos M * 2 ^ k) mod 2 ^ (n + k) = (Zpos M mod 2 ^ n) * 2 ^ k).
      { rewrite Z.pow_add_r by lia. apply Z.mul_mod_distr_r; lia. }
      rewrite Hm.
      replace (2 ^ (n + k - 1)) with (2 ^ (n - 1) * 2 ^ k)
        by (rewrite <- Z.pow_add_r by lia; f_equal; lia).
      set (r := Zpos M mod 2 ^ n). set (h := 2 ^ (n - 1)). set (c := 2 ^ k) in *.
      destruct (Z.eqb_spec r 0) as [E0|E0],
               (Z.eqb_spec (r * c) 0) as [E1|E1];
        try reflexivity; try nia.
      f_equal.
      destruct (Z.compare_spec r h), (Z.compare_spec (r * c) (h * c));
        try reflexivity; nia.
Qed.

Lemma binary_round_scaled (M : positive) (e k : Z) :
  0 <= k ->
  binary_round prec emax false (Z.to_pos (Zpos M * 2 ^ k)) (e - k)
  = binary_round prec emax false M e.
Proof.
  intros Hk.
  destruct (binary_round_normal M e) as (Hr & _).
  destruct (binary_round_normal (Z.to_pos (Zpos M * 2 ^ k)) (e - k)) as (Hr' & _).
  rewrite Hr, Hr', digits_scaled, normal_mantissa_scaled by exact Hk.
  f_equal. f_equal. lia.
Qed.
End Binary32RoundingOrder.

Section Binary32Order.
Import Binary32.
Local Open Scope Z_scope.

(** ** The order of binary32 numbers that are not negative *)

Lemma binary32_le_refl (a : float) : sign_clear a = true -> le a a = true.
Proof.
  destruct a as [[|]|[|]| |[|] m e]; try discriminate; intros _; try reflexivity.
  unfold le, SFleb, SFcompare. rewrite Z.compare_refl, Pos.compare_cont_refl. reflexivity.
Qed.

Lemma finite_compare_trans (m1 m2 m3 : positive) (e1 e2 e3 : Z) :
  le (S754_finite false m1 e1) (S754_finite false m2 e2) = true ->
  le (S754_finite false m2 e2) (S754_finite false m3 e3) = true ->
  le (S754_finite false m1 e1) (S754_finite false m3 e3) = true.
Proof.
  unfold le, SFleb, SFcompare.
  change (Pos.compare_cont Eq m1 m2) with (Pos.compare m1 m2).
  change (Pos.compare_cont Eq m2 m3) with (Pos.compare m2 m3).
  change (Pos.compare_cont Eq m1 m3) with (Pos.compare m1 m3).
  destruct (Z.compare_spec e1 e2), (Z.compare_spec e2 e3), (Z.compare_spec e1 e3);
    try lia; try discriminate; try reflexivity;
    destruct (Pos.compare_spec m1 m2), (Pos.compare_spec m2 m3), (Pos.compare_spec m1 m3);
    try lia; try discriminate; try reflexivity.
Qed.

(** [<=] is transitive through numbers that are not negative. *)
Lemma binary32_le_trans (a b c : float) :
  sign_clear b = true -> sign_clear c = true ->
  le a b = true -> le b c = true -> le a c = true.
Proof.
  destruct b as [[|]|[|]| |[|] mb eb]; try discriminate;
    destruct c as [[|]|[|]| |[|] mc ec]; try discriminate; intros _ _;
    destruct a as [[|]|[|]| |[|] ma ea]; try discriminate; try reflexivity;
    try (intros _ H; exact H); try (intros H _; exact H).
  apply finite_compare_trans.
Qed.


(** Two numbers are comparable. *)
Lemma binary32_le_or_gt (a b : float) :
  is_nan a = false -> is_nan b = false -> le a b = false -> gt a b = true.
Proof.
  intros Ha Hb. unfold gt, le, SFltb, SFleb.
  destruct a as [sa|sa| |sa ma ea]; try discriminate;
    destruct b as [sb|sb| |sb mb eb]; try discriminate; clear Ha Hb;
    unfold SFcompare;
    try (destruct sa; try discriminate; reflexivity);
    try (destruct sb; try discriminate; reflexivity);
    try (destruct sa, sb; try discriminate; reflexivity).
  change (Pos.compare_cont Eq mb ma) with (Pos.compare mb ma).
  change (Pos.compare_cont Eq ma mb) with (Pos.compare ma mb).
  rewrite (Z.compare_antisym ea eb), (Pos.compare_antisym ma mb).
  destruct sa, sb; try discriminate; try reflexivity;
    destruct (ea ?= eb); simpl; try discriminate; try reflexivity;
    destruct (ma ?= mb)%positive; simpl; try discriminate; reflexivity.
Qed.

(** ** Sums of binary32 numbers that are not negative *)

Lemma canonical_digits (m : positive) (e : Z) :
  canonical_mantissa prec emax m e = true ->
  Zpos (digits2_pos m) <= prec
  /\ emin prec emax <= e
  /\ (emin prec emax < e -> Zpos (digits2_pos m) = prec).
Proof.
  unfold canonical_mantissa, fexp. intros H. apply Z.eqb_eq in H. lia.
Qed.

Lemma valid_finite (s : bool) (m : positive) (e : Z) :
  valid_binary prec emax (S754_finite s m e) = true ->
  canonical_mantissa prec emax m e = true.
Proof.
  cbn [valid_binary]. unfold bounded. intros H. apply andb_prop in H. apply H.
Qed.


Lemma add_finite (ma mb : positive) (ea eb e0 : Z) :
  e0 <= ea -> e0 <= eb ->
  add (S754_finite false ma ea) (S754_finite false mb eb)
  = binary_round prec emax false
      (Z.to_pos (Zpos ma * 2 ^ (ea - e0) + Zpos mb * 2 ^ (eb - e0))) e0.
Proof.
  intros Ha Hb. unfold add, SFadd, cond_Zopp.
  set (ez := Z.min ea eb).
  assert (Hza : ez <= ea) by (unfold ez; lia).
  assert (Hzb : ez <= eb) by (unfold ez; lia).
  pose proof (shl_align_value ma ea ez Hza) as HA.
  pose proof (shl_align_value mb eb ez Hzb) as HB.
  set (A := fst (shl_align ma ea ez)) in *. set (B := fst (shl_align mb eb ez)) in *.
  rewrite <- Pos2Z.inj_add. cbn [binary_normalize].
  rewrite <- (binary_round_scaled (A + B) ez (ez - e0)) by (unfold ez; lia).
  replace (ez - (ez - e0)) with e0 by lia.
  f_equal. f_equal.
  rewrite Pos2Z.inj_add, HA, HB, Z.mul_add_distr_r, <- !Z.mul_assoc, <- !Z.pow_add_r by lia.
  f_equal; f_equal; f_equal; lia.
Qed.

(** A sum of valid numbers that are not negative is valid. *)
Lemma add_valid (a b : float) :
  valid_binary prec emax a = true -> valid_binary prec emax b = true ->
  sign_clear a = true -> sign_clear b = true ->
  valid_binary prec emax (add a b) = true.
Proof.
  intros Va Vb.
  destruct a as [[|]|[|]| |[|] ma ea]; try discriminate;
    destruct b as [[|]|[|]| |[|] mb eb]; try discriminate; intros _ _;
    try reflexivity; try exact Va; try exact Vb.
  rewrite (add_finite ma mb ea eb (Z.min ea eb)) by lia.
  apply binary_round_valid.
Qed.


End Binary32Order.

(** ** Square roots in binary32 are valid *)

Section Binary32Sqrt.
Import Binary32.
Local Open Scope Z_scope.

Lemma binary_round_aux_valid (M : positive) (e : Z) (l : location) :
  e <= fexp prec emax (Zpos (digits2_pos M) + e) ->
  valid_binary prec emax (binary_round_aux prec emax false (Zpos M) e l) = true.
Proof.
  intros Hn. destruct (binary_round_aux_spec M e l Hn) as (Hr & Hm1 & Hm1n & Hm2).
  rewrite Hr. apply packed_valid; [lia|apply fexp_ge_emin|].
  intros HE. specialize (Hm1n HE). lia.
Qed.

(** The integer square root of a number of [D] digits has at least
    [(D + 1) / 2] digits. *)
Lemma sqrt_digits (m : positive) :
  (Zpos (digits2_pos m) + 1) / 2 <= Zdigits2 (Z.sqrt (Zpos m)) /\ 0 < Z.sqrt (Zpos m).
Proof.
  pose proof (digits2_pos_bounds m) as [HL _].
  set (D := Zpos (digits2_pos m)) in *.
  assert (HD : 1 <= D) by (unfold D; lia).
  set (j := (D - 1) / 2).
  assert (Hj : 0 <= j) by (unfold j; apply Z.div_pos; lia).
  assert (Hj2 : 2 * j <= D - 1) by (unfold j; apply Z.mul_div_le; lia).
  assert (Hsq : 2 ^ j <= Z.sqrt (Zpos m)).
  { rewrite <- (Z.sqrt_square (2 ^ j)) by (apply Z.pow_nonneg; lia).
    apply Z.sqrt_le_mono. rewrite <- Z.pow_add_r by lia.
    apply Z.le_trans with (2 ^ (D - 1)); [|exact HL].
    apply Z.pow_le_mono_r; lia. }
  assert (Hpos : 0 < 2 ^ j) by (apply Z.pow_pos_nonneg; lia).
  split; [|lia].
  destruct (Z.sqrt (Zpos m)) as [|q|q] eqn:Eq; try lia.
  cbn [Zdigits2].
  assert (j < Zpos (digits2_pos q)) by (apply digits_pos_ge; lia).
  assert ((D + 1) / 2 = j + 1).
  { unfold j. replace (D + 1) with (D - 1 + 1 * 2) by lia.
    rewrite Z.div_add by lia. reflexivity. }
  lia.
Qed.

(** A square root is valid. *)
Lemma sqrt_valid (a : float) : valid_binary prec emax (sqrt a) = true.
Proof.
  destruct a as [s|[|]| |[|] m e]; try reflexivity.
  unfold sqrt, SFsqrt, SFsqrt_core_binary.
  cbn [Zdigits2].
  set (d := Zpos (digits2_pos m)).
  set (e' := Z.min (fexp prec emax (Z.div2 (d + e + 1))) (Z.div2 e)).
  assert (He' : 2 * e' <= e).
  { unfold e'. pose proof (Z.div2_div e) as H. pose proof (Z.mul_div_le e 2 ltac:(lia)).
    lia. }
  set (s := e - 2 * e').
  assert (Hs : 0 <= s) by (unfold s; lia).
  set (m' := match s with Zpos _ => Z.shiftl (Zpos m) s | Z0 => Zpos m | Zneg _ => 0 end).
  assert (Hm' : m' = Zpos m * 2 ^ s).
  { unfold m'. destruct s as [|p|p] eqn:Es; [simpl; lia| |lia].
    rewrite Z.shiftl_mul_pow2 by lia. reflexivity. }
  assert (Hp : 0 < 2 ^ s) by (apply Z.pow_pos_nonneg; lia).
  rewrite (surjective_pairing (Z.sqrtrem m')).
  rewrite Z.sqrtrem_sqrt.
  replace m' with (Zpos (Z.to_pos (Zpos m * 2 ^ s))) at 1
    by (rewrite Z2Pos.id by lia; symmetry; exact Hm').
  destruct (sqrt_digits (Z.to_pos (Zpos m * 2 ^ s))) as [Hdig Hq].
  rewrite digits_scaled in Hdig by exact Hs. fold d in Hdig.
  destruct (Z.sqrt (Zpos (Z.to_pos (Zpos m * 2 ^ s)))) as [|q|q] eqn:Eq; try lia.
  cbn [Zdigits2] in Hdig.
  apply binary_round_aux_valid.
  apply Z.le_trans with (fexp prec emax (Z.div2 (d + e + 1))); [unfold e'; lia|].
  apply fexp_mono.
  rewrite Z.div2_div.
  assert (Hx : (d + s + 1) / 2 = (d + e + 1) / 2 - e').
  { unfold s. replace (d + (e - 2 * e') + 1) with (d + e + 1 + (- e') * 2) by lia.
    rewrite Z.div_add by lia. lia. }
  lia.
Qed.
End Binary32Sqrt.

(** ** Binary32 numbers that are not negative *)

Section Binary32Numbers.
Import Binary32.

Section Numbers.

Lemma number_zero : number zero = true.
Proof. reflexivity. Qed.

Lemma number_parts (x : float) :
  number x = true <-> valid_binary prec emax x = true /\ sign_clear x = true.
Proof. unfold number. apply andb_true_iff. Qed.

Lemma number_not_nan (x : float) : number x = true -> is_nan x = false.
Proof. intros H. apply number_parts in H. destruct H as [_ H]. destruct x; try discriminate; reflexivity. Qed.

Lemma number_add (a b : float) :
  number a = true -> number b = true -> number (add a b) = true.
Proof.
  intros Ha Hb. apply number_parts in Ha, Hb. destruct Ha as [Va Sa], Hb as [Vb Sb].
  apply number_parts. split; [apply add_valid|apply add_sign_clear]; assumption.
Qed.

Lemma number_add_le (a b : float) :
  number a = true -> number b = true -> le a (add a b) = true.
Proof.
  intros Ha Hb. apply number_parts in Ha, Hb. destruct Ha as [Va Sa], Hb as [Vb Sb].
  apply add_not_below; assumption.
Qed.


Lemma number_le_trans (a b c : float) :
  number b = true -> number c = true ->
  le a b = true -> le b c = true -> le a c = true.
Proof.
  intros Hb Hc. apply number_parts in Hb, Hc. apply binary32_le_trans; [apply Hb|apply Hc].
Qed.

Lemma number_le_refl (a : float) : number a = true -> le a a = true.
Proof. intros Ha. apply number_parts in Ha. apply binary32_le_refl, Ha. Qed.

(** A sum is NaN as soon as a term is. *)
Lemma add_not_nan (a b : float) :
  is_nan (add a b) = false -> is_nan a = false /\ is_nan b = false.
Proof. destruct a as [sa|sa| |sa ma ea], b as [sb|sb| |sb mb eb]; try discriminate; split; reflexivity. Qed.

Lemma shape_number (x : float) :
  valid_binary prec emax x = true -> sign_clear x || is_nan x = true ->
  is_nan x = false -> number x = true.
Proof.
  intros V S N. rewrite N, orb_false_r in S. apply number_parts. split; assumption.
Qed.

Lemma add_valid_shape (a b : float) :
  valid_binary prec emax a = true -> valid_binary prec emax b = true ->
  sign_clear a || is_nan a = true -> sign_clear b || is_nan b = true ->
  valid_binary prec emax (add a b) = true.
Proof.
  intros Va Vb Sa Sb.
  destruct (is_nan a) eqn:Na; [destruct a; try discriminate; reflexivity|].
  destruct (is_nan b) eqn:Nb; [destruct b; try discriminate; destruct a; reflexivity|].
  rewrite orb_false_r in Sa, Sb. apply add_valid; assumption.
Qed.

Lemma distanceLine_valid (a b : FloatPoint float) :
  valid_binary prec emax (distanceLine a b) = true.
Proof. unfold distanceLine. cbn [sqrtf arith]. apply sqrt_valid. Qed.

Lemma quadratic_polygon_valid (c : QuadraticBezier.t float) :
  valid_binary prec emax (approximateDistance c) = true.
Proof.
  cbn [approximateDistance QuadraticBezier_CurveType].
  unfold QuadraticBezier.approximateDistance. cbn [fadd arith].
  apply add_valid_shape;
    first [apply distanceLine_valid | apply distanceLine_sign_clear_or_nan].
Qed.

Lemma cubic_polygon_valid (c : CubicBezier.t float) :
  valid_binary prec emax (approximateDistance c) = true.
Proof.
  cbn [approximateDistance CubicBezier_CurveType].
  unfold CubicBezier.approximateDistance. cbn [fadd arith].
  apply add_valid_shape;
    first [apply distanceLine_valid | apply distanceLine_sign_clear_or_nan | idtac].
  - apply add_valid_shape;
      first [apply distanceLine_valid | apply distanceLine_sign_clear_or_nan].
  - apply add_sign_clear_or_nan; apply distanceLine_sign_clear_or_nan.
Qed.
End Numbers.

(** ** Binary32: the running length only grows *)

Section Binary32Loop.
Context {C : Type} {CT : CurveType float C}.
Hypothesis polygon_sign :
  forall c : C, sign_clear (approximateDistance c) || is_nan (approximateDistance c) = true.
Hypothesis polygon_valid :
  forall c : C, valid_binary prec emax (approximateDistance c) = true.

(** Once the running length is NaN the loop returns NaN. *)
Lemma loop_nan (n : nat) :
  forall (v : LoopVars (C := C)) r st,
    curveLength_loop n v = Some (r, st) -> is_nan (v_total v) = true -> is_nan r = true.
Proof.
  induction n as [|n IH]; intros v r st H Hv; [discriminate|].
  rewrite curveLength_loop_S in H.
  assert (Hsum : is_nan (fadd (v_total v) (approximateDistance (v_curve v))) = true)
    by (destruct (v_total v); try discriminate; reflexivity).
  unfold curveLength_body in H.
  destruct (fgt _ kPathSegmentLengthTolerance).
  - destruct (split (v_curve v)) as [l r0]. cbn [v_stack] in H.
    apply IH in H; exact H || exact Hv.
  - destruct (isPointOrAngle _).
    + destruct (fgt _ (m_desiredLength _)).
      * inversion H; subst. exact Hsum.
      * destruct (v_stack v) as [|c0 [|c1 rest]]; [discriminate| |].
        -- inversion H; subst. exact Hsum.
        -- cbn [v_stack] in H. apply IH in H; exact H || exact Hsum.
    + destruct (v_stack v) as [|c0 [|c1 rest]]; [discriminate| |].
      * inversion H; subst. exact Hsum.
      * cbn [v_stack] in H. apply IH in H; exact H || exact Hsum.
Qed.

Lemma polygon_number (c : C) :
  is_nan (approximateDistance c) = false -> number (approximateDistance c) = true.
Proof. apply shape_number; [apply polygon_valid|apply polygon_sign]. Qed.

(** The running length after one more flat piece. *)
Lemma running_number (total : float) (c : C) :
  number total = true ->
  is_nan (fadd total (approximateDistance c)) = false ->
  number (fadd total (approximateDistance c)) = true
  /\ le total (fadd total (approximateDistance c)) = true.
Proof.
  intros Ht Hn. cbn [fadd arith] in *.
  destruct (add_not_nan _ _ Hn) as [_ Hp].
  pose proof (polygon_number c Hp) as Hpn.
  split; [apply number_add|apply number_add_le]; assumption.
Qed.

(** In binary32, when the loop returns a number, it is a valid number that
    is at least the running length the loop was entered with. *)
Lemma binary32_loop_grows (n : nat) :
  forall (v : LoopVars (C := C)) r st,
    curveLength_loop n v = Some (r, st) ->
    number (v_total v) = true -> is_nan r = false ->
    number r = true /\ le (v_total v) r = true.
Proof.
  induction n as [|n IH]; intros v r st H Hv Hr; [discriminate|].
  rewrite curveLength_loop_S in H.
  assert (Hlast : r = fadd (v_total v) (approximateDistance (v_curve v)) ->
                  number r = true /\ le (v_total v) r = true).
  { intros E. rewrite E in Hr |- *. apply running_number; assumption. }
  assert (Hmore : forall v1 : LoopVars (C := C),
             v_total v1 = fadd (v_total v) (approximateDistance (v_curve v)) ->
             curveLength_loop n v1 = Some (r, st) ->
             number r = true /\ le (v_total v) r = true).
  { intros v1 Hv1 H1.
    destruct (is_nan (v_total v1)) eqn:Hn.
    - rewrite (loop_nan n v1 r st H1 Hn) in Hr. discriminate.
    - rewrite Hv1 in Hn. destruct (running_number _ _ Hv Hn) as [Hnum Hle].
      destruct (IH v1 r st H1 ltac:(rewrite Hv1; exact Hnum) Hr) as [Hrn Hrl].
      split; [exact Hrn|]. rewrite Hv1 in Hrl.
      exact (number_le_trans _ _ _ Hnum Hrn Hle Hrl). }
  unfold curveLength_body in H.
  destruct (fgt _ kPathSegmentLengthTolerance).
  - destruct (split (v_curve v)) as [l r0]. cbn [v_stack] in H.
    apply IH in H; [exact H|exact Hv|exact Hr].
  - destruct (isPointOrAngle _).
    + destruct (fgt _ (m_desiredLength _)).
      * inversion H; subst. apply Hlast. reflexivity.
      * destruct (v_stack v) as [|c0 [|c1 rest]]; [discriminate| |].
        -- inversion H; subst. apply Hlast. reflexivity.
        -- cbn [v_stack] in H. apply Hmore in H; [exact H|reflexivity].
    + destruct (v_stack v) as [|c0 [|c1 rest]]; [discriminate| |].
      * inversion H; subst. apply Hlast. reflexivity.
      * cbn [v_stack] in H. apply Hmore in H; [exact H|reflexivity].
Qed.
End Binary32Loop.

(** ** Binary32: a query against the length traversal *)

Section LastPiece.
Context {F : Type} {A : FloatArith F} {C : Type} {CT : CurveType F C}.

Lemma lastPiece_after_split (l r curve : C) (stack : list C) :
  stack <> [] -> end_ r = end_ curve ->
  end_ (lastPiece l (r :: stack)) = end_ (lastPiece curve stack).
Proof.
  intros Hne Hr. destruct stack as [|c [|c' rest]]; [contradiction| |]; simpl.
  - exact Hr.
  - reflexivity.
Qed.
End LastPiece.

Section Binary32Query.
Context {C : Type} {CT : CurveType float C}.
Hypothesis polygon_sign :
  forall c : C, sign_clear (approximateDistance c) || is_nan (approximateDistance c) = true.
Hypothesis polygon_valid :
  forall c : C, valid_binary prec emax (approximateDistance c) = true.
Hypothesis split_end : forall c : C, end_ (snd (split c)) = end_ c.

(** In binary32, on the same curve and stack, a point or angle query
    returns within the bound of a length query that returns a number:
    either the same length, with [m_current] at the end of the last piece,
    or, cut short, a length that is not larger and brings the total beyond
    [m_desiredLength]. *)
Lemma binary32_query_follows_total (n : nat) :
  forall (curve : C) (stack : list C) (total : float)
         (q t : PathTraversalState float) (r_t : float) (t' : PathTraversalState float),
    isPointOrAngle (m_action q) = true ->
    isPointOrAngle (m_action t) = false ->
    stack <> [] ->
    number total = true ->
    is_nan r_t = false ->
    curveLength_loop n (mkVars t curve stack total) = Some (r_t, t') ->
    exists r_q q',
      curveLength_loop n (mkVars q curve stack total) = Some (r_q, q')
      /\ m_start q' = m_start q
      /\ ((r_q = r_t /\ m_current q' = end_ (lastPiece curve stack))
          \/ (gt (add (m_totalLength q) r_q) (m_desiredLength q) = true
              /\ number r_q = true /\ le r_q r_t = true)).
Proof.
  induction n as [|n IH]; intros curve stack total q t r_t t' Hq Ht Hne Htot Hr H;
    [discriminate|].
  rewrite curveLength_loop_S in H. rewrite curveLength_loop_S.
  destruct (needsSplit curve) eqn:Hs.
  - rewrite body_split in H by exact Hs. rewrite body_split by exact Hs.
    cbn [v_state v_curve v_stack v_total] in *.
    destruct (IH _ _ _ q t _ _ Hq Ht (@cons_not_nil _ _ _) Htot Hr H)
      as (r_q & q' & Hrun & Hst & Hcase).
    exists r_q, q'. split; [exact Hrun|]. split; [exact Hst|].
    destruct Hcase as [[Hrr Hc]|Hcut]; [left|right; exact Hcut].
    split; [exact Hrr|]. rewrite Hc.
    apply lastPiece_after_split; [exact Hne|apply split_end].
  - rewrite body_flat_total in H by assumption.
    rewrite body_flat_query by assumption.
    cbn [v_state v_curve v_stack v_total] in *.
    destruct stack as [|top rest]; [contradiction|].
    set (running := fadd total (approximateDistance curve)) in *.
    set (q1 := set_current (end_ curve) (set_previous (start curve) q)).
    assert (Hgrow : number running = true /\ le running r_t = true).
    { destruct rest as [|c' rest'].
      - cbn [v_stack] in H. inversion H; subst r_t t'. cbn [v_total] in *.
        destruct (running_number polygon_sign polygon_valid total curve Htot Hr) as [Hn _].
        split; [exact Hn|apply number_le_refl; exact Hn].
      - cbn [v_stack] in H.
        destruct (is_nan running) eqn:Hnan.
        + rewrite (loop_nan n _ r_t t' H Hnan) in Hr. discriminate.
        + destruct (running_number polygon_sign polygon_valid total curve Htot Hnan)
            as [Hn _].
          split; [exact Hn|].
          exact (proj2 (binary32_loop_grows polygon_sign polygon_valid n _ r_t t' H Hn Hr)). }
    destruct Hgrow as [Hnum Hgrow].
    destruct (fgt (fadd (m_totalLength q) running) (m_desiredLength q)) eqn:Hgt.
    + exists running, q1. split; [reflexivity|]. split; [reflexivity|]. right.
      split; [exact Hgt|]. split; [exact Hnum|exact Hgrow].
    + destruct rest as [|c' rest'].
      * cbn [v_stack v_total v_state] in *. inversion H; subst.
        exists running, q1. split; [reflexivity|]. split; [reflexivity|]. left.
        split; reflexivity.
      * cbn [v_stack] in *.
        destruct (IH _ _ _ q1 t _ _ Hq Ht (@cons_not_nil _ _ _) Hnum Hr H)
          as (r_q & q' & Hrun & Hst & Hcase).
        exists r_q, q'. split; [exact Hrun|]. split; [exact Hst|]. exact Hcase.
Qed.

Lemma binary32_curve_query_vs_total (n : nat) (q t : PathTraversalState float) (c : C)
      (d_t : float) (t1 : PathTraversalState float) :
  isPointOrAngle (m_action q) = true ->
  isPointOrAngle (m_action t) = false ->
  curveLength n t c = Some (d_t, t1) ->
  is_nan d_t = false ->
  t1 = t /\ number d_t = true
  /\ exists d_q q1,
      curveLength n q c = Some (d_q, q1)
      /\ m_start q1 = m_start q
      /\ sameAccumulators q q1
      /\ ((d_q = d_t /\ m_current q1 = end_ c)
          \/ (gt (add (m_totalLength q) d_q) (m_desiredLength q) = true
              /\ number d_q = true /\ le d_q d_t = true)).
Proof.
  intros Hq Ht H Hn.
  assert (Hz : number (f0 : float) = true) by reflexivity.
  split.
  { destruct (proj1 (curveLength_iff_recAcc t c d_t t1 Ht)) as [E _]; [eauto|exact E]. }
  split.
  { unfold curveLength in H.
    exact (proj1 (binary32_loop_grows polygon_sign polygon_valid n _ d_t t1 H Hz Hn)). }
  unfold curveLength in *.
  destruct (binary32_query_follows_total n c [c] f0 q t d_t t1
              Hq Ht (@cons_not_nil _ _ _) Hz Hn H)
    as (d_q & q1 & Hrun & Hst & Hcase).
  exists d_q, q1. split; [exact Hrun|]. split; [exact Hst|]. split.
  - apply sameAccumulators_loop in Hrun. exact Hrun.
  - exact Hcase.
Qed.
End Binary32Query.

(** ** Binary32: the whole path *)

Section Binary32Traversal.








End Binary32Traversal.
End Binary32Numbers.

(** ** Success of a query, as theorems *)




(** ** The theorems at concrete inputs, continued *)

Section MoreWitnesses.
Import Binary32 Sample.

(** The length query on (0,0) (1,2^-10) (2,0): flat, so the pass pops the
    bottom of the stack and carries on the polygon length 2 + 2^-20. *)
Lemma pass_splits_or_adds_polygon_length_witness :
  exists st',
    curveLength_body (mkVars lengthQuery shallow [shallow] zero)
    = Return (S754_finite false 8388612 (-22)) st'
    \/ curveLength_body (mkVars lengthQuery shallow [shallow] zero)
       = Next (mkVars st' shallow [] (S754_finite false 8388612 (-22))).
Proof.
  destruct (pass_splits_or_adds_polygon_length
              (mkVars lengthQuery shallow [shallow] zero)) as [_ H].
  apply (H ltac:(vm_compute; reflexivity) shallow [] eq_refl).
Defined.

(** The hairpin (0,0) (-3,-3) (-2,-2): the loop returns after five passes,
    so the threaded recursion sums it up to the same value. *)
Lemma loop_is_threaded_recursion_witness :
  exists d, recAcc d f0 hairpin = Some (S754_finite false 14829103 (-22)).
Proof.
  destruct loop_is_threaded_recursion as [H _].
  apply (H float arith _ _ lengthQuery lengthQuery hairpin
           (S754_finite false 14829103 (-22)) eq_refl).
  exists 5%nat. vm_compute. reflexivity.
Defined.

(** [quadraticBezierTo] on the hairpin keeps the six members. *)
Lemma operations_keep_accumulators_witness :
  exists d s',
    quadraticBezierTo 5 lengthQuery (point (of_Z (-3)) (of_Z (-3)))
                      (point (of_Z (-2)) (of_Z (-2))) = Some (d, s')
    /\ sameAccumulators lengthQuery s'.
Proof.
  destruct (quadraticBezierTo 5 lengthQuery (point (of_Z (-3)) (of_Z (-3)))
                              (point (of_Z (-2)) (of_Z (-2)))) as [[d s']|] eqn:E.
  - exists d, s'. split; [reflexivity|].
    destruct (@operations_keep_accumulators float arith) as (_ & _ & _ & H & _).
    exact (H _ _ _ _ _ _ E).
  - vm_compute in E. discriminate E.
Defined.

(** [quadraticBezierTo] on the hairpin returns after five passes, and
    what it returns is not negative. *)
Lemma binary32_lengths_not_negative_witness :
  exists d s',
    quadraticBezierTo 5 lengthQuery (point (of_Z (-3)) (of_Z (-3)))
                      (point (of_Z (-2)) (of_Z (-2))) = Some (d, s')
    /\ notNegative d = true.
Proof.
  destruct (quadraticBezierTo 5 lengthQuery (point (of_Z (-3)) (of_Z (-3)))
                              (point (of_Z (-2)) (of_Z (-2)))) as [[d s']|] eqn:E.
  - exists d, s'. split; [reflexivity|].
    destruct binary32_lengths_not_negative as (_ & _ & _ & H & _).
    exact (H _ _ _ _ _ _ E).
  - vm_compute in E. discriminate E.
Defined.
End MoreWitnesses.

(** ** Subdivision, as a theorem *)

(** In exact arithmetic the junction of the two halves is the point of the
    curve at parameter 1/2. *)
Lemma exact_junction_is_curve_point :
  (forall c : QuadraticBezier.t R,
      let j := end_ (fst (split c)) in
      FloatPoint.x j
      = ((FloatPoint.x (QuadraticBezier.start c) + 2 * FloatPoint.x (QuadraticBezier.control c)
          + FloatPoint.x (QuadraticBezier.end_ c)) / 4)%R
      /\ FloatPoint.y j
         = ((FloatPoint.y (QuadraticBezier.start c) + 2 * FloatPoint.y (QuadraticBezier.control c)
             + FloatPoint.y (QuadraticBezier.end_ c)) / 4)%R)
  /\
  (forall c : CubicBezier.t R,
      let j := end_ (fst (split c)) in
      FloatPoint.x j
      = ((FloatPoint.x (CubicBezier.start c) + 3 * FloatPoint.x (CubicBezier.control1 c)
          + 3 * FloatPoint.x (CubicBezier.control2 c) + FloatPoint.x (CubicBezier.end_ c)) / 8)%R
      /\ FloatPoint.y j
         = ((FloatPoint.y (CubicBezier.start c) + 3 * FloatPoint.y (CubicBezier.control1 c)
             + 3 * FloatPoint.y (CubicBezier.control2 c) + FloatPoint.y (CubicBezier.end_ c)) / 8)%R).
Proof.
  split; intros c j; subst j; destruct c; unfold midPoint; simpl; split; field.
Qed.

(** C4.  [split] is midpoint (De Casteljau) subdivision, for both curve
    kinds and over any arithmetic: the left half starts where the parent
    starts, the right half ends where the parent ends, and the two halves
    meet in one junction point.  For the quadratic, left = {start,
    mid(start, control), midOfMids} and right = {midOfMids,
    mid(control, end), end}; for the cubic the junction is the midpoint of
    the two second-level midpoints.  Every mid is [midPoint], the mean of
    the two points coordinate by coordinate, [(a + b) / 2.0f].  Computed
    exactly, the junction is the point of the curve at parameter 1/2. *)
Theorem split_is_midpoint_subdivision :
  (forall (F : Type) (A : FloatArith F),
      (forall c : QuadraticBezier.t F,
          let midOfMids :=
              midPoint (midPoint (QuadraticBezier.start c) (QuadraticBezier.control c))
                       (midPoint (QuadraticBezier.control c) (QuadraticBezier.end_ c)) in
          QuadraticBezier.split c =
          (QuadraticBezier.mk (QuadraticBezier.start c)
                              (midPoint (QuadraticBezier.start c) (QuadraticBezier.control c))
                              midOfMids,
           QuadraticBezier.mk midOfMids
                              (midPoint (QuadraticBezier.control c) (QuadraticBezier.end_ c))
                              (QuadraticBezier.end_ c))
          /\ start (fst (split c)) = start c
          /\ end_ (snd (split c)) = end_ c
          /\ end_ (fst (split c)) = start (snd (split c)))
      /\
      (forall c : CubicBezier.t F,
          let m01 := midPoint (CubicBezier.start c) (CubicBezier.control1 c) in
          let m12 := midPoint (CubicBezier.control1 c) (CubicBezier.control2 c) in
          let m23 := midPoint (CubicBezier.control2 c) (CubicBezier.end_ c) in
          let junction := midPoint (midPoint m01 m12) (midPoint m23 m12) in
          CubicBezier.split c =
          (CubicBezier.mk (CubicBezier.start c) m01 (midPoint m01 m12) junction,
           CubicBezier.mk junction (midPoint m23 m12) m23 (CubicBezier.end_ c))
          /\ start (fst (split c)) = start c
          /\ end_ (snd (split c)) = end_ c
          /\ end_ (fst (split c)) = start (snd (split c)))
      /\
      (forall a b : FloatPoint F,
          midPoint a b =
          FloatPoint.mk (fdiv (fadd (FloatPoint.x a) (FloatPoint.x b)) f2)
                        (fdiv (fadd (FloatPoint.y a) (FloatPoint.y b)) f2)))
  /\
  ((forall c : QuadraticBezier.t R,
       FloatPoint.x (end_ (fst (split c)))
       = ((FloatPoint.x (QuadraticBezier.start c) + 2 * FloatPoint.x (QuadraticBezier.control c)
           + FloatPoint.x (QuadraticBezier.end_ c)) / 4)%R
       /\ FloatPoint.y (end_ (fst (split c)))
          = ((FloatPoint.y (QuadraticBezier.start c) + 2 * FloatPoint.y (QuadraticBezier.control c)
              + FloatPoint.y (QuadraticBezier.end_ c)) / 4)%R)
   /\
   (forall c : CubicBezier.t R,
       FloatPoint.x (end_ (fst (split c)))
       = ((FloatPoint.x (CubicBezier.start c) + 3 * FloatPoint.x (CubicBezier.control1 c)
           + 3 * FloatPoint.x (CubicBezier.control2 c) + FloatPoint.x (CubicBezier.end_ c)) / 8)%R
       /\ FloatPoint.y (end_ (fst (split c)))
          = ((FloatPoint.y (CubicBezier.start c) + 3 * FloatPoint.y (CubicBezier.control1 c)
              + 3 * FloatPoint.y (CubicBezier.control2 c) + FloatPoint.y (CubicBezier.end_ c)) / 8)%R)).
Proof.
  split.
  - intros F A. exact split_structure.
  - exact exact_junction_is_curve_point.
Qed.

(** * Further properties of the traversal *)

(** ** What a point or angle query leaves in the state *)

Section QueryPoints.
Context {F : Type} {A : FloatArith F} {C : Type} {CT : CurveType F C}.
Hypothesis split_end : forall c : C, end_ (snd (split c)) = end_ c.
Variable c0 : C.

Lemma query_loop_points (n : nat) :
  forall (v : LoopVars (C := C)) (r : F) (st' : PathTraversalState F),
    isPointOrAngle (m_action (v_state v)) = true ->
    v_stack v <> [] ->
    subPiece c0 (v_curve v) ->
    Forall (subPiece c0) (v_stack v) ->
    curveLength_loop n v = Some (r, st') ->
    exists p : C,
      subPiece c0 p /\ needsSplit p = false
      /\ m_previous st' = start p /\ m_current st' = end_ p
      /\ m_start st' = m_start (v_state v)
      /\ m_control1 st' = m_control1 (v_state v)
      /\ m_control2 st' = m_control2 (v_state v)
      /\ (fgt (fadd (m_totalLength (v_state v)) r) (m_desiredLength (v_state v)) = false ->
          end_ p = end_ (lastPiece (v_curve v) (v_stack v))).
Proof.
  induction n as [|n IH]; intros v r st' Hq Hne Hcur Hstack H; [discriminate|].
  destruct v as [st curve stack total]. cbn [v_state v_curve v_stack v_total] in *.
  rewrite curveLength_loop_S in H.
  destruct (needsSplit curve) eqn:Hs.
  - rewrite body_split in H by exact Hs.
    cbn [v_state v_curve v_stack v_total] in H.
    assert (Hl : subPiece c0 (fst (split curve))) by (constructor; assumption).
    assert (Hr : Forall (subPiece c0) (snd (split curve) :: stack))
      by (constructor; [constructor; assumption|exact Hstack]).
    destruct (IH (mkVars st (fst (split curve)) (snd (split curve) :: stack) total)
                 r st' Hq (@cons_not_nil _ _ _) Hl Hr H)
      as (p & Hp & Hflat & Hprev & Hcurr & Hst & Hc1 & Hc2 & Hend).
    cbn [v_state v_curve v_stack v_total] in *.
    exists p. repeat (split; [assumption|]).
    intros Hgt. rewrite (Hend Hgt).
    destruct stack as [|c1 [|c2 rest]]; [contradiction| |]; simpl.
    + apply split_end.
    + reflexivity.
  - rewrite body_flat_query in H by assumption.
    cbn [v_state v_curve v_stack v_total] in H.
    destruct stack as [|top rest]; [contradiction|].
    destruct (fgt (fadd (m_totalLength st) (fadd total (approximateDistance curve)))
                  (m_desiredLength st)) eqn:Hgt.
    + inversion H; subst; clear H.
      exists curve. repeat (split; [first [assumption|reflexivity]|]).
      intros Hno. rewrite Hno in Hgt. discriminate.
    + destruct rest as [|c2 rest'].
      * cbn [v_stack v_total v_state] in H. inversion H; subst; clear H.
        exists curve. repeat (split; [first [assumption|reflexivity]|]).
        intros _. reflexivity.
      * cbn [v_stack] in H.
        apply Forall_inv_tail in Hstack as Hrest. apply Forall_inv in Hstack as Htop.
        destruct (IH (mkVars (set_current (end_ curve) (set_previous (start curve) st))
                             top (c2 :: rest') (fadd total (approximateDistance curve)))
                     r st' Hq (@cons_not_nil _ _ _) Htop Hrest H)
          as (p & Hp & Hflat & Hprev & Hcurr & Hst & Hc1 & Hc2 & Hend).
        cbn [v_state v_curve v_stack v_total m_start m_control1 m_control2
             m_totalLength m_desiredLength set_current set_previous] in *.
        exists p. repeat (split; [assumption|]).
        intros Hno. rewrite (Hend Hno). reflexivity.
Qed.

Lemma query_curveLength_points (n : nat) (st : PathTraversalState F) (r : F)
      (st' : PathTraversalState F) :
  isPointOrAngle (m_action st) = true ->
  curveLength n st c0 = Some (r, st') ->
  exists p : C,
    subPiece c0 p /\ needsSplit p = false
    /\ m_previous st' = start p /\ m_current st' = end_ p
    /\ m_start st' = m_start st
    /\ m_control1 st' = m_control1 st
    /\ m_control2 st' = m_control2 st
    /\ (fgt (fadd (m_totalLength st) r) (m_desiredLength st) = false ->
        m_current st' = end_ c0).
Proof.
  intros Hq H. unfold curveLength in H.
  assert (Hw : subPiece c0 c0) by constructor.
  destruct (query_loop_points n (mkVars st c0 [c0] f0) r st' Hq (@cons_not_nil _ _ _)
              Hw (Forall_cons _ Hw (Forall_nil _)) H)
    as (p & Hp & Hflat & Hprev & Hcurr & Hst & Hc1 & Hc2 & Hend).
  cbn [v_state v_curve v_stack v_total lastPiece] in *.
  exists p. repeat (split; [assumption|]).
  intros Hno. rewrite Hcurr. apply Hend. exact Hno.
Qed.
End QueryPoints.

(** X1.  A point or angle query that returns from [curveLength] leaves in
    [m_previous] and [m_current] the start and the end of one flat piece
    of the curve, reached from the curve by the splits the flatness test
    asks for, and leaves [m_start], [m_control1] and [m_control2] alone.
    When the returned length does not bring the total beyond
    [m_desiredLength], the whole curve was measured and [m_current] is the
    end of the curve.  For both curve kinds and every arithmetic. *)
Theorem query_leaves_ends_of_flat_piece :
  forall (F : Type) (A : FloatArith F),
    (forall n (st : PathTraversalState F) (c : QuadraticBezier.t F) r st',
        isPointOrAngle (m_action st) = true ->
        curveLength n st c = Some (r, st') ->
        exists p,
          subPiece c p /\ needsSplit p = false
          /\ m_previous st' = start p /\ m_current st' = end_ p
          /\ m_start st' = m_start st
          /\ m_control1 st' = m_control1 st
          /\ m_control2 st' = m_control2 st
          /\ (fgt (fadd (m_totalLength st) r) (m_desiredLength st) = false ->
              m_current st' = end_ c))
    /\
    (forall n (st : PathTraversalState F) (c : CubicBezier.t F) r st',
        isPointOrAngle (m_action st) = true ->
        curveLength n st c = Some (r, st') ->
        exists p,
          subPiece c p /\ needsSplit p = false
          /\ m_previous st' = start p /\ m_current st' = end_ p
          /\ m_start st' = m_start st
          /\ m_control1 st' = m_control1 st
          /\ m_control2 st' = m_control2 st
          /\ (fgt (fadd (m_totalLength st) r) (m_desiredLength st) = false ->
              m_current st' = end_ c)).
Proof.
  intros F A. split; intros n st c r st'.
  - apply query_curveLength_points. intros c1. reflexivity.
  - apply query_curveLength_points. intros c1. reflexivity.
Qed.

(** The point query for the length 1 on the flat piece (0,0) (1,2^-10) (2,0). *)
Lemma query_leaves_ends_of_flat_piece_witness :
  exists p,
    subPiece Sample.shallow p /\ needsSplit p = false
    /\ m_previous (set_current (Sample.point (Binary32.of_Z 2) Binary32.zero)
                               (set_previous (Sample.point Binary32.zero Binary32.zero)
                                             Sample.pointQuery)) = start p.
Proof.
  destruct (query_leaves_ends_of_flat_piece Binary32.float Binary32.arith) as [H _].
  destruct (H 1%nat Sample.pointQuery Sample.shallow
              (S754_finite false 8388612 (-22))
              (set_current (Sample.point (Binary32.of_Z 2) Binary32.zero)
                           (set_previous (Sample.point Binary32.zero Binary32.zero)
                                         Sample.pointQuery))
              eq_refl ltac:(vm_compute; reflexivity))
    as (p & Hp & Hflat & Hprev & _).
  exists p. split; [exact Hp|]. split; [exact Hflat|exact Hprev].
Defined.

(** ** What a length query leaves in the state *)

Section LengthQueryState.
Context {F : Type} {A : FloatArith F} {C : Type} {CT : CurveType F C}.

(** For a length query the loop reads nothing of the state: with another
    state it makes the same passes and returns the same length. *)
Lemma length_loop_any_state (n : nat) :
  forall (curve : C) (stack : list C) (total : F)
         (st st2 : PathTraversalState F) (r : F) (st' : PathTraversalState F),
    isPointOrAngle (m_action st) = false ->
    isPointOrAngle (m_action st2) = false ->
    curveLength_loop n (mkVars st curve stack total) = Some (r, st') ->
    st' = st /\ curveLength_loop n (mkVars st2 curve stack total) = Some (r, st2).
Proof.
  induction n as [|n IH]; intros curve stack total st st2 r st' Ha Ha2 H; [discriminate|].
  rewrite curveLength_loop_S in *.
  destruct (needsSplit curve) eqn:Hs.
  - rewrite body_split in * by exact Hs.
    cbn [v_state v_curve v_stack v_total] in *.
    apply (IH _ _ _ st st2 r st' Ha Ha2 H).
  - rewrite body_flat_total in * by assumption.
    cbn [v_state v_curve v_stack v_total] in *.
    destruct stack as [|top [|c2 rest]]; [discriminate| |].
    + cbn [v_stack v_total v_state] in *. inversion H; subst. split; reflexivity.
    + cbn [v_stack] in *. apply (IH _ _ _ st st2 r st' Ha Ha2 H).
Qed.
End LengthQueryState.

(** X2.  For a length query, that is with [m_action] neither
    [TraversalPointAtLength] nor [TraversalNormalAngleAtLength] (of the
    three actions that leaves [TraversalTotalLength]), a curve operation
    that returns changes the state in three members only.  [quadraticBezierTo] leaves
    [m_control1 = newControl], [m_control2 = newEnd], [m_current = newEnd];
    [cubicBezierTo] leaves [m_control1 = newEnd], [m_control2 =
    newControl2], [m_current = newEnd] and stores [newControl1] nowhere.
    The length returned depends on the current point and the arguments
    only: from any other length-query state with the same [m_current] the
    operation returns the same length within the same bound. *)
Theorem length_query_curve_operations :
  forall (F : Type) (A : FloatArith F),
    (forall n (s : PathTraversalState F) newControl newEnd d s',
        isPointOrAngle (m_action s) = false ->
        quadraticBezierTo n s newControl newEnd = Some (d, s') ->
        s' = set_current newEnd (set_control2 newEnd (set_control1 newControl s))
        /\ forall s2 : PathTraversalState F,
            isPointOrAngle (m_action s2) = false ->
            m_current s2 = m_current s ->
            option_map fst (quadraticBezierTo n s2 newControl newEnd) = Some d)
    /\
    (forall n (s : PathTraversalState F) newControl1 newControl2 newEnd d s',
        isPointOrAngle (m_action s) = false ->
        cubicBezierTo n s newControl1 newControl2 newEnd = Some (d, s') ->
        s' = set_current newEnd (set_control2 newControl2 (set_control1 newEnd s))
        /\ forall s2 : PathTraversalState F,
            isPointOrAngle (m_action s2) = false ->
            m_current s2 = m_current s ->
            option_map fst (cubicBezierTo n s2 newControl1 newControl2 newEnd) = Some d).
Proof.
  intros F A. split.
  - intros n s c e d s' Ha H. unfold quadraticBezierTo in *.
    destruct (curveLength n s _) as [[d1 s1]|] eqn:E; [|discriminate].
    unfold curveLength in E.
    cbn [m_action set_control1 set_control2] in H.
    split.
    + destruct (length_loop_any_state n _ _ _ s s d1 s1 Ha Ha E) as [-> _].
      rewrite Ha in H. inversion H; subst. reflexivity.
    + intros s2 Ha2 Hcur. rewrite Hcur.
      destruct (length_loop_any_state n _ _ _ s s2 d1 s1 Ha Ha2 E) as [_ E2].
      unfold curveLength. rewrite E2. simpl. inversion H; subst. reflexivity.
  - intros n s c1 c2 e d s' Ha H. unfold cubicBezierTo in *.
    destruct (curveLength n s _) as [[d1 s1]|] eqn:E; [|discriminate].
    unfold curveLength in E.
    cbn [m_action set_control1 set_control2] in H.
    split.
    + destruct (length_loop_any_state n _ _ _ s s d1 s1 Ha Ha E) as [-> _].
      rewrite Ha in H. inversion H; subst. reflexivity.
    + intros s2 Ha2 Hcur. rewrite Hcur.
      destruct (length_loop_any_state n _ _ _ s s2 d1 s1 Ha Ha2 E) as [_ E2].
      unfold curveLength. rewrite E2. simpl. inversion H; subst. reflexivity.
Qed.

(** [quadraticBezierTo] on the hairpin, for the length query. *)
Lemma length_query_curve_operations_witness :
  exists d,
    quadraticBezierTo 5 Sample.lengthQuery
                      (Sample.point (Binary32.of_Z (-3)) (Binary32.of_Z (-3)))
                      (Sample.point (Binary32.of_Z (-2)) (Binary32.of_Z (-2)))
    = Some (d, set_current (Sample.point (Binary32.of_Z (-2)) (Binary32.of_Z (-2)))
                 (set_control2 (Sample.point (Binary32.of_Z (-2)) (Binary32.of_Z (-2)))
                    (set_control1 (Sample.point (Binary32.of_Z (-3)) (Binary32.of_Z (-3)))
                                  Sample.lengthQuery))).
Proof.
  destruct (quadraticBezierTo 5 Sample.lengthQuery
              (Sample.point (Binary32.of_Z (-3)) (Binary32.of_Z (-3)))
              (Sample.point (Binary32.of_Z (-2)) (Binary32.of_Z (-2))))
    as [[d s']|] eqn:E.
  - exists d.
    destruct (length_query_curve_operations Binary32.float Binary32.arith) as [H _].
    assert (Ha : isPointOrAngle (m_action Sample.lengthQuery) = false) by reflexivity.
    destruct (H _ Sample.lengthQuery _ _ _ _ Ha E) as [-> _]. reflexivity.
  - vm_compute in E. discriminate E.
Defined.

(** X4.  In binary32, on the same curve, whenever a length query returns
    a length that is a number, a point or angle query returns within the
    same bound of passes, and never returns more: either the same length,
    or one that is not larger and brings the total beyond
    [m_desiredLength]. *)
Theorem binary32_query_returns_no_more :
  (forall n (q t : PathTraversalState Binary32.float)
          (c : QuadraticBezier.t Binary32.float) d_t t1,
      isPointOrAngle (m_action q) = true ->
      isPointOrAngle (m_action t) = false ->
      curveLength n t c = Some (d_t, t1) ->
      Binary32.is_nan d_t = false ->
      exists d_q q1,
        curveLength n q c = Some (d_q, q1)
        /\ Binary32.le d_q d_t = true
        /\ (d_q = d_t
            \/ Binary32.gt (fadd (m_totalLength q) d_q) (m_desiredLength q) = true))
  /\
  (forall n (q t : PathTraversalState Binary32.float)
          (c : CubicBezier.t Binary32.float) d_t t1,
      isPointOrAngle (m_action q) = true ->
      isPointOrAngle (m_action t) = false ->
      curveLength n t c = Some (d_t, t1) ->
      Binary32.is_nan d_t = false ->
      exists d_q q1,
        curveLength n q c = Some (d_q, q1)
        /\ Binary32.le d_q d_t = true
        /\ (d_q = d_t
            \/ Binary32.gt (fadd (m_totalLength q) d_q) (m_desiredLength q) = true)).
Proof.
  split; intros n q t c d_t t1 Hq Ht H Hn.
  - destruct (binary32_curve_query_vs_total quadratic_polygon_sign quadratic_polygon_valid
                (fun c => proj1 (proj2 (quadratic_split_chain c)))
                n q t c d_t t1 Hq Ht H Hn)
      as (_ & Hnum & d_q & q1 & Hrun & _ & _ & Hcase).
    exists d_q, q1. split; [exact Hrun|].
    destruct Hcase as [[Hd _]|(Hgt & _ & Hle)].
    + split; [rewrite Hd; apply number_le_refl; exact Hnum|left; exact Hd].
    + split; [exact Hle|right; exact Hgt].
  - destruct (binary32_curve_query_vs_total cubic_polygon_sign cubic_polygon_valid
                (fun c => proj1 (proj2 (cubic_split_chain c)))
                n q t c d_t t1 Hq Ht H Hn)
      as (_ & Hnum & d_q & q1 & Hrun & _ & _ & Hcase).
    exists d_q, q1. split; [exact Hrun|].
    destruct Hcase as [[Hd _]|(Hgt & _ & Hle)].
    + split; [rewrite Hd; apply number_le_refl; exact Hnum|left; exact Hd].
    + split; [exact Hle|right; exact Hgt].
Qed.

(** The hairpin (0,0) (-3,-3) (-2,-2), asked for the point at length 1: the
    length query returns after five passes, the point query before. *)
Lemma binary32_query_returns_no_more_witness :
  exists d_t t1 d_q q1,
    curveLength 5 Sample.lengthQuery Sample.hairpin = Some (d_t, t1)
    /\ Binary32.is_nan d_t = false
    /\ curveLength 5 Sample.pointQuery Sample.hairpin = Some (d_q, q1)
    /\ Binary32.le d_q d_t = true.
Proof.
  destruct (curveLength 5 Sample.lengthQuery Sample.hairpin) as [[d_t t1]|] eqn:E;
    [|vm_compute in E; discriminate E].
  assert (Hn : Binary32.is_nan d_t = false)
    by (vm_compute in E; inversion E; reflexivity).
  destruct binary32_query_returns_no_more as [H _].
  destruct (H 5%nat Sample.pointQuery Sample.lengthQuery Sample.hairpin d_t t1
              eq_refl eq_refl E Hn) as (d_q & q1 & Hq & Hle & _).
  exists d_t, t1, d_q, q1. split; [reflexivity|]. split; [exact Hn|].
  split; [exact Hq|exact Hle].
Defined.

(** ** Binary32: a distance does not depend on the direction *)

Section Binary32Symmetry.
Import Binary32.
Local Open Scope Z_scope.

Lemma binary_round_aux_abs (s s' : bool) (m e : Z) (l : location) :
  SFabs (binary_round_aux prec emax s m e l) = SFabs (binary_round_aux prec emax s' m e l).
Proof.
  unfold binary_round_aux.
  destruct (shr_fexp prec emax m e l) as [mrs' e'].
  destruct (shr_fexp prec emax _ e' loc_Exact) as [mrs'' e''].
  destruct (shr_m mrs''); try reflexivity.
  destruct (_ <=? _); reflexivity.
Qed.

Lemma binary_round_abs (s s' : bool) (m : positive) (e : Z) :
  SFabs (binary_round prec emax s m e) = SFabs (binary_round prec emax s' m e).
Proof.
  unfold binary_round. destruct (shl_align m e _) as [mz ez].
  apply binary_round_aux_abs.
Qed.

Lemma binary_normalize_opp_abs (z e : Z) :
  SFabs (binary_normalize prec emax z e false)
  = SFabs (binary_normalize prec emax (- z) e false).
Proof.
  destruct z as [|p|p]; simpl; [reflexivity| |]; apply binary_round_abs.
Qed.

(** [a - b] and [b - a] differ in sign at most. *)
Lemma sub_abs_sym (a b : float) : SFabs (sub a b) = SFabs (sub b a).
Proof.
  destruct a as [sa|sa| |sa ma ea], b as [sb|sb| |sb mb eb];
    try reflexivity; try (destruct sa, sb; reflexivity).
  unfold sub, SFsub. rewrite (Z.min_comm eb ea).
  rewrite binary_normalize_opp_abs. f_equal. f_equal. lia.
Qed.

Lemma mul_self_abs (a : float) : mul a a = mul (SFabs a) (SFabs a).
Proof.
  destruct a as [s|s| |s m e]; try reflexivity; destruct s; reflexivity.
Qed.

Lemma distanceLine_sym (a b : FloatPoint float) : distanceLine a b = distanceLine b a.
Proof.
  unfold distanceLine. cbn [fsub fmul fadd sqrtf arith].
  rewrite (mul_self_abs (sub (FloatPoint.x b) (FloatPoint.x a))),
          (mul_self_abs (sub (FloatPoint.y b) (FloatPoint.y a))),
          (sub_abs_sym (FloatPoint.x b) (FloatPoint.x a)),
          (sub_abs_sym (FloatPoint.y b) (FloatPoint.y a)),
          <- !mul_self_abs.
  reflexivity.
Qed.
End Binary32Symmetry.

(** X5.  In binary32, rounding included and for all inputs, the distance
    between two points is the same value in both directions, where all
    NaNs count as one value (the sign and the payload of a NaN are not
    modelled): [lineTo] from [a] to [b] returns what [lineTo] from
    [b] to [a] returns, [closeSubpath] from [a] back to [b] what
    [closeSubpath] from [b] back to [a] returns, and [closeSubpath] returns
    what [lineTo] to the start of the subpath would return. *)
Theorem binary32_line_length_symmetric
        (s : PathTraversalState Binary32.float) (a b : FloatPoint Binary32.float) :
  distanceLine a b = distanceLine b a
  /\ fst (lineTo (set_current a s) b) = fst (lineTo (set_current b s) a)
  /\ fst (closeSubpath (set_start b (set_current a s)))
     = fst (closeSubpath (set_start a (set_current b s)))
  /\ fst (closeSubpath s) = fst (lineTo s (m_start s)).
Proof.
  split; [apply distanceLine_sym|]. split; [|split].
  - unfold lineTo. cbn [fst]. destruct s. apply distanceLine_sym.
  - unfold closeSubpath. cbn [fst]. destruct s. apply distanceLine_sym.
  - reflexivity.
Qed.

(** ** Binary32: curves that are straight lines *)

Section Binary32Straight.
Import Binary32.

Lemma add_zero_l (d : float) : sign_clear d || is_nan d = true -> add zero d = d.
Proof. destruct d as [[|]|[|]| |[|] m e]; try discriminate; reflexivity. Qed.

Lemma add_zero_r (d : float) : sign_clear d || is_nan d = true -> add d zero = d.
Proof. destruct d as [[|]|[|]| |[|] m e]; try discriminate; reflexivity. Qed.

Lemma sub_self_not_above_tolerance (d : float) : gt (sub d d) tolerance = false.
Proof. destruct (sub_self_cases d) as [-> | ->]; reflexivity. Qed.

(** A flat curve is done in one pass, whatever is asked for. *)
Lemma flat_curve_one_pass {C : Type} {CT : CurveType float C}
      (n : nat) (st : PathTraversalState float) (c : C) :
  needsSplit c = false ->
  curveLength (S n) st c
  = Some (add zero (approximateDistance c),
          if isPointOrAngle (m_action st)
          then set_current (end_ c) (set_previous (start c) st) else st).
Proof.
  intros Hflat. unfold curveLength. rewrite curveLength_loop_S.
  destruct (isPointOrAngle (m_action st)) eqn:Ha.
  - rewrite body_flat_query by assumption.
    cbn [v_state v_curve v_stack v_total].
    destruct (fgt _ _); reflexivity.
  - rewrite body_flat_total by assumption. reflexivity.
Qed.

(** A curve whose polygon is as long as its chord is measured as its
    chord, in one pass. *)
Lemma chord_long_curve_one_pass {C : Type} {CT : CurveType float C}
      (n : nat) (st : PathTraversalState float) (c : C) :
  approximateDistance c = distanceLine (start c) (end_ c) ->
  curveLength (S n) st c
  = Some (distanceLine (start c) (end_ c),
          if isPointOrAngle (m_action st)
          then set_current (end_ c) (set_previous (start c) st) else st).
Proof.
  intros Hpoly.
  assert (Hflat : needsSplit c = false).
  { unfold needsSplit. rewrite Hpoly. apply sub_self_not_above_tolerance. }
  rewrite (flat_curve_one_pass n st c Hflat), Hpoly.
  rewrite add_zero_l by apply distanceLine_sign_clear_or_nan. reflexivity.
Qed.

Lemma quadratic_control_at_start (s e : FloatPoint float) :
  finitePoint s = true ->
  approximateDistance (QuadraticBezier.mk s s e) = distanceLine s e.
Proof.
  intros Hs. cbn [approximateDistance QuadraticBezier_CurveType].
  unfold QuadraticBezier.approximateDistance.
  cbn [QuadraticBezier.start QuadraticBezier.control QuadraticBezier.end_ fadd arith].
  rewrite (distanceLine_self s Hs).
  apply add_zero_l, distanceLine_sign_clear_or_nan.
Qed.

Lemma quadratic_control_at_end (s e : FloatPoint float) :
  finitePoint e = true ->
  approximateDistance (QuadraticBezier.mk s e e) = distanceLine s e.
Proof.
  intros He. cbn [approximateDistance QuadraticBezier_CurveType].
  unfold QuadraticBezier.approximateDistance.
  cbn [QuadraticBezier.start QuadraticBezier.control QuadraticBezier.end_ fadd arith].
  rewrite (distanceLine_self e He).
  apply add_zero_r, distanceLine_sign_clear_or_nan.
Qed.

Lemma cubic_controls_at_ends (s e : FloatPoint float) :
  finitePoint s = true -> finitePoint e = true ->
  approximateDistance (CubicBezier.mk s s e e) = distanceLine s e.
Proof.
  intros Hs He. cbn [approximateDistance CubicBezier_CurveType].
  unfold CubicBezier.approximateDistance.
  cbn [CubicBezier.start CubicBezier.control1 CubicBezier.control2 CubicBezier.end_
       fadd arith].
  rewrite (distanceLine_self s Hs), (distanceLine_self e He).
  rewrite add_zero_l by apply distanceLine_sign_clear_or_nan.
  apply add_zero_r, distanceLine_sign_clear_or_nan.
Qed.
End Binary32Straight.

(** X6.  In binary32, a curve whose control points sit on its end points
    is measured as the straight line, with no rounding of its own: a
    quadratic with the control point at a finite start or at a finite end,
    and a cubic with the control points at its finite start and end, pass
    the flatness test at once and [curveLength] returns
    [distanceLine(start, end)] after one pass.  So [quadraticBezierTo]
    with the control point at the current point returns what [lineTo]
    returns. *)
Theorem binary32_straight_curve_is_a_line
        (s e : FloatPoint Binary32.float) (st : PathTraversalState Binary32.float)
        (n : nat) :
  finitePoint s = true -> finitePoint e = true ->
  option_map fst (curveLength (S n) st (QuadraticBezier.mk s s e))
  = Some (distanceLine s e)
  /\ option_map fst (curveLength (S n) st (QuadraticBezier.mk s e e))
     = Some (distanceLine s e)
  /\ option_map fst (curveLength (S n) st (CubicBezier.mk s s e e))
     = Some (distanceLine s e)
  /\ (m_current st = s ->
      option_map fst (quadraticBezierTo (S n) st s e) = Some (fst (lineTo st e))).
Proof.
  intros Hs He.
  pose proof (chord_long_curve_one_pass n st _ (quadratic_control_at_start s e Hs)) as H1.
  pose proof (chord_long_curve_one_pass n st _ (quadratic_control_at_end s e He)) as H2.
  pose proof (chord_long_curve_one_pass n st _ (cubic_controls_at_ends s e Hs He)) as H3.
  cbn [start end_ QuadraticBezier_CurveType CubicBezier_CurveType
       QuadraticBezier.start QuadraticBezier.end_ CubicBezier.start CubicBezier.end_]
    in H1, H2, H3.
  rewrite H1, H2, H3. repeat split.
  intros Hcur. unfold quadraticBezierTo, lineTo. rewrite Hcur, H1. reflexivity.
Qed.

(** From (0,0) to (3,4): the curve measures 5, as the line does. *)
Lemma binary32_straight_curve_is_a_line_witness :
  finitePoint (Sample.point Binary32.zero Binary32.zero) = true
  /\ finitePoint (Sample.point (Binary32.of_Z 3) (Binary32.of_Z 4)) = true
  /\ option_map fst
       (curveLength 1 Sample.lengthQuery
          (CubicBezier.mk (Sample.point Binary32.zero Binary32.zero)
                          (Sample.point Binary32.zero Binary32.zero)
                          (Sample.point (Binary32.of_Z 3) (Binary32.of_Z 4))
                          (Sample.point (Binary32.of_Z 3) (Binary32.of_Z 4))))
     = Some (distanceLine (Sample.point Binary32.zero Binary32.zero)
                          (Sample.point (Binary32.of_Z 3) (Binary32.of_Z 4))).
Proof.
  split; [reflexivity|]. split; [reflexivity|].
  destruct (binary32_straight_curve_is_a_line
              (Sample.point Binary32.zero Binary32.zero)
              (Sample.point (Binary32.of_Z 3) (Binary32.of_Z 4))
              Sample.lengthQuery 0 eq_refl eq_refl) as (_ & _ & H & _).
  exact H.
Defined.

(** ** Binary32: zero-length lines *)

Section Binary32Closing.
Import Binary32.

Lemma closeSubpath_fixed (s : PathTraversalState float) :
  m_start s = m_current s -> m_control1 s = m_current s ->
  m_control2 s = m_current s -> finitePoint (m_current s) = true ->
  closeSubpath s = (zero, s).
Proof.
  intros Hs H1 H2 Hf. unfold closeSubpath.
  rewrite Hs, (distanceLine_self (m_current s) Hf).
  destruct s; cbn in *; subst; reflexivity.
Qed.
End Binary32Closing.

(** X7.  In binary32, closing a subpath that is closed already adds
    nothing: after [closeSubpath], and after [moveTo], a [closeSubpath]
    returns exactly [+0] and changes no field, and a [lineTo] to the
    current point returns [+0], as long as the point's coordinates are
    finite. *)
Theorem binary32_closed_subpath_closes_for_free
        (s : PathTraversalState Binary32.float) (p : FloatPoint Binary32.float) :
  finitePoint (m_current s) = true -> finitePoint p = true ->
  closeSubpath (snd (closeSubpath s)) = (Binary32.zero, snd (closeSubpath s))
  /\ closeSubpath (snd (moveTo s p)) = (Binary32.zero, snd (moveTo s p))
  /\ fst (lineTo s (m_current s)) = Binary32.zero.
Proof.
  intros Hc Hp. split; [|split].
  - apply closeSubpath_fixed; try reflexivity. exact Hc.
  - apply closeSubpath_fixed; try reflexivity. exact Hp.
  - unfold lineTo. cbn [fst]. apply (distanceLine_self _ Hc).
Qed.

Lemma binary32_closed_subpath_closes_for_free_witness :
  finitePoint (m_current Sample.pointQuery) = true
  /\ finitePoint (Sample.point (Binary32.of_Z 3) (Binary32.of_Z 4)) = true
  /\ closeSubpath
       (snd (moveTo Sample.pointQuery (Sample.point (Binary32.of_Z 3) (Binary32.of_Z 4))))
     = (Binary32.zero,
        snd (moveTo Sample.pointQuery (Sample.point (Binary32.of_Z 3) (Binary32.of_Z 4)))).
Proof.
  split; [reflexivity|]. split; [reflexivity|].
  destruct (binary32_closed_subpath_closes_for_free
              Sample.pointQuery (Sample.point (Binary32.of_Z 3) (Binary32.of_Z 4))
              eq_refl eq_refl) as (_ & H & _).
  exact H.
Defined.

(** X8.  [curveLength] never calls [curveStack.last()] on an empty vector:
    the stack holds an element whenever the loop comes to pop it, for every
    curve kind, arithmetic, state and number of passes.  So a run of the
    model that gives no result has run out of passes, never out of stack. *)
Theorem curve_stack_never_underflows
        {F : Type} {A : FloatArith F} {C : Type} {CT : CurveType F C}
        (n : nat) (st : PathTraversalState F) (curve : C) :
  popsEmpty n (mkVars st curve [curve] f0) = false.
Proof. apply loop_never_pops_empty. apply cons_not_nil. Qed.

(** ** Binary32: coordinates that are not numbers *)

Section Binary32NaN.
Import Binary32.

Lemma distanceLine_nan_l (a b : FloatPoint float) :
  nanPoint a = true -> distanceLine a b = S754_nan.
Proof.
  destruct a as [ax ay], b as [bx b_y]. unfold nanPoint, distanceLine. cbn.
  intros H. apply orb_true_iff in H. destruct H as [H|H].
  - destruct ax; try discriminate.
    destruct bx; cbn; try reflexivity.
  - destruct ay; try discriminate.
    destruct b_y; cbn;
      destruct (mul (sub bx ax) (sub bx ax)); reflexivity.
Qed.

Lemma distanceLine_nan_r (a b : FloatPoint float) :
  nanPoint b = true -> distanceLine a b = S754_nan.
Proof.
  intros H. rewrite distanceLine_sym. apply distanceLine_nan_l. exact H.
Qed.

Lemma add_nan_l (a : float) : add S754_nan a = S754_nan.
Proof. reflexivity. Qed.

Lemma add_nan_r (a : float) : add a S754_nan = S754_nan.
Proof. destruct a as [[|]|[|]| |[|] m e]; reflexivity. Qed.

Lemma nan_polygon_one_pass {C : Type} {CT : CurveType float C}
      (n : nat) (st : PathTraversalState float) (c : C) :
  approximateDistance c = (S754_nan : float) ->
  curveLength (S n) st c
  = Some (S754_nan,
          if isPointOrAngle (m_action st)
          then set_current (end_ c) (set_previous (start c) st) else st).
Proof.
  intros Hp.
  assert (Hflat : needsSplit c = false).
  { unfold needsSplit. rewrite Hp. reflexivity. }
  rewrite (flat_curve_one_pass n st c Hflat), Hp. reflexivity.
Qed.

Lemma quadratic_nan_polygon (s c e : FloatPoint float) :
  nanPoint s || nanPoint c || nanPoint e = true ->
  approximateDistance (QuadraticBezier.mk s c e) = (S754_nan : float).
Proof.
  intros H. cbn [approximateDistance QuadraticBezier_CurveType].
  unfold QuadraticBezier.approximateDistance.
  cbn [QuadraticBezier.start QuadraticBezier.control QuadraticBezier.end_ fadd arith].
  apply orb_true_iff in H. destruct H as [H|H];
    [apply orb_true_iff in H; destruct H as [H|H]|].
  - rewrite (distanceLine_nan_l s c H). apply add_nan_l.
  - rewrite (distanceLine_nan_r s c H). apply add_nan_l.
  - rewrite (distanceLine_nan_r c e H). apply add_nan_r.
Qed.

Lemma cubic_nan_polygon (s c1 c2 e : FloatPoint float) :
  nanPoint s || nanPoint c1 || nanPoint c2 || nanPoint e = true ->
  approximateDistance (CubicBezier.mk s c1 c2 e) = (S754_nan : float).
Proof.
  intros H. cbn [approximateDistance CubicBezier_CurveType].
  unfold CubicBezier.approximateDistance.
  cbn [CubicBezier.start CubicBezier.control1 CubicBezier.control2 CubicBezier.end_
       fadd arith].
  apply orb_true_iff in H. destruct H as [H|H];
    [apply orb_true_iff in H; destruct H as [H|H];
     [apply orb_true_iff in H; destruct H as [H|H]|]|].
  - rewrite (distanceLine_nan_l s c1 H). reflexivity.
  - rewrite (distanceLine_nan_r s c1 H). reflexivity.
  - rewrite (distanceLine_nan_r c1 c2 H), add_nan_r. reflexivity.
  - rewrite (distanceLine_nan_r c2 e H). apply add_nan_r.
Qed.
End Binary32NaN.

(** X9.  In binary32, a coordinate that is not a number does not make the
    loop spin: for a quadratic or a cubic curve with such a coordinate in
    any of its points, the polygon length is NaN, the flatness test fails
    to ask for a split, and [curveLength] returns NaN after one pass,
    whatever is asked for.  [lineTo] returns NaN likewise. *)
Theorem binary32_nan_coordinate_returns_nan
        (s c1 c2 e : FloatPoint Binary32.float)
        (st : PathTraversalState Binary32.float) (n : nat) :
  nanPoint s || nanPoint c1 || nanPoint c2 || nanPoint e = true ->
  option_map fst (curveLength (S n) st (CubicBezier.mk s c1 c2 e)) = Some S754_nan
  /\ (nanPoint s || nanPoint c1 || nanPoint e = true ->
      option_map fst (curveLength (S n) st (QuadraticBezier.mk s c1 e)) = Some S754_nan)
  /\ (nanPoint (m_current st) || nanPoint e = true ->
      fst (lineTo st e) = S754_nan).
Proof.
  intros H. split; [|split].
  - rewrite (nan_polygon_one_pass n st _ (cubic_nan_polygon s c1 c2 e H)). reflexivity.
  - intros Hq.
    rewrite (nan_polygon_one_pass n st _ (quadratic_nan_polygon s c1 e Hq)). reflexivity.
  - intros Hl. unfold lineTo. cbn [fst].
    apply orb_true_iff in Hl. destruct Hl as [Hl|Hl].
    + apply distanceLine_nan_l. exact Hl.
    + apply distanceLine_nan_r. exact Hl.
Qed.

Lemma binary32_nan_coordinate_returns_nan_witness :
  let o := Sample.point Binary32.zero Binary32.zero in
  let bad := Sample.point S754_nan Binary32.zero in
  nanPoint o || nanPoint bad || nanPoint o || nanPoint o = true
  /\ option_map fst (curveLength 1 Sample.pointQuery (CubicBezier.mk o bad o o))
     = Some S754_nan.
Proof.
  intros o bad. split; [reflexivity|].
  destruct (binary32_nan_coordinate_returns_nan o bad o o Sample.pointQuery 0 eq_refl)
    as (H & _).
  exact H.
Defined.

(** * The chord bound in binary32 *)

(** ** The value of a rounded number *)

Section Pow2.
Import Binary32.
Local Open Scope R_scope.

Lemma pow2_pos (e : Z) : 0 < pow2 e.
Proof. apply powerRZ_lt. lra. Qed.

Lemma pow2_add (a b : Z) : pow2 (a + b) = pow2 a * pow2 b.
Proof. apply powerRZ_add. lra. Qed.

Lemma pow2_IZR (n : Z) : (0 <= n)%Z -> pow2 n = IZR (2 ^ n).
Proof.
  intros Hn. destruct n as [|p|p]; [reflexivity| |lia].
  unfold pow2. change (2 ^ Zpos p)%Z with (Z.pow_pos 2 p).
  rewrite Zpower_pos_powerRZ. reflexivity.
Qed.

Lemma pow2_scaled (m n e : Z) :
  (0 <= n)%Z -> IZR (m * 2 ^ n) * pow2 e = IZR m * pow2 (e + n).
Proof.
  intros Hn. rewrite mult_IZR, <- pow2_IZR by exact Hn.
  rewrite (Z.add_comm e n), pow2_add. ring.
Qed.

Lemma pow2_le (a b : Z) : (a <= b)%Z -> pow2 a <= pow2 b.
Proof.
  intros H. replace b with (a + (b - a))%Z by lia. rewrite pow2_add.
  rewrite (pow2_IZR (b - a)) by lia.
  assert (1 <= IZR (2 ^ (b - a))).
  { apply IZR_le. pose proof (Z.pow_pos_nonneg 2 (b - a)). lia. }
  pose proof (pow2_pos a). nra.
Qed.
End Pow2.

Section RoundedValue.
Import Binary32.
Local Open Scope R_scope.

Lemma packed_value (m2 E : Z) :
  (0 <= m2 <= 2 ^ prec)%Z ->
  is_finite (packed m2 E) = true ->
  B2R (packed m2 E) = IZR m2 * pow2 E.
Proof.
  intros Hm. unfold packed. destruct m2 as [|p|p]; [simpl; intros _; ring| |lia].
  destruct (Z.eqb_spec (Zpos p) (2 ^ prec)) as [Heq|Hne].
  - destruct (E + 1 <=? emax - prec)%Z; [|discriminate]. intros _.
    cbn [B2R]. rewrite Heq.
    change (Zpos (Z.to_pos (2 ^ (prec - 1)))) with (2 ^ 23)%Z.
    change (2 ^ prec)%Z with (2 ^ 23 * 2 ^ 1)%Z.
    rewrite pow2_scaled by lia. rewrite (Z.add_comm E 1). reflexivity.
  - destruct (E <=? emax - prec)%Z; [|discriminate]. intros _. reflexivity.
Qed.

(** The value of [binary_round_aux] on a mantissa that is not shifted to
    the left: the rounded mantissa at the exponent of the format. *)
Lemma binary_round_aux_value (M : positive) (e : Z) (l : location) :
  (e <= fexp prec emax (Zpos (digits2_pos M) + e))%Z ->
  is_finite (binary_round_aux prec emax false (Zpos M) e l) = true ->
  let E := fexp prec emax (Zpos (digits2_pos M) + e) in
  B2R (binary_round_aux prec emax false (Zpos M) e l)
  = IZR (rounded (Zpos M) e l) * pow2 E.
Proof.
  intros Hpre Hfin E.
  destruct (binary_round_aux_spec M e l Hpre) as (Hr & Hm1 & _ & Hm2).
  fold E in Hr, Hm1, Hm2.
  rewrite Hr in Hfin |- *. apply packed_value; [lia|exact Hfin].
Qed.

(** Rounding moves the mantissa by less than one unit of the exponent of
    the format. *)
Lemma rounded_near (M : positive) (e : Z) (l : location) :
  let E := fexp prec emax (Zpos (digits2_pos M) + e) in
  (e <= E)%Z ->
  (Zpos M + 1 - 2 ^ (E - e) <= rounded (Zpos M) e l * 2 ^ (E - e) <= Zpos M + 2 ^ (E - e))%Z
  /\ ((emin prec emax < E)%Z -> (2 ^ (prec - 1) * 2 ^ (E - e) <= Zpos M)%Z).
Proof.
  intros E Hpre.
  destruct (binary_round_aux_spec M e l Hpre) as (_ & Hm1 & Hn & Hm2).
  fold E in Hm1, Hn, Hm2.
  set (n := (E - e)%Z) in *.
  assert (Hp : (0 < 2 ^ n)%Z) by (apply Z.pow_pos_nonneg; lia).
  pose proof (Z.div_mod (Zpos M) (2 ^ n) ltac:(lia)) as Hdm.
  pose proof (Z.mod_pos_bound (Zpos M) (2 ^ n) Hp) as Hmod.
  set (m1 := (Zpos M / 2 ^ n)%Z) in *.
  split; [nia|]. intros HE. specialize (Hn HE). nia.
Qed.

Lemma rounded_exact (M e : Z) :
  (fexp prec emax (Zdigits2 M + e) - e <= 0)%Z ->
  rounded M e loc_Exact = (M / 2 ^ (fexp prec emax (Zdigits2 M + e) - e))%Z.
Proof.
  intros H. unfold rounded, shift_loc.
  destruct (Z.leb_spec (fexp prec emax (Zdigits2 M + e) - e) 0); [reflexivity|lia].
Qed.
End RoundedValue.

Section RoundingError.
Import Binary32.
Local Open Scope R_scope.

Lemma eps_pos : 0 < eps.
Proof. apply pow2_pos. Qed.

Lemma eta_pos : 0 < eta.
Proof. apply pow2_pos. Qed.

Lemma eps_value : eps * IZR (2 ^ 23) = 1.
Proof.
  unfold eps. rewrite <- (pow2_IZR 23) by lia. rewrite <- pow2_add. reflexivity.
Qed.

Lemma binary_round_no_shift (M : positive) (e : Z) :
  (e <= fexp prec emax (Zpos (digits2_pos M) + e))%Z ->
  binary_round prec emax false M e
  = binary_round_aux prec emax false (Zpos M) e loc_Exact.
Proof.
  intros H. unfold binary_round, shl_align.
  destruct (fexp prec emax (Zpos (digits2_pos M) + e) - e)%Z as [|p|p] eqn:E;
    try reflexivity.
  lia.
Qed.

(** One rounding of [M * 2^e], nothing beyond the mantissa: the error is
    at most [eps] of the value, or [eta] when the result is subnormal, and
    is relative whenever [e] is an exponent of the format. *)
Lemma binary_round_aux_error (M : positive) (e : Z) :
  (e <= fexp prec emax (Zpos (digits2_pos M) + e))%Z ->
  is_finite (binary_round_aux prec emax false (Zpos M) e loc_Exact) = true ->
  let x := IZR (Zpos M) * pow2 e in
  let y := B2R (binary_round_aux prec emax false (Zpos M) e loc_Exact) in
  Rabs (y - x) <= eps * x + eta
  /\ ((emin prec emax <= e)%Z -> Rabs (y - x) <= eps * x).
Proof.
  intros Hpre Hfin x y.
  unfold y. rewrite (binary_round_aux_value M e loc_Exact Hpre Hfin).
  set (E := fexp prec emax (Zpos (digits2_pos M) + e)) in *.
  destruct (rounded_near M e loc_Exact Hpre) as [Hnear Hnorm].
  fold E in Hnear, Hnorm.
  set (n := (E - e)%Z) in *.
  assert (Hn : (0 <= n)%Z) by (unfold n; lia).
  assert (Hx : 0 < x) by (unfold x; apply Rmult_lt_0_compat;
                          [apply IZR_lt; lia|apply pow2_pos]).
  pose proof eps_pos as He. pose proof eta_pos as Ht.
  pose proof (pow2_pos e) as Hpe.
  replace E with (e + n)%Z by (unfold n; lia).
  rewrite <- pow2_scaled by exact Hn.
  destruct (Z.eq_dec n 0) as [Hz|Hnz].
  - assert (Hex : rounded (Zpos M) e loc_Exact = Zpos M).
    { rewrite rounded_exact; cbn [Zdigits2]; fold E; fold n; [|lia].
      rewrite Hz. apply Z.div_1_r. }
    rewrite Hex, Hz, Z.pow_0_r, Z.mul_1_r. fold x.
    replace (x - x) with 0 by ring. rewrite Rabs_R0.
    split; [|intros _]; nra.
  - set (m2 := rounded (Zpos M) e loc_Exact) in *.
    assert (Hdiff : Rabs (IZR (m2 * 2 ^ n) * pow2 e - x) <= IZR (2 ^ n) * pow2 e).
    { unfold x. rewrite <- Rmult_minus_distr_r, Rabs_mult, (Rabs_pos_eq (pow2 e)) by lra.
      apply Rmult_le_compat_r; [lra|].
      rewrite <- minus_IZR. apply Rabs_le. rewrite <- opp_IZR.
      split; apply IZR_le; lia. }
    assert (HE : IZR (2 ^ n) * pow2 e = pow2 E).
    { rewrite <- pow2_IZR by exact Hn. rewrite <- pow2_add. f_equal. unfold n. lia. }
    pose proof (fexp_ge_emin (Zpos (digits2_pos M) + e)) as Hmin. fold E in Hmin.
    destruct (Z.eq_dec E (emin prec emax)) as [Hsub|Hnor].
    + split.
      * rewrite HE in Hdiff. rewrite Hsub in Hdiff. change (pow2 (emin prec emax)) with eta in Hdiff.
        nra.
      * intros Hemin. unfold n in Hnz. lia.
    + assert (Hrel : IZR (2 ^ n) * pow2 e <= eps * x).
      { specialize (Hnorm ltac:(lia)).
        apply IZR_le in Hnorm. rewrite mult_IZR in Hnorm.
        change (2 ^ (prec - 1))%Z with (2 ^ 23)%Z in Hnorm.
        pose proof eps_value as Hv.
        assert (Hp : 0 < IZR (2 ^ n)) by (apply IZR_lt, Z.pow_pos_nonneg; lia).
        unfold x.
        assert (IZR (2 ^ n) <= eps * IZR (Zpos M)).
        { replace (IZR (2 ^ n)) with (eps * (IZR (2 ^ 23) * IZR (2 ^ n)))
            by (rewrite <- Rmult_assoc, Hv; ring).
          apply Rmult_le_compat_l; lra. }
        nra. }
      split; [|intros _]; nra.
Qed.

Lemma binary_round_error (M : positive) (e : Z) :
  is_finite (binary_round prec emax false M e) = true ->
  let x := IZR (Zpos M) * pow2 e in
  let y := B2R (binary_round prec emax false M e) in
  Rabs (y - x) <= eps * x + eta
  /\ ((emin prec emax <= e)%Z -> Rabs (y - x) <= eps * x).
Proof.
  intros Hfin x y.
  set (E := fexp prec emax (Zpos (digits2_pos M) + e)).
  destruct (Z_le_gt_dec e E) as [Hle|Hgt].
  - unfold y. rewrite binary_round_no_shift in Hfin |- * by exact Hle.
    exact (binary_round_aux_error M e Hle Hfin).
  - set (k := (e - E)%Z).
    assert (Hk : (0 <= k)%Z) by (unfold k; lia).
    set (M' := Z.to_pos (Zpos M * 2 ^ k)).
    assert (HM' : Zpos M' = (Zpos M * 2 ^ k)%Z).
    { unfold M'. rewrite Z2Pos.id; [reflexivity|].
      pose proof (Z.pow_pos_nonneg 2 k). lia. }
    assert (Hd : fexp prec emax (Zpos (digits2_pos M') + (e - k)) = E).
    { unfold M'. rewrite digits_scaled by exact Hk. unfold E. f_equal. lia. }
    assert (Hpre : (e - k <= fexp prec emax (Zpos (digits2_pos M') + (e - k)))%Z)
      by (rewrite Hd; unfold k; lia).
    assert (Heq : binary_round prec emax false M e
                  = binary_round_aux prec emax false (Zpos M') (e - k) loc_Exact).
    { rewrite <- (binary_round_scaled M e k Hk). fold M'.
      apply binary_round_no_shift. exact Hpre. }
    unfold y. rewrite Heq in Hfin |- *.
    destruct (binary_round_aux_error M' (e - k) Hpre Hfin) as [_ Hrel].
    assert (Hx : IZR (Zpos M') * pow2 (e - k) = x).
    { rewrite HM', pow2_scaled by exact Hk. unfold x. f_equal. f_equal. lia. }
    rewrite Hx in Hrel.
    pose proof (fexp_ge_emin (Zpos (digits2_pos M) + e)) as Hmin. fold E in Hmin.
    specialize (Hrel ltac:(unfold k; lia)).
    pose proof eta_pos.
    split; [lra|intros _; exact Hrel].
Qed.
End RoundingError.

Section OperationErrors.
Import Binary32.
Local Open Scope R_scope.

Lemma B2R_finite (s : bool) (m : positive) (e : Z) :
  B2R (S754_finite s m e) = IZR (cond_Zopp s (Zpos m)) * pow2 e.
Proof. destruct s; cbn [B2R cond_Zopp]; [rewrite opp_IZR|]; ring. Qed.

Lemma B2R_abs (x : float) : B2R (SFabs x) = Rabs (B2R x).
Proof.
  destruct x as [s|s| |s m e]; cbn [SFabs B2R]; try (rewrite Rabs_R0; reflexivity).
  assert (0 < IZR (Zpos m) * pow2 e)
    by (apply Rmult_lt_0_compat; [apply IZR_lt; lia|apply pow2_pos]).
  destruct s; [rewrite Rabs_Ropp|]; rewrite Rabs_pos_eq; lra.
Qed.

Lemma is_finite_abs (x : float) : is_finite (SFabs x) = is_finite x.
Proof. destruct x; reflexivity. Qed.

Lemma binary_round_negative (M : positive) (e : Z) :
  B2R (binary_round prec emax true M e) = - B2R (binary_round prec emax false M e)
  /\ is_finite (binary_round prec emax true M e)
     = is_finite (binary_round prec emax false M e).
Proof.
  pose proof (binary_round_abs true false M e) as Habs.
  pose proof (binary_round_shape true M e) as Ht.
  pose proof (binary_round_shape false M e) as Hf.
  destruct (binary_round prec emax true M e) as [s|s| |s m1 e1];
    destruct (binary_round prec emax false M e) as [s'|s'| |s' m2 e2];
    try contradiction; try discriminate; subst;
    cbn [SFabs] in Habs; cbn [B2R is_finite]; split; try reflexivity; try lra.
  inversion Habs; subst. lra.
Qed.

(** The rounding of the integer [z] at an exponent [e] of the format. *)
Lemma binary_normalize_error (z e : Z) :
  (emin prec emax <= e)%Z ->
  is_finite (binary_normalize prec emax z e false) = true ->
  Rabs (B2R (binary_normalize prec emax z e false) - IZR z * pow2 e)
  <= eps * Rabs (IZR z * pow2 e).
Proof.
  intros He Hfin. destruct z as [|p|p]; cbn [binary_normalize] in *.
  - cbn [B2R]. rewrite Rmult_0_l, Rminus_0_r, Rabs_R0. lra.
  - destruct (binary_round_error p e Hfin) as [_ H]. specialize (H He).
    assert (0 < IZR (Zpos p) * pow2 e)
      by (apply Rmult_lt_0_compat; [apply IZR_lt; lia|apply pow2_pos]).
    rewrite (Rabs_pos_eq (IZR (Zpos p) * pow2 e)) by lra. exact H.
  - destruct (binary_round_negative p e) as [Hv Hf]. rewrite Hf in Hfin.
    destruct (binary_round_error p e Hfin) as [_ H]. specialize (H He).
    assert (0 < IZR (Zpos p) * pow2 e)
      by (apply Rmult_lt_0_compat; [apply IZR_lt; lia|apply pow2_pos]).
    rewrite Hv. change (Zneg p) with (- Zpos p)%Z. rewrite opp_IZR.
    replace (- B2R (binary_round prec emax false p e) - - IZR (Zpos p) * pow2 e)
      with (- (B2R (binary_round prec emax false p e) - IZR (Zpos p) * pow2 e)) by ring.
    rewrite Rabs_Ropp.
    replace (- IZR (Zpos p) * pow2 e) with (- (IZR (Zpos p) * pow2 e)) by ring.
    rewrite Rabs_Ropp, (Rabs_pos_eq (IZR (Zpos p) * pow2 e)) by lra. exact H.
Qed.

Lemma aligned_value (s : bool) (m : positive) (e ez : Z) :
  (ez <= e)%Z ->
  IZR (cond_Zopp s (Zpos (fst (shl_align m e ez)))) * pow2 ez
  = B2R (S754_finite s m e).
Proof.
  intros H. rewrite shl_align_value by exact H. rewrite B2R_finite.
  replace (cond_Zopp s (Zpos m * 2 ^ (e - ez)))
    with (cond_Zopp s (Zpos m) * 2 ^ (e - ez))%Z by (destruct s; cbn [cond_Zopp]; ring).
  rewrite pow2_scaled by lia. f_equal. f_equal. lia.
Qed.

Lemma valid_exponent (s : bool) (m : positive) (e : Z) :
  valid_binary prec emax (S754_finite s m e) = true -> (emin prec emax <= e)%Z.
Proof.
  intros H. apply valid_finite in H. apply canonical_digits in H. lia.
Qed.

(** A difference of valid numbers is rounded once. *)
Lemma sub_error (a b : float) :
  valid_binary prec emax a = true -> valid_binary prec emax b = true ->
  is_finite a = true -> is_finite b = true ->
  is_finite (sub a b) = true ->
  Rabs (B2R (sub a b) - (B2R a - B2R b)) <= eps * Rabs (B2R a - B2R b).
Proof.
  intros Va Vb Fa Fb.
  pose proof eps_pos as He.
  assert (Hexact : forall x y : R, x = y -> Rabs (x - y) <= eps * Rabs y).
  { intros x y ->. replace (y - y) with 0 by ring. rewrite Rabs_R0.
    pose proof (Rabs_pos y). nra. }
  destruct a as [sa|sa| |sa ma ea]; try discriminate;
    destruct b as [sb|sb| |sb mb eb]; try discriminate.
  - intros _. apply Hexact. destruct sa, sb; cbn [sub SFsub B2R]; ring.
  - intros _. apply Hexact. cbn [sub SFsub]. rewrite !B2R_finite. cbn [B2R].
    destruct sb; cbn [negb cond_Zopp]; rewrite ?opp_IZR; ring.
  - intros _. apply Hexact. cbn [sub SFsub B2R]. ring.
  - intros Hfin. unfold sub, SFsub in *.
    set (ez := Z.min ea eb) in *.
    pose proof (valid_exponent _ _ _ Va). pose proof (valid_exponent _ _ _ Vb).
    pose proof (binary_normalize_error _ ez ltac:(unfold ez; lia) Hfin) as H1.
    rewrite minus_IZR, Rmult_minus_distr_r in H1.
    rewrite !aligned_value in H1 by (unfold ez; lia). exact H1.
Qed.

(** A sum of valid numbers is rounded once. *)
Lemma add_error (a b : float) :
  valid_binary prec emax a = true -> valid_binary prec emax b = true ->
  is_finite a = true -> is_finite b = true ->
  is_finite (add a b) = true ->
  Rabs (B2R (add a b) - (B2R a + B2R b)) <= eps * Rabs (B2R a + B2R b).
Proof.
  intros Va Vb Fa Fb.
  pose proof eps_pos as He.
  assert (Hexact : forall x y : R, x = y -> Rabs (x - y) <= eps * Rabs y).
  { intros x y ->. replace (y - y) with 0 by ring. rewrite Rabs_R0.
    pose proof (Rabs_pos y). nra. }
  destruct a as [sa|sa| |sa ma ea]; try discriminate;
    destruct b as [sb|sb| |sb mb eb]; try discriminate.
  - intros _. apply Hexact. destruct sa, sb; cbn [add SFadd B2R]; ring.
  - intros _. apply Hexact. cbn [add SFadd B2R]. ring.
  - intros _. apply Hexact. cbn [add SFadd B2R]. ring.
  - intros Hfin. unfold add, SFadd in *.
    set (ez := Z.min ea eb) in *.
    pose proof (valid_exponent _ _ _ Va). pose proof (valid_exponent _ _ _ Vb).
    pose proof (binary_normalize_error _ ez ltac:(unfold ez; lia) Hfin) as H1.
    rewrite plus_IZR, Rmult_plus_distr_r in H1.
    rewrite !aligned_value in H1 by (unfold ez; lia). exact H1.
Qed.

(** The mantissa of a square has at least twice the digits, less one. *)
Lemma square_digits (m : positive) :
  (2 * Zpos (digits2_pos m) - 1 <= Zpos (digits2_pos (m * m)))%Z.
Proof.
  pose proof (digits2_pos_bounds m) as [HL _].
  set (d := Zpos (digits2_pos m)) in *.
  assert (Hd : (1 <= d)%Z) by (unfold d; lia).
  assert (H2 : (2 ^ (2 * d - 2) <= Zpos (m * m))%Z).
  { replace (2 * d - 2)%Z with ((d - 1) + (d - 1))%Z by lia.
    rewrite Z.pow_add_r by lia. rewrite Pos2Z.inj_mul.
    pose proof (Z.pow_pos_nonneg 2 (d - 1)). nia. }
  pose proof (digits_pos_ge (m * m) (2 * d - 2) ltac:(lia) H2). lia.
Qed.

(** A square of a valid number is rounded once; the result can be
    subnormal. *)
Lemma square_error (a : float) :
  valid_binary prec emax a = true ->
  is_finite a = true ->
  is_finite (mul a a) = true ->
  Rabs (B2R (mul a a) - B2R a * B2R a) <= eps * (B2R a * B2R a) + eta.
Proof.
  intros Va Fa. pose proof eps_pos. pose proof eta_pos.
  destruct a as [sa|sa| |sa m e]; try discriminate.
  - intros _. cbn [mul SFmul B2R]. rewrite Rmult_0_l, Rminus_0_r, Rabs_R0. lra.
  - rewrite mul_self_abs. cbn [SFabs]. unfold mul, SFmul. cbn [xorb].
    assert (Hsq : B2R (S754_finite sa m e) * B2R (S754_finite sa m e)
                  = IZR (Zpos (m * m)) * pow2 (e + e)).
    { rewrite pow2_add, Pos2Z.inj_mul, mult_IZR. destruct sa; cbn [B2R]; ring. }
    rewrite Hsq.
    assert (Hpre : (e + e <= fexp prec emax (Zpos (digits2_pos (m * m)) + (e + e)))%Z).
    { pose proof (canonical_digits _ _ (valid_finite _ _ _ Va)) as (Hd & Hmin & Hnorm).
      pose proof (square_digits m) as Hsd.
      pose proof (fexp_ge_emin (Zpos (digits2_pos (m * m)) + (e + e))) as Hge.
      destruct (Z.eq_dec e (emin prec emax)) as [Hs|Hn].
      - unfold emin, emax, prec in *. lia.
      - specialize (Hnorm ltac:(lia)).
        apply Z.le_trans with (fexp prec emax (e + e + prec)).
        + unfold fexp, emin, emax, prec. lia.
        + apply fexp_mono. unfold prec in *. lia. }
    intros Hfin.
    destruct (binary_round_aux_error (m * m) (e + e) Hpre Hfin) as [Habs _].
    exact Habs.
Qed.
End OperationErrors.

Section SqrtError.
Import Binary32.
Local Open Scope R_scope.

Lemma eps_lt_1 : eps < 1.
Proof.
  pose proof eps_value as H. pose proof eps_pos.
  assert (2 <= IZR (2 ^ 23)) by (apply IZR_le; lia). nra.
Qed.

Lemma sqrt_pow2_even (e : Z) : R_sqrt.sqrt (pow2 (e + e)) = pow2 e.
Proof.
  rewrite pow2_add. apply sqrt_square. pose proof (pow2_pos e). lra.
Qed.

(** The integer square root against the real one. *)
Lemma Zsqrt_bounds (m : Z) :
  (0 <= m)%Z -> IZR (Z.sqrt m) <= R_sqrt.sqrt (IZR m) <= IZR (Z.sqrt m) + 1.
Proof.
  intros Hm. pose proof (Z.sqrt_spec m Hm) as [HL HU].
  pose proof (Z.sqrt_nonneg m) as Hq.
  set (q := Z.sqrt m) in *.
  assert (Hq' : 0 <= IZR q) by (apply IZR_le; lia).
  split.
  - rewrite <- (sqrt_square (IZR q)) by exact Hq'.
    apply sqrt_le_1_alt. rewrite <- mult_IZR. apply IZR_le. lia.
  - rewrite <- (sqrt_square (IZR q + 1)) by lra.
    apply sqrt_le_1_alt. replace (IZR q + 1) with (IZR (Z.succ q)) by (rewrite succ_IZR; ring).
    rewrite <- mult_IZR. apply IZR_le. lia.
Qed.

(** A square root of a valid number is rounded once, and is never
    subnormal. *)
Lemma sqrt_error (a : float) :
  valid_binary prec emax a = true ->
  is_finite a = true -> sign_clear a = true ->
  is_finite (sqrt a) = true ->
  (1 - eps) * R_sqrt.sqrt (B2R a) <= B2R (sqrt a) <= (1 + eps) * R_sqrt.sqrt (B2R a).
Proof.
  intros Va Fa Sa.
  pose proof eps_pos as He. pose proof eps_lt_1 as He1.
  destruct a as [[|]|sa| |[|] m e]; try discriminate.
  - intros _. cbn [sqrt SFsqrt B2R]. rewrite sqrt_0. lra.
  - pose proof (valid_exponent _ _ _ Va) as Hemin.
    unfold sqrt, SFsqrt, SFsqrt_core_binary.
    cbn [Zdigits2 B2R].
    set (d := Zpos (digits2_pos m)).
    assert (Hd : (1 <= d)%Z) by (unfold d; lia).
    set (e' := Z.min (fexp prec emax (Z.div2 (d + e + 1))) (Z.div2 e)).
    assert (He' : (2 * e' <= e)%Z).
    { unfold e'. pose proof (Z.div2_div e) as H. pose proof (Z.mul_div_le e 2 ltac:(lia)).
      lia. }
    set (s := (e - 2 * e')%Z).
    assert (Hs : (0 <= s)%Z) by (unfold s; lia).
    set (m' := match s with Zpos _ => Z.shiftl (Zpos m) s | Z0 => Zpos m | Zneg _ => 0%Z end).
    assert (Hm' : m' = (Zpos m * 2 ^ s)%Z).
    { unfold m'. destruct s as [|p|p] eqn:Es; [simpl; lia| |lia].
      rewrite Z.shiftl_mul_pow2 by lia. reflexivity. }
    assert (Hp : (0 < 2 ^ s)%Z) by (apply Z.pow_pos_nonneg; lia).
    rewrite (surjective_pairing (Z.sqrtrem m')).
    rewrite Z.sqrtrem_sqrt.
    assert (Hx : IZR (Zpos m) * pow2 e = IZR m' * pow2 (e' + e')).
    { rewrite Hm', pow2_scaled by exact Hs. f_equal. f_equal. unfold s. lia. }
    rewrite Hx.
    assert (Hm'pos : (0 < m')%Z) by (rewrite Hm'; lia).
    rewrite sqrt_mult by (try (apply IZR_le; lia); pose proof (pow2_pos (e' + e')); lra).
    rewrite sqrt_pow2_even.
    pose proof (Zsqrt_bounds m' ltac:(lia)) as [HqL HqU].
    assert (Hm'' : m' = Zpos (Z.to_pos (Zpos m * 2 ^ s)))
      by (rewrite Z2Pos.id by lia; exact Hm').
    destruct (sqrt_digits (Z.to_pos (Zpos m * 2 ^ s))) as [Hdig Hq].
    rewrite <- Hm'' in Hdig, Hq.
    rewrite digits_scaled in Hdig by exact Hs. fold d in Hdig.
    destruct (Z.sqrt m') as [|q|q] eqn:Eq; try lia.
    cbn [Zdigits2] in Hdig.
    set (l := if (snd (Z.sqrtrem m') =? 0)%Z then loc_Exact
              else loc_Inexact (if (snd (Z.sqrtrem m') <=? Zpos q)%Z then Lt else Gt)).
    assert (Hhalf : ((d + s + 1) / 2 = (d + e + 1) / 2 - e')%Z).
    { unfold s. replace (d + (e - 2 * e') + 1)%Z with (d + e + 1 + (- e') * 2)%Z by lia.
      rewrite Z.div_add by lia. lia. }
    assert (Hpre : (e' <= fexp prec emax (Zpos (digits2_pos q) + e'))%Z).
    { apply Z.le_trans with (fexp prec emax (Z.div2 (d + e + 1))); [unfold e'; lia|].
      apply fexp_mono. rewrite Z.div2_div. lia. }
    intros Hfin.
    rewrite (binary_round_aux_value q e' l Hpre Hfin).
    destruct (rounded_near q e' l Hpre) as [Hnear Hnorm].
    set (E := fexp prec emax (Zpos (digits2_pos q) + e')) in *.
    assert (HE : (emin prec emax < E)%Z).
    { assert (Hlow : (-74 <= (d + e + 1) / 2)%Z).
      { apply Z.div_le_lower_bound; [lia|]. unfold emin, emax, prec in Hemin. lia. }
      assert (Hge : (fexp prec emax (-74) <= E)%Z) by (apply fexp_mono; lia).
      unfold fexp, emin, emax, prec in *. lia. }
    specialize (Hnorm HE).
    set (n := (E - e')%Z) in *.
    assert (Hn : (0 <= n)%Z) by (unfold n; lia).
    replace E with (e' + n)%Z by (unfold n; lia).
    rewrite <- pow2_scaled by exact Hn.
    set (m2 := rounded (Zpos q) e' l) in *.
    pose proof (pow2_pos e') as Hpe.
    assert (Hpn : (0 < 2 ^ n)%Z) by (apply Z.pow_pos_nonneg; lia).
    assert (H2n : IZR (2 ^ n) <= eps * IZR (Zpos q)).
    { pose proof eps_value as Hv.
      replace (IZR (2 ^ n)) with (eps * (IZR (2 ^ 23) * IZR (2 ^ n)))
        by (rewrite <- Rmult_assoc, Hv; ring).
      apply Rmult_le_compat_l; [lra|]. rewrite <- mult_IZR. apply IZR_le.
      change (2 ^ (prec - 1))%Z with (2 ^ 23)%Z in Hnorm. exact Hnorm. }
    assert (HL : IZR (Zpos q) + 1 - IZR (2 ^ n) <= IZR (m2 * 2 ^ n)).
    { replace (IZR (Zpos q) + 1 - IZR (2 ^ n)) with (IZR (Zpos q + 1 - 2 ^ n))
        by (rewrite minus_IZR, plus_IZR; ring).
      apply IZR_le. lia. }
    assert (HU : IZR (m2 * 2 ^ n) <= IZR (Zpos q) + IZR (2 ^ n)).
    { rewrite <- plus_IZR. apply IZR_le. lia. }
    assert (Hqpos : 0 < IZR (Zpos q)) by (apply IZR_lt; lia).
    split.
    + rewrite <- Rmult_assoc. apply Rmult_le_compat_r; [lra|]. nra.
    + rewrite <- Rmult_assoc. apply Rmult_le_compat_r; [lra|]. nra.
Qed.
End SqrtError.

Section RealChains.
Import Binary32.
Local Open Scope R_scope.

Lemma tiny_pos : 0 < tiny.
Proof. apply pow2_pos. Qed.

Lemma tiny_square : tiny * tiny = 2 * eta.
Proof.
  unfold tiny, eta. rewrite <- pow2_add. change (-74 + -74)%Z with (1 + -149)%Z.
  rewrite pow2_add. replace (pow2 1) with 2 by (unfold pow2; simpl; ring). reflexivity.
Qed.

Lemma Rabs_bounds (a b : R) : Rabs a <= b -> - b <= a <= b.
Proof. unfold Rabs. destruct (Rcase_abs a); lra. Qed.

Lemma square_between (eps0 X D : R) :
  0 <= eps0 <= 1 ->
  Rabs (X - D) <= eps0 * Rabs D ->
  (1 - eps0) * (1 - eps0) * (D * D) <= X * X <= (1 + eps0) * (1 + eps0) * (D * D).
Proof.
  intros He H.
  pose proof (Rabs_triang_inv2 X D) as Ht.
  pose proof (Rabs_pos D) as HD. pose proof (Rabs_pos X) as HX.
  assert (Hu : (1 - eps0) * Rabs D <= Rabs X <= (1 + eps0) * Rabs D).
  { apply Rabs_bounds in Ht. lra. }
  replace (X * X) with (Rabs X * Rabs X)
    by (rewrite <- Rabs_mult; apply Rabs_pos_eq; nra).
  replace (D * D) with (Rabs D * Rabs D)
    by (rewrite <- Rabs_mult; apply Rabs_pos_eq; nra).
  assert (Hl : 0 <= (1 - eps0) * Rabs D) by (apply Rmult_le_pos; lra).
  split.
  - replace ((1 - eps0) * (1 - eps0) * (Rabs D * Rabs D))
      with ((1 - eps0) * Rabs D * ((1 - eps0) * Rabs D)) by ring.
    apply Rmult_le_compat; lra.
  - replace ((1 + eps0) * (1 + eps0) * (Rabs D * Rabs D))
      with ((1 + eps0) * Rabs D * ((1 + eps0) * Rabs D)) by ring.
    apply Rmult_le_compat; lra.
Qed.

Lemma sqrt_lower (S0 A c : R) :
  0 <= A -> 0 <= c -> A * A - c * c <= S0 -> A - c <= R_sqrt.sqrt S0.
Proof.
  intros HA Hc H.
  destruct (Rle_dec A c) as [Hle|Hgt].
  - pose proof (sqrt_pos S0). lra.
  - assert (Hpos : 0 <= A - c) by lra.
    rewrite <- (sqrt_square (A - c)) by exact Hpos.
    apply sqrt_le_1_alt. nra.
Qed.

Lemma sqrt_upper (S0 A : R) :
  0 <= A -> S0 <= A * A -> R_sqrt.sqrt S0 <= A.
Proof.
  intros HA H. rewrite <- (sqrt_square A) by exact HA.
  apply sqrt_le_1_alt. exact H.
Qed.

(** The chain of roundings in [distanceLine], on the reals. *)
Lemma distance_chain (dx dy X Y Sx Sy S0 R0 : R) :
  Rabs (X - dx) <= eps * Rabs dx ->
  Rabs (Y - dy) <= eps * Rabs dy ->
  Rabs (Sx - X * X) <= eps * (X * X) + eta ->
  Rabs (Sy - Y * Y) <= eps * (Y * Y) + eta ->
  0 <= Sx -> 0 <= Sy ->
  Rabs (S0 - (Sx + Sy)) <= eps * Rabs (Sx + Sy) ->
  (1 - eps) * R_sqrt.sqrt S0 <= R0 <= (1 + eps) * R_sqrt.sqrt S0 ->
  let D := R_sqrt.sqrt (dx * dx + dy * dy) in
  (1 - eps) * (1 - eps) * (1 - eps) * D - tiny <= R0
  /\ R0 <= (1 + eps) * (1 + eps) * (1 + eps) * D + 2 * tiny.
Proof.
  intros HX HY HSx HSy HSx0 HSy0 HS HR D.
  pose proof eps_pos as He. pose proof eps_lt_1 as He1.
  pose proof eta_pos as Ht. pose proof tiny_pos as Hc. pose proof tiny_square as Hcc.
  assert (He01 : 0 <= eps <= 1) by lra.
  destruct (square_between eps X dx He01 HX) as [HXl HXu].
  destruct (square_between eps Y dy He01 HY) as [HYl HYu].
  assert (HD0 : 0 <= dx * dx + dy * dy) by nra.
  assert (HD : 0 <= D) by apply sqrt_pos.
  assert (HDD : D * D = dx * dx + dy * dy) by (apply sqrt_sqrt; exact HD0).
  apply Rabs_bounds in HSx. apply Rabs_bounds in HSy.
  assert (HXX : 0 <= X * X) by nra. assert (HYY : 0 <= Y * Y) by nra.
  set (r := 1 - eps) in *. set (u := 1 + eps) in *.
  assert (Hr : 0 < r < 1) by (unfold r; lra).
  assert (Hu : 1 < u < 2) by (unfold u; lra).
  assert (HSxl : r * r * r * (dx * dx) - eta <= Sx).
  { assert (r * (X * X) - eta <= Sx) by (unfold r; lra).
    assert (r * (r * r * (dx * dx)) <= r * (X * X)) by (apply Rmult_le_compat_l; lra).
    lra. }
  assert (HSyl : r * r * r * (dy * dy) - eta <= Sy).
  { assert (r * (Y * Y) - eta <= Sy) by (unfold r; lra).
    assert (r * (r * r * (dy * dy)) <= r * (Y * Y)) by (apply Rmult_le_compat_l; lra).
    lra. }
  assert (HSxu : Sx <= u * u * u * (dx * dx) + eta).
  { assert (Sx <= u * (X * X) + eta) by (unfold u; lra).
    assert (u * (X * X) <= u * (u * u * (dx * dx))) by (apply Rmult_le_compat_l; lra).
    lra. }
  assert (HSyu : Sy <= u * u * u * (dy * dy) + eta).
  { assert (Sy <= u * (Y * Y) + eta) by (unfold u; lra).
    assert (u * (Y * Y) <= u * (u * u * (dy * dy))) by (apply Rmult_le_compat_l; lra).
    lra. }
  set (T := Sx + Sy) in *.
  assert (HTl : r * r * r * (D * D) - 2 * eta <= T) by (unfold T; rewrite HDD; lra).
  assert (HTu : T <= u * u * u * (D * D) + 2 * eta) by (unfold T; rewrite HDD; lra).
  assert (HT0 : 0 <= T) by (unfold T; lra).
  rewrite (Rabs_pos_eq T) in HS by exact HT0.
  apply Rabs_bounds in HS.
  assert (HS0 : 0 <= R_sqrt.sqrt S0) by apply sqrt_pos.
  split.
  - (* lower *)
    assert (HSl : r * r * D * (r * r * D) - tiny * tiny <= S0).
    { assert (r * T <= S0) by (unfold r; lra).
      assert (r * (r * r * r * (D * D) - 2 * eta) <= r * T)
        by (apply Rmult_le_compat_l; lra).
      rewrite Hcc. nra. }
    assert (Hsq : r * r * D - tiny <= R_sqrt.sqrt S0).
    { apply sqrt_lower; [|lra|exact HSl].
      apply Rmult_le_pos; [nra|exact HD]. }
    assert (r * (r * r * D - tiny) <= r * R_sqrt.sqrt S0)
      by (apply Rmult_le_compat_l; lra).
    fold r in HR. nra.
  - (* upper *)
    assert (HSu : S0 <= (u * u * D + u * tiny) * (u * u * D + u * tiny)).
    { assert (S0 <= u * (u * u * u * (D * D) + 2 * eta)).
      { assert (S0 <= u * T) by (unfold u; lra).
        assert (u * T <= u * (u * u * u * (D * D) + 2 * eta))
          by (apply Rmult_le_compat_l; lra).
        lra. }
      assert (0 <= u * u * D * (u * tiny)).
      { apply Rmult_le_pos; [apply Rmult_le_pos; [nra|exact HD]|nra]. }
      replace ((u * u * D + u * tiny) * (u * u * D + u * tiny))
        with (u * (u * u * u * (D * D)) + 2 * (u * u * D * (u * tiny))
              + u * u * (tiny * tiny)) by ring.
      rewrite Hcc.
      assert (u * (2 * eta) <= u * u * (2 * eta)).
      { rewrite (Rmult_assoc u u). apply Rmult_le_compat_l; [lra|].
        rewrite <- (Rmult_1_l (2 * eta)) at 1. apply Rmult_le_compat_r; lra. }
      lra. }
    assert (Hsq : R_sqrt.sqrt S0 <= u * u * D + u * tiny).
    { apply sqrt_upper; [|exact HSu].
      apply Rplus_le_le_0_compat; [apply Rmult_le_pos; [nra|exact HD]|nra]. }
    assert (u * R_sqrt.sqrt S0 <= u * (u * u * D + u * tiny))
      by (apply Rmult_le_compat_l; lra).
    fold u in HR.
    assert (u * u * tiny <= 2 * tiny).
    { assert (u * u <= 2).
      { pose proof eps_value as Hv.
        assert (4 <= IZR (2 ^ 23)) by (apply IZR_le; lia).
        assert (eps <= / 4).
        { apply Rmult_le_reg_r with (IZR (2 ^ 23)); [lra|]. rewrite Hv. lra. }
        unfold u. nra. }
      rewrite <- (Rmult_comm tiny). rewrite <- (Rmult_comm tiny 2).
      apply Rmult_le_compat_l; lra. }
    lra.
Qed.
End RealChains.

Section DistanceError.
Import Binary32.
Local Open Scope R_scope.

Lemma valid_abs (x : float) :
  valid_binary prec emax (SFabs x) = valid_binary prec emax x.
Proof. destruct x; reflexivity. Qed.

Lemma binary_round_valid_any (s : bool) (M : positive) (e : Z) :
  valid_binary prec emax (binary_round prec emax s M e) = true.
Proof.
  rewrite <- valid_abs, (binary_round_abs s false), valid_abs.
  apply binary_round_valid.
Qed.

Lemma binary_normalize_valid (z e : Z) (s : bool) :
  valid_binary prec emax (binary_normalize prec emax z e s) = true.
Proof. destruct z; [reflexivity| |]; apply binary_round_valid_any. Qed.

(** Sums and differences of valid numbers are valid, whatever the signs. *)
Lemma sub_valid (a b : float) :
  valid_binary prec emax a = true -> valid_binary prec emax b = true ->
  valid_binary prec emax (sub a b) = true.
Proof.
  intros Va Vb.
  destruct a as [sa|sa| |sa ma ea], b as [sb|sb| |sb mb eb];
    try reflexivity; try exact Va; try exact Vb;
    try (destruct sa, sb; reflexivity).
  apply binary_normalize_valid.
Qed.

Lemma add_valid_any (a b : float) :
  valid_binary prec emax a = true -> valid_binary prec emax b = true ->
  valid_binary prec emax (add a b) = true.
Proof.
  intros Va Vb.
  destruct a as [sa|sa| |sa ma ea], b as [sb|sb| |sb mb eb];
    try reflexivity; try exact Va; try exact Vb;
    try (destruct sa, sb; reflexivity).
  apply binary_normalize_valid.
Qed.

Lemma square_shifts_right (m : positive) (e : Z) :
  canonical_mantissa prec emax m e = true ->
  (e + e <= fexp prec emax (Zpos (digits2_pos (m * m)) + (e + e)))%Z.
Proof.
  intros Hc.
  pose proof (canonical_digits _ _ Hc) as (Hd & Hmin & Hnorm).
  pose proof (square_digits m) as Hsd.
  pose proof (fexp_ge_emin (Zpos (digits2_pos (m * m)) + (e + e))) as Hge.
  destruct (Z.eq_dec e (emin prec emax)) as [Hs|Hn].
  - unfold emin, emax, prec in *. lia.
  - specialize (Hnorm ltac:(lia)).
    apply Z.le_trans with (fexp prec emax (e + e + prec)).
    + unfold fexp, emin, emax, prec. lia.
    + apply fexp_mono. unfold prec in *. lia.
Qed.

Lemma square_valid (a : float) :
  valid_binary prec emax a = true -> valid_binary prec emax (mul a a) = true.
Proof.
  intros Va. destruct a as [sa|sa| |sa m e]; try reflexivity.
  rewrite mul_self_abs. cbn [SFabs]. unfold mul, SFmul. cbn [xorb].
  apply binary_round_aux_valid, square_shifts_right, (valid_finite sa), Va.
Qed.

(** Finite results come from finite operands. *)
Lemma sub_finite_operands (a b : float) :
  is_finite (sub a b) = true -> is_finite a = true /\ is_finite b = true.
Proof.
  destruct a as [sa|sa| |sa ma ea], b as [sb|sb| |sb mb eb];
    try discriminate; try (split; reflexivity);
    destruct sa, sb; discriminate.
Qed.

Lemma add_finite_operands (a b : float) :
  is_finite (add a b) = true -> is_finite a = true /\ is_finite b = true.
Proof.
  destruct a as [sa|sa| |sa ma ea], b as [sb|sb| |sb mb eb];
    try discriminate; try (split; reflexivity);
    destruct sa, sb; discriminate.
Qed.

Lemma square_finite_operand (a : float) :
  is_finite (mul a a) = true -> is_finite a = true.
Proof. destruct a as [sa|sa| |sa ma ea]; try discriminate; reflexivity. Qed.

Lemma sqrt_finite_operand (a : float) :
  is_finite (sqrt a) = true -> is_finite a = true.
Proof. destruct a as [sa|[|]| |[|] ma ea]; try discriminate; reflexivity. Qed.

Lemma sign_clear_B2R (a : float) : sign_clear a = true -> 0 <= B2R a.
Proof.
  destruct a as [[|]|[|]| |[|] m e]; try discriminate; intros _; cbn [B2R]; try lra.
  pose proof (pow2_pos e). assert (0 < IZR (Zpos m)) by (apply IZR_lt; lia). nra.
Qed.

Lemma finite_sign_clear (a : float) :
  is_finite a = true -> sign_clear a || is_nan a = true -> sign_clear a = true.
Proof. destruct a as [sa|sa| |sa ma ea]; try discriminate; intros _ H; rewrite orb_false_r in H; exact H. Qed.

(** [distanceLine] in binary32 against the Euclidean distance: three
    roundings up or down, and [tiny] when the squares underflow. *)
Lemma distanceLine_error (a b : FloatPoint float) :
  validPoint a = true -> validPoint b = true ->
  is_finite (distanceLine a b) = true ->
  (1 - eps) * (1 - eps) * (1 - eps) * distR a b - tiny <= B2R (distanceLine a b)
  /\ B2R (distanceLine a b) <= (1 + eps) * (1 + eps) * (1 + eps) * distR a b + 2 * tiny.
Proof.
  unfold validPoint. intros Va Vb.
  apply andb_prop in Va. apply andb_prop in Vb.
  destruct Va as [Vax Vay], Vb as [Vbx Vby].
  unfold distanceLine, distR, dist_euc. cbn [fsub fmul fadd sqrtf arith].
  set (dx := sub (FloatPoint.x b) (FloatPoint.x a)).
  set (dy := sub (FloatPoint.y b) (FloatPoint.y a)).
  intros Hfin.
  pose proof (sqrt_finite_operand _ Hfin) as Fs.
  destruct (add_finite_operands _ _ Fs) as [Fsx Fsy].
  pose proof (square_finite_operand _ Fsx) as Fdx.
  pose proof (square_finite_operand _ Fsy) as Fdy.
  destruct (sub_finite_operands _ _ Fdx) as [Fbx Fax].
  destruct (sub_finite_operands _ _ Fdy) as [Fby Fay].
  pose proof (sub_valid _ _ Vbx Vax) as Vdx. fold dx in Vdx.
  pose proof (sub_valid _ _ Vby Vay) as Vdy. fold dy in Vdy.
  pose proof (square_valid _ Vdx) as Vsx.
  pose proof (square_valid _ Vdy) as Vsy.
  pose proof (finite_sign_clear _ Fsx (mul_self_sign_clear_or_nan dx)) as Ssx.
  pose proof (finite_sign_clear _ Fsy (mul_self_sign_clear_or_nan dy)) as Ssy.
  pose proof (add_valid _ _ Vsx Vsy Ssx Ssy) as Vs.
  pose proof (add_sign_clear _ _ Ssx Ssy) as Ss.
  pose proof (sub_error _ _ Vbx Vax Fbx Fax Fdx) as Ex. fold dx in Ex.
  pose proof (sub_error _ _ Vby Vay Fby Fay Fdy) as Ey. fold dy in Ey.
  pose proof (square_error _ Vdx Fdx Fsx) as Esx.
  pose proof (square_error _ Vdy Fdy Fsy) as Esy.
  pose proof (add_error _ _ Vsx Vsy Fsx Fsy Fs) as Es.
  pose proof (sqrt_error _ Vs Fs Ss Hfin) as Er.
  pose proof (distance_chain _ _ _ _ _ _ _ _ Ex Ey Esx Esy
                (sign_clear_B2R _ Ssx) (sign_clear_B2R _ Ssy) Es Er) as H.
  cbn zeta in H.
  replace ((B2R (FloatPoint.x a) - B2R (FloatPoint.x b))² +
           (B2R (FloatPoint.y a) - B2R (FloatPoint.y b))²)
    with ((B2R (FloatPoint.x b) - B2R (FloatPoint.x a)) *
          (B2R (FloatPoint.x b) - B2R (FloatPoint.x a)) +
          (B2R (FloatPoint.y b) - B2R (FloatPoint.y a)) *
          (B2R (FloatPoint.y b) - B2R (FloatPoint.y a)))
    by (unfold Rsqr; ring).
  exact H.
Qed.

(** The coordinates of the two points are finite when the distance is. *)
Lemma distanceLine_finite_points (a b : FloatPoint float) :
  is_finite (distanceLine a b) = true -> finitePoint a = true /\ finitePoint b = true.
Proof.
  unfold distanceLine, finitePoint. cbn [fsub fmul fadd sqrtf arith]. intros Hfin.
  pose proof (sqrt_finite_operand _ Hfin) as Fs.
  destruct (add_finite_operands _ _ Fs) as [Fsx Fsy].
  pose proof (square_finite_operand _ Fsx) as Fdx.
  pose proof (square_finite_operand _ Fsy) as Fdy.
  destruct (sub_finite_operands _ _ Fdx) as [Fbx Fax].
  destruct (sub_finite_operands _ _ Fdy) as [Fby Fay].
  rewrite Fax, Fay, Fbx, Fby. split; reflexivity.
Qed.
End DistanceError.

Section MidpointValid.
Import Binary32.
Local Open Scope Z_scope.

Lemma binary_round_aux_valid_any (s : bool) (M : positive) (e : Z) (l : location) :
  e <= fexp prec emax (Zpos (digits2_pos M) + e) ->
  valid_binary prec emax (binary_round_aux prec emax s (Zpos M) e l) = true.
Proof.
  intros H. rewrite <- valid_abs, (binary_round_aux_abs s false), valid_abs.
  apply binary_round_aux_valid. exact H.
Qed.

(** The quotient of a mantissa of [d] digits, shifted by [s], by [2^23]. *)
Lemma quotient_digits (m q : positive) (s : Z) :
  0 <= s -> Zpos q = Zpos m * 2 ^ s / 2 ^ 23 ->
  Zpos (digits2_pos m) + s - 23 <= Zpos (digits2_pos q).
Proof.
  intros Hs Hq.
  pose proof (digits2_pos_bounds m) as [HL _].
  set (d := Zpos (digits2_pos m)) in *.
  assert (Hd : 1 <= d) by (unfold d; lia).
  destruct (Z_le_gt_dec (d + s - 23) 0) as [Hsmall|Hbig]; [lia|].
  assert (Hlow : 2 ^ (d + s - 24) <= Zpos q).
  { rewrite Hq. apply Z.div_le_lower_bound; [lia|].
    rewrite <- Z.pow_add_r by lia.
    replace (23 + (d + s - 24)) with ((d - 1) + s) by lia.
    rewrite Z.pow_add_r by lia.
    apply Z.mul_le_mono_nonneg_r; [apply Z.pow_nonneg; lia|exact HL]. }
  pose proof (digits_pos_ge q (d + s - 24) ltac:(lia) Hlow). lia.
Qed.

(** Halving a valid number gives a valid number. *)
Lemma div_two_valid (x : float) :
  valid_binary prec emax x = true -> valid_binary prec emax (div x two) = true.
Proof.
  intros Vx. destruct x as [sx|sx| |sx m e]; try reflexivity.
  pose proof (canonical_digits _ _ (valid_finite _ _ _ Vx)) as (Hd & Hmin & Hnorm).
  unfold div, two, SFdiv, SFdiv_core_binary.
  change (Zdigits2 (Zpos 8388608)) with 24. cbn [Zdigits2].
  set (d := Zpos (digits2_pos m)) in *.
  assert (Hd1 : 1 <= d) by (unfold d; lia).
  assert (HE : fexp prec emax (d + e - (24 + -22)) <= e).
  { unfold fexp, emin, emax, prec in *.
    destruct (Z.eq_dec e (-149)) as [He|He]; [lia|]. specialize (Hnorm ltac:(lia)). lia. }
  set (fe := fexp prec emax (d + e - (24 + -22))) in *.
  replace (Z.min fe (e - -22)) with fe by lia.
  set (s := e - -22 - fe).
  assert (Hs : 22 <= s) by (unfold s; lia).
  destruct s as [|ps|ps] eqn:Es; try lia.
  rewrite Z.shiftl_mul_pow2 by lia. rewrite <- Es.
  destruct (Z.div_eucl (Zpos m * 2 ^ s) (Zpos 8388608)) as [q r] eqn:Hdiv.
  assert (Hq : q = Zpos m * 2 ^ s / 2 ^ 23)
    by (unfold Z.div; change (2 ^ 23) with (Zpos 8388608); rewrite Hdiv; reflexivity).
  assert (Hr : r = (Zpos m * 2 ^ s) mod 2 ^ 23)
    by (unfold Z.modulo; change (2 ^ 23) with (Zpos 8388608); rewrite Hdiv; reflexivity).
  assert (Hq0 : 0 <= q).
  { rewrite Hq. apply Z.div_pos; [|lia]. pose proof (Z.pow_pos_nonneg 2 s). lia. }
  destruct q as [|qp|qp]; [|apply binary_round_aux_valid_any|lia].
  - (* the quotient is zero: the smallest subnormal, halved *)
    assert (Hsmall : Zpos m * 2 ^ s < 2 ^ 23).
    { destruct (Z_lt_le_dec (Zpos m * 2 ^ s) (2 ^ 23)) as [Hlt|Hge]; [exact Hlt|].
      assert (1 <= Zpos m * 2 ^ s / 2 ^ 23)
        by (apply Z.div_le_lower_bound; lia).
      lia. }
    assert (Hs22 : s = 22).
    { destruct (Z.eq_dec s 22) as [E22|N22]; [exact E22|].
      assert (2 ^ 23 <= 2 ^ s) by (apply Z.pow_le_mono_r; lia). nia. }
    assert (Hm : m = 1%positive).
    { rewrite Hs22 in Hsmall. change (2 ^ 23) with (2 * 2 ^ 22) in Hsmall.
      assert (Zpos m < 2) by nia. lia. }
    subst m. rewrite Hs22 in Hr. subst r.
    assert (He : e = -149).
    { unfold s in Hs22. unfold fe, fexp, emin, emax, prec, d in *. simpl in *. lia. }
    assert (Hfe : fe = -149) by (unfold s in Hs22; lia).
    rewrite Hfe. destruct sx; reflexivity.
  - apply Z.le_trans with (fexp prec emax (d + e - 1)).
    + unfold fe. apply fexp_mono. lia.
    + apply fexp_mono.
      pose proof (quotient_digits m qp s ltac:(lia) Hq) as Hqd. fold d in Hqd.
      unfold s in Hqd. lia.
Qed.
End MidpointValid.

Section PolygonError.
Import Binary32.
Local Open Scope R_scope.

Lemma midPoint_valid (a b : FloatPoint float) :
  validPoint a = true -> validPoint b = true -> validPoint (midPoint a b) = true.
Proof.
  unfold validPoint, midPoint. cbn [FloatPoint.x FloatPoint.y fadd fdiv f2 arith].
  intros Va Vb. apply andb_prop in Va. apply andb_prop in Vb.
  destruct Va as [Vax Vay], Vb as [Vbx Vby].
  apply andb_true_intro. split; apply div_two_valid, add_valid_any; assumption.
Qed.

Lemma quadratic_split_valid (c : QuadraticBezier.t float) :
  validQuadratic c = true ->
  validQuadratic (fst (split c)) = true /\ validQuadratic (snd (split c)) = true.
Proof.
  unfold validQuadratic. intros V.
  apply andb_prop in V. destruct V as [V Ve]. apply andb_prop in V. destruct V as [Vs Vc].
  cbn [split QuadraticBezier_CurveType]. unfold QuadraticBezier.split.
  cbn [fst snd QuadraticBezier.start QuadraticBezier.control QuadraticBezier.end_].
  assert (V1 := midPoint_valid _ _ Vs Vc).
  assert (V2 := midPoint_valid _ _ Vc Ve).
  assert (V3 := midPoint_valid _ _ V1 V2).
  rewrite Vs, Ve, V1, V2, V3. split; reflexivity.
Qed.

Lemma cubic_split_valid (c : CubicBezier.t float) :
  validCubic c = true ->
  validCubic (fst (split c)) = true /\ validCubic (snd (split c)) = true.
Proof.
  unfold validCubic. intros V.
  apply andb_prop in V. destruct V as [V Ve]. apply andb_prop in V. destruct V as [V Vc2].
  apply andb_prop in V. destruct V as [Vs Vc1].
  cbn [split CubicBezier_CurveType]. unfold CubicBezier.split.
  cbn [fst snd CubicBezier.start CubicBezier.control1 CubicBezier.control2 CubicBezier.end_].
  assert (V0 := midPoint_valid _ _ Vc1 Vc2).
  assert (V1 := midPoint_valid _ _ Vs Vc1).
  assert (V2 := midPoint_valid _ _ V1 V0).
  assert (V3 := midPoint_valid _ _ Vc2 Ve).
  assert (V4 := midPoint_valid _ _ V3 V0).
  assert (V5 := midPoint_valid _ _ V2 V4).
  rewrite Vs, Ve, V1, V2, V3, V4, V5. split; reflexivity.
Qed.

Lemma distR_nonneg (a b : FloatPoint float) : 0 <= distR a b.
Proof. unfold distR, dist_euc. apply sqrt_pos. Qed.

Lemma distR_triangle (a b c : FloatPoint float) : distR a c <= distR a b + distR b c.
Proof. unfold distR. apply triangle. Qed.

(** A finite distance, as a number. *)
Lemma distanceLine_parts (a b : FloatPoint float) :
  is_finite (distanceLine a b) = true ->
  valid_binary prec emax (distanceLine a b) = true
  /\ sign_clear (distanceLine a b) = true
  /\ 0 <= B2R (distanceLine a b).
Proof.
  intros F.
  pose proof (finite_sign_clear _ F (distanceLine_sign_clear_or_nan a b)) as S.
  split; [apply distanceLine_valid|]. split; [exact S|apply sign_clear_B2R, S].
Qed.

(** A sum of two numbers that are not negative loses at most [eps] of
    its value. *)
Lemma add_lower (a b : float) :
  valid_binary prec emax a = true -> valid_binary prec emax b = true ->
  sign_clear a = true -> sign_clear b = true ->
  is_finite (add a b) = true ->
  (1 - eps) * (B2R a + B2R b) <= B2R (add a b).
Proof.
  intros Va Vb Sa Sb F.
  destruct (add_finite_operands _ _ F) as [Fa Fb].
  pose proof (add_error _ _ Va Vb Fa Fb F) as H.
  pose proof (sign_clear_B2R _ Sa). pose proof (sign_clear_B2R _ Sb).
  rewrite (Rabs_pos_eq (B2R a + B2R b)) in H by lra.
  apply Rabs_bounds in H. lra.
Qed.

Lemma quadratic_polygon_error (c : QuadraticBezier.t float) :
  validQuadratic c = true ->
  is_finite (approximateDistance c) = true ->
  (1 - eps) ^ 5 * distR (start c) (end_ c) - 3 * tiny <= B2R (approximateDistance c).
Proof.
  unfold validQuadratic. intros V.
  apply andb_prop in V. destruct V as [V Ve]. apply andb_prop in V. destruct V as [Vs Vc].
  cbn [approximateDistance start end_ QuadraticBezier_CurveType].
  unfold QuadraticBezier.approximateDistance. cbn [fadd arith].
  set (p0 := QuadraticBezier.start c) in *. set (p1 := QuadraticBezier.control c) in *.
  set (p2 := QuadraticBezier.end_ c) in *.
  intros F. destruct (add_finite_operands _ _ F) as [F1 F2].
  destruct (distanceLine_parts _ _ F1) as (V1 & S1 & N1).
  destruct (distanceLine_parts _ _ F2) as (V2 & S2 & N2).
  pose proof (add_lower _ _ V1 V2 S1 S2 F) as Hsum.
  destruct (distanceLine_error p0 p1 Vs Vc F1) as [L1 _].
  destruct (distanceLine_error p1 p2 Vc Ve F2) as [L2 _].
  pose proof (distR_triangle p0 p1 p2) as Ht.
  pose proof (distR_nonneg p0 p2) as H02.
  pose proof (distR_nonneg p0 p1) as H01. pose proof (distR_nonneg p1 p2) as H12.
  pose proof eps_pos as He. pose proof eps_lt_1 as He1. pose proof tiny_pos as Hc.
  set (r := 1 - eps) in *.
  assert (Hr : 0 < r < 1) by (unfold r; lra).
  set (D := distR p0 p2) in *. set (D1 := distR p0 p1) in *. set (D2 := distR p1 p2) in *.
  assert (Hr3 : 0 <= r * r * r) by (apply Rmult_le_pos; [apply Rmult_le_pos|]; lra).
  assert (Hr3' : r * r * r <= 1).
  { assert (r * r <= 1) by nra. nra. }
  assert (H1 : r * r * r * D - 2 * tiny <= B2R (distanceLine p0 p1) + B2R (distanceLine p1 p2)).
  { assert (r * r * r * D <= r * r * r * (D1 + D2)) by (apply Rmult_le_compat_l; lra). lra. }
  assert (H2 : r * (r * r * r * D - 2 * tiny)
               <= r * (B2R (distanceLine p0 p1) + B2R (distanceLine p1 p2)))
    by (apply Rmult_le_compat_l; lra).
  assert (H3 : r ^ 5 * D <= r * (r * r * r * D)).
  { replace (r ^ 5 * D) with (r * (r * (r * r * r * D))) by ring.
    apply Rmult_le_compat_l; [lra|].
    rewrite <- (Rmult_1_l (r * r * r * D)) at 2.
    apply Rmult_le_compat_r; [apply Rmult_le_pos; lra|lra]. }
  nra.
Qed.

Lemma cubic_polygon_error (c : CubicBezier.t float) :
  validCubic c = true ->
  is_finite (approximateDistance c) = true ->
  (1 - eps) ^ 5 * distR (start c) (end_ c) - 3 * tiny <= B2R (approximateDistance c).
Proof.
  unfold validCubic. intros V.
  apply andb_prop in V. destruct V as [V Ve]. apply andb_prop in V. destruct V as [V Vc2].
  apply andb_prop in V. destruct V as [Vs Vc1].
  cbn [approximateDistance start end_ CubicBezier_CurveType].
  unfold CubicBezier.approximateDistance. cbn [fadd arith].
  set (p0 := CubicBezier.start c) in *. set (p1 := CubicBezier.control1 c) in *.
  set (p2 := CubicBezier.control2 c) in *. set (p3 := CubicBezier.end_ c) in *.
  intros F. destruct (add_finite_operands _ _ F) as [F12 F3].
  destruct (add_finite_operands _ _ F12) as [F1 F2].
  destruct (distanceLine_parts _ _ F1) as (V1 & S1 & N1).
  destruct (distanceLine_parts _ _ F2) as (V2 & S2 & N2).
  destruct (distanceLine_parts _ _ F3) as (V3 & S3 & N3).
  pose proof (add_lower _ _ V1 V2 S1 S2 F12) as Hsum12.
  pose proof (add_valid _ _ V1 V2 S1 S2) as V12.
  pose proof (add_sign_clear _ _ S1 S2) as S12.
  pose proof (add_lower _ _ V12 V3 S12 S3 F) as Hsum.
  destruct (distanceLine_error p0 p1 Vs Vc1 F1) as [L1 _].
  destruct (distanceLine_error p1 p2 Vc1 Vc2 F2) as [L2 _].
  destruct (distanceLine_error p2 p3 Vc2 Ve F3) as [L3 _].
  pose proof (distR_triangle p0 p1 p3) as Ht1.
  pose proof (distR_triangle p1 p2 p3) as Ht2.
  pose proof (distR_nonneg p0 p3) as H03.
  pose proof eps_pos as He. pose proof eps_lt_1 as He1. pose proof tiny_pos as Hc.
  set (r := 1 - eps) in *.
  assert (Hr : 0 < r < 1) by (unfold r; lra).
  set (D := distR p0 p3) in *.
  set (d1 := B2R (distanceLine p0 p1)) in *. set (d2 := B2R (distanceLine p1 p2)) in *.
  set (d3 := B2R (distanceLine p2 p3)) in *.
  set (s12 := B2R (add (distanceLine p0 p1) (distanceLine p1 p2))) in *.
  assert (Hr3 : 0 <= r * r * r) by (apply Rmult_le_pos; [apply Rmult_le_pos|]; lra).
  assert (H1 : r * r * r * D - 3 * tiny <= d1 + d2 + d3).
  { assert (r * r * r * D <= r * r * r * (distR p0 p1 + distR p1 p2 + distR p2 p3))
      by (apply Rmult_le_compat_l; lra).
    lra. }
  assert (H2 : r * (d1 + d2 + d3) <= s12 + d3).
  { assert (r * d3 <= d3) by nra. lra. }
  assert (H3 : r * (r * (d1 + d2 + d3)) <= r * (s12 + d3))
    by (apply Rmult_le_compat_l; lra).
  assert (H4 : r * (r * (r * r * r * D - 3 * tiny)) <= r * (r * (d1 + d2 + d3))).
  { apply Rmult_le_compat_l; [lra|]. apply Rmult_le_compat_l; lra. }
  assert (H5 : r * (r * (3 * tiny)) <= 3 * tiny).
  { assert (r * (3 * tiny) <= 3 * tiny) by nra. nra. }
  replace (r ^ 5 * D) with (r * (r * (r * r * r * D))) by ring.
  lra.
Qed.
End PolygonError.

Section LoopChord.
Import Binary32.
Local Open Scope R_scope.
Context {C : Type} {CT : CurveType float C}.
Variable validCurve : C -> bool.
Hypothesis polygon_sign :
  forall c : C, sign_clear (approximateDistance c) || is_nan (approximateDistance c) = true.
Hypothesis polygon_valid :
  forall c : C, valid_binary prec emax (approximateDistance c) = true.
Hypothesis split_valid :
  forall c : C, validCurve c = true ->
                validCurve (fst (split c)) = true /\ validCurve (snd (split c)) = true.
Hypothesis split_chain :
  forall c : C, start (fst (split c)) = start c
                /\ end_ (snd (split c)) = end_ c
                /\ end_ (fst (split c)) = start (snd (split c)).
Hypothesis polygon_error :
  forall c : C, validCurve c = true -> is_finite (approximateDistance c) = true ->
                (1 - eps) ^ 5 * distR (start c) (end_ c) - 3 * tiny
                <= B2R (approximateDistance c).

Lemma le_finite (a b : float) :
  number a = true -> le a b = true -> is_finite b = true -> is_finite a = true.
Proof.
  intros Ha. apply number_parts in Ha. destruct Ha as [_ Sa].
  destruct a as [[|]|[|]| |[|] ma ea]; try discriminate; try reflexivity.
  destruct b as [sb|sb| |sb mb eb]; try discriminate; destruct sb; discriminate.
Qed.

Lemma finite_not_nan (a : float) : is_finite a = true -> is_nan a = false.
Proof. destruct a; try discriminate; reflexivity. Qed.

Lemma number_B2R (a : float) : number a = true -> 0 <= B2R a.
Proof. intros H. apply number_parts in H. apply sign_clear_B2R, H. Qed.

Lemma pow_rho (n : nat) : 0 < (1 - eps) ^ n <= 1.
Proof.
  pose proof eps_pos. pose proof eps_lt_1.
  split; [apply pow_lt; lra|].
  apply Rle_trans with (1 ^ n); [apply pow_incr; lra|rewrite pow1; lra].
Qed.

(** One more flat piece on the running length. *)
Lemma running_lower (total : float) (c : C) :
  number total = true -> validCurve c = true ->
  is_finite (fadd total (approximateDistance c)) = true ->
  (1 - eps) * (B2R total + ((1 - eps) ^ 5 * distR (start c) (end_ c) - 3 * tiny))
  <= B2R (fadd total (approximateDistance c)).
Proof.
  intros Ht Vc F. cbn [fadd arith] in *.
  destruct (add_finite_operands _ _ F) as [Ft Fp].
  pose proof (finite_sign_clear _ Fp (polygon_sign c)) as Sp.
  apply number_parts in Ht. destruct Ht as [Vt St].
  pose proof (add_lower _ _ Vt (polygon_valid c) St Sp F) as H.
  pose proof (polygon_error c Vc Fp) as Hp.
  pose proof eps_pos. pose proof eps_lt_1.
  assert (H2 : (1 - eps) * (B2R total + ((1 - eps) ^ 5 * distR (start c) (end_ c) - 3 * tiny))
               <= (1 - eps) * (B2R total + B2R (approximateDistance c)))
    by (apply Rmult_le_compat_l; lra).
  exact (Rle_trans _ _ _ H2 H).
Qed.

(** In binary32 a length query that returns a finite length returns at
    least the distance from the start of the current piece to the end of
    the last one, up to one rounding per pass and [3 * tiny] per pass. *)
Lemma binary32_loop_chord (n : nat) :
  forall (v : LoopVars (C := C)) r st,
    curveLength_loop n v = Some (r, st) ->
    isPointOrAngle (m_action (v_state v)) = false ->
    v_stack v <> [] ->
    chained (v_curve v) (v_stack v) ->
    validCurve (v_curve v) = true ->
    Forall (fun c => validCurve c = true) (v_stack v) ->
    number (v_total v) = true ->
    is_finite r = true ->
    (1 - eps) ^ n
    * (B2R (v_total v)
       + (1 - eps) ^ 5 * distR (start (v_curve v))
                               (end_ (lastPiece (v_curve v) (v_stack v))))
    - INR n * (3 * tiny)
    <= B2R r.
Proof.
  pose proof eps_pos as He. pose proof eps_lt_1 as He1. pose proof tiny_pos as Hc.
  induction n as [|n IH]; intros v r st H Ha Hne Hch Vc Vs Ht Fr; [discriminate|].
  destruct v as [state curve stack total]. cbn [v_state v_curve v_stack v_total] in *.
  rewrite curveLength_loop_S in H.
  pose proof (pow_rho n) as Hrn. pose proof (pow_rho 5) as Hr5.
  pose proof (number_B2R _ Ht) as HT0.
  pose proof (pos_INR n) as Hn0.
  destruct (needsSplit curve) eqn:Hs.
  - rewrite body_split in H by exact Hs. cbn [v_state v_curve v_stack v_total] in H.
    destruct (split_chain curve) as (Hst & Hen & Hmid).
    destruct (split_valid curve Vc) as [Vl Vr].
    assert (IHn := IH _ r st H Ha (@cons_not_nil _ _ _)).
    cbn [v_state v_curve v_stack v_total] in IHn.
    assert (Hch' : chained (fst (split curve)) (snd (split curve) :: stack)).
    { destruct stack as [|c0 rest]; [contradiction|]. cbn [chained]. split; [exact Hmid|].
      destruct rest as [|c1 rest']; [exact I|]. cbn [chained] in Hch |- *.
      destruct Hch as [Hc0 Hrest]. split; [rewrite Hen; exact Hc0|exact Hrest]. }
    specialize (IHn Hch' Vl (Forall_cons _ Vr Vs) Ht Fr).
    rewrite (lastPiece_after_split _ _ curve stack Hne Hen), Hst in IHn.
    set (X := B2R total + (1 - eps) ^ 5 * distR (start curve) (end_ (lastPiece curve stack))) in *.
    assert (HX : 0 <= X).
    { unfold X. pose proof (distR_nonneg (start curve) (end_ (lastPiece curve stack))). nra. }
    rewrite S_INR. cbn [pow].
    assert ((1 - eps) * ((1 - eps) ^ n * X) <= (1 - eps) ^ n * X).
    { rewrite <- (Rmult_1_l ((1 - eps) ^ n * X)) at 2.
      apply Rmult_le_compat_r; [apply Rmult_le_pos; lra|lra]. }
    nra.
  - rewrite body_flat_total in H by assumption.
    cbn [v_state v_curve v_stack v_total] in H.
    destruct stack as [|top rest]; [contradiction|].
    set (running := fadd total (approximateDistance curve)) in *.
    destruct rest as [|c1 rest'].
    + cbn [v_stack v_total v_state] in H. inversion H; subst r st. clear H.
      cbn [lastPiece].
      pose proof (running_lower total curve Ht Vc Fr) as Hrun. fold running in Hrun.
      set (D := distR (start curve) (end_ curve)) in *.
      assert (HD : 0 <= D) by apply distR_nonneg.
      set (X := B2R total + (1 - eps) ^ 5 * D) in *.
      assert (HX : 0 <= X) by (unfold X; nra).
      rewrite S_INR. cbn [pow].
      assert ((1 - eps) * ((1 - eps) ^ n * X) <= (1 - eps) * X).
      { apply Rmult_le_compat_l; [lra|].
        rewrite <- (Rmult_1_l X) at 2. apply Rmult_le_compat_r; lra. }
      assert ((1 - eps) * (3 * tiny) <= 3 * tiny) by nra.
      assert (0 <= INR n * (3 * tiny)) by (apply Rmult_le_pos; lra).
      unfold X in *. nra.
    + cbn [v_stack] in H.
      assert (Hnan : is_nan running = false).
      { destruct (is_nan running) eqn:E; [|reflexivity].
        pose proof (loop_nan n _ r st H E) as Hr. 
        rewrite (finite_not_nan _ Fr) in Hr. discriminate. }
      destruct (running_number polygon_sign polygon_valid total curve Ht Hnan) as [Hnum _].
      destruct (binary32_loop_grows polygon_sign polygon_valid n _ r st H Hnum
                                    (finite_not_nan _ Fr)) as [_ Hle].
      cbn [v_total] in Hle.
      pose proof (le_finite _ _ Hnum Hle Fr) as Frun.
      pose proof (running_lower total curve Ht Vc Frun) as Hrun. fold running in Hrun.
      cbn [chained] in Hch. destruct Hch as [Hjoin Hch].
      inversion Vs as [|? ? Vtop Vrest]; subst.
      assert (IHn := IH _ r st H Ha (@cons_not_nil _ _ _)).
      cbn [v_state v_curve v_stack v_total] in IHn.
      specialize (IHn Hch Vtop Vrest Hnum Fr).
      change (lastPiece curve (top :: c1 :: rest')) with (lastPiece top (c1 :: rest')).
      set (last := end_ (lastPiece top (c1 :: rest'))) in *.
      pose proof (distR_triangle (start curve) (end_ curve) last) as Htri.
      rewrite Hjoin in Htri at 2.
      set (D := distR (start curve) last) in *.
      set (D1 := distR (start curve) (end_ curve)) in *.
      set (D2 := distR (start top) last) in *.
      assert (HD : 0 <= D) by apply distR_nonneg.
      assert (HD1 : 0 <= D1) by apply distR_nonneg.
      assert (HD2 : 0 <= D2) by apply distR_nonneg.
      set (r5 := (1 - eps) ^ 5) in *. set (rn := (1 - eps) ^ n) in *.
      set (T := B2R total) in *. set (T' := B2R running) in *.
      rewrite S_INR. cbn [pow]. fold rn.
      (* T' >= rho (T + r5 D1 - 3 tiny); r >= rn (T' + r5 D2) - n 3 tiny *)
      assert (H1 : rn * ((1 - eps) * (T + (r5 * D1 - 3 * tiny)) + r5 * D2)
                   <= rn * (T' + r5 * D2))
        by (apply Rmult_le_compat_l; lra).
      assert (H2 : (1 - eps) * (r5 * D2) <= r5 * D2).
      { rewrite <- (Rmult_1_l (r5 * D2)) at 2.
        apply Rmult_le_compat_r; [apply Rmult_le_pos; lra|lra]. }
      assert (H3 : rn * ((1 - eps) * (T + r5 * (D1 + D2)) - (1 - eps) * (3 * tiny))
                   <= rn * ((1 - eps) * (T + (r5 * D1 - 3 * tiny)) + r5 * D2))
        by (apply Rmult_le_compat_l; lra).
      assert (H4 : rn * ((1 - eps) * (T + r5 * D))
                   <= rn * ((1 - eps) * (T + r5 * (D1 + D2)))).
      { apply Rmult_le_compat_l; [lra|]. apply Rmult_le_compat_l; [lra|].
        assert (r5 * D <= r5 * (D1 + D2)) by (apply Rmult_le_compat_l; lra). lra. }
      assert (H5 : rn * ((1 - eps) * (3 * tiny)) <= 3 * tiny).
      { assert ((1 - eps) * (3 * tiny) <= 3 * tiny) by nra.
        assert (rn * ((1 - eps) * (3 * tiny)) <= 1 * ((1 - eps) * (3 * tiny))).
        { apply Rmult_le_compat_r; [apply Rmult_le_pos; lra|lra]. }
        lra. }
      replace ((1 - eps) * rn * (T + r5 * D)) with (rn * ((1 - eps) * (T + r5 * D))) by ring.
      lra.
Qed.
End LoopChord.

Section CurveChord.
Import Binary32.
Local Open Scope R_scope.
Context {C : Type} {CT : CurveType float C}.
Variable validCurve : C -> bool.
Hypothesis polygon_sign :
  forall c : C, sign_clear (approximateDistance c) || is_nan (approximateDistance c) = true.
Hypothesis polygon_valid :
  forall c : C, valid_binary prec emax (approximateDistance c) = true.
Hypothesis split_valid :
  forall c : C, validCurve c = true ->
                validCurve (fst (split c)) = true /\ validCurve (snd (split c)) = true.
Hypothesis split_chain :
  forall c : C, start (fst (split c)) = start c
                /\ end_ (snd (split c)) = end_ c
                /\ end_ (fst (split c)) = start (snd (split c)).
Hypothesis polygon_error :
  forall c : C, validCurve c = true -> is_finite (approximateDistance c) = true ->
                (1 - eps) ^ 5 * distR (start c) (end_ c) - 3 * tiny
                <= B2R (approximateDistance c).
Hypothesis ends_valid :
  forall c : C, validCurve c = true ->
                validPoint (start c) = true /\ validPoint (end_ c) = true.

Lemma binary32_curve_chord (n : nat) (t : PathTraversalState float) (c : C) r t' :
  isPointOrAngle (m_action t) = false ->
  validCurve c = true ->
  curveLength n t c = Some (r, t') ->
  is_finite r = true ->
  (1 - eps) ^ (n + 5) * distR (start c) (end_ c) - INR n * (3 * tiny) <= B2R r
  /\ (is_finite (distanceLine (start c) (end_ c)) = true ->
      (1 - eps) ^ (n + 5) * B2R (distanceLine (start c) (end_ c))
      <= (1 + eps) ^ 3 * (B2R r + INR n * (3 * tiny)) + 2 * tiny).
Proof.
  intros Ha Vc H Fr. unfold curveLength in H.
  pose proof (binary32_loop_chord validCurve polygon_sign polygon_valid split_valid
                split_chain polygon_error n _ r t' H Ha (@cons_not_nil _ _ _) I Vc
                (Forall_cons _ Vc (Forall_nil _)) eq_refl Fr) as Hb.
  cbn [v_total v_curve v_stack lastPiece B2R f0 arith zero] in Hb.
  rewrite Rplus_0_l, <- Rmult_assoc, <- pow_add in Hb.
  split; [exact Hb|].
  intros Fd.
  destruct (ends_valid c Vc) as [Vs Ve].
  destruct (distanceLine_error _ _ Vs Ve Fd) as [_ Hu].
  pose proof (pow_rho (n + 5)) as Hr.
  pose proof eps_pos as He. pose proof tiny_pos as Ht.
  set (D := distR (start c) (end_ c)) in *.
  set (d := B2R (distanceLine (start c) (end_ c))) in *.
  set (rn := (1 - eps) ^ (n + 5)) in *.
  assert (HD : 0 <= D) by apply distR_nonneg.
  assert (Hu3 : 0 <= (1 + eps) ^ 3) by (apply pow_le; lra).
  replace ((1 + eps) * (1 + eps) * (1 + eps)) with ((1 + eps) ^ 3) in Hu by ring.
  assert (H1 : rn * d <= rn * ((1 + eps) ^ 3 * D + 2 * tiny))
    by (apply Rmult_le_compat_l; lra).
  assert (H2 : (1 + eps) ^ 3 * (rn * D) <= (1 + eps) ^ 3 * (B2R r + INR n * (3 * tiny)))
    by (apply Rmult_le_compat_l; lra).
  assert (H3 : rn * (2 * tiny) <= 2 * tiny).
  { rewrite <- (Rmult_1_l (2 * tiny)) at 2. apply Rmult_le_compat_r; lra. }
  replace (rn * ((1 + eps) ^ 3 * D + 2 * tiny))
    with ((1 + eps) ^ 3 * (rn * D) + rn * (2 * tiny)) in H1 by ring.
  lra.
Qed.
End CurveChord.

Section KindsChord.
Import Binary32.

Lemma quadratic_ends_valid (c : QuadraticBezier.t float) :
  validQuadratic c = true ->
  validPoint (start c) = true /\ validPoint (end_ c) = true.
Proof.
  unfold validQuadratic. intros V.
  apply andb_prop in V. destruct V as [V Ve]. apply andb_prop in V. destruct V as [Vs Vc].
  split; assumption.
Qed.

Lemma cubic_ends_valid (c : CubicBezier.t float) :
  validCubic c = true ->
  validPoint (start c) = true /\ validPoint (end_ c) = true.
Proof.
  unfold validCubic. intros V.
  apply andb_prop in V. destruct V as [V Ve]. apply andb_prop in V. destruct V as [V Vc2].
  apply andb_prop in V. destruct V as [Vs Vc1].
  split; assumption.
Qed.
End KindsChord.

(** ** The chord bound, as a theorem *)

(** C9, in binary32.  For a length query on a single quadratic or cubic
    curve whose coordinates are valid binary32 values ([valid_binary]: the
    mantissa and exponent are those of a binary32 number, as for every
    value the hardware holds): whenever [curveLength] returns a finite
    length [r] within [n] passes of its loop, [r] is at least the Euclidean
    distance [distR] between the start and the end of the curve, less the
    rounding of the sum, one part in [2^23] per pass and five for a
    control polygon, and less [3 * 2^-74] per pass for squares that
    underflow.  The distance that the code itself computes for the two
    points, [distanceLine], lies within three roundings and [2^-73] of
    [distR]; so [r], put up by these roundings, is at least the computed
    chord put down by them. *)
Theorem binary32_length_at_least_chord_up_to_rounding :
  (forall (n : nat) (t : PathTraversalState Binary32.float)
          (c : QuadraticBezier.t Binary32.float) r t',
      isPointOrAngle (m_action t) = false ->
      validQuadratic c = true ->
      curveLength n t c = Some (r, t') ->
      Binary32.is_finite r = true ->
      ((1 - eps) ^ (n + 5) * distR (start c) (end_ c) - INR n * (3 * tiny) <= B2R r)%R
      /\ (Binary32.is_finite (distanceLine (start c) (end_ c)) = true ->
          ((1 - eps) ^ (n + 5) * B2R (distanceLine (start c) (end_ c))
           <= (1 + eps) ^ 3 * (B2R r + INR n * (3 * tiny)) + 2 * tiny)%R))
  /\ (forall (n : nat) (t : PathTraversalState Binary32.float)
             (c : CubicBezier.t Binary32.float) r t',
         isPointOrAngle (m_action t) = false ->
         validCubic c = true ->
         curveLength n t c = Some (r, t') ->
         Binary32.is_finite r = true ->
         ((1 - eps) ^ (n + 5) * distR (start c) (end_ c) - INR n * (3 * tiny) <= B2R r)%R
         /\ (Binary32.is_finite (distanceLine (start c) (end_ c)) = true ->
             ((1 - eps) ^ (n + 5) * B2R (distanceLine (start c) (end_ c))
              <= (1 + eps) ^ 3 * (B2R r + INR n * (3 * tiny)) + 2 * tiny)%R))
  /\ (forall a b : FloatPoint Binary32.float,
         validPoint a = true -> validPoint b = true ->
         Binary32.is_finite (distanceLine a b) = true ->
         ((1 - eps) ^ 3 * distR a b - tiny <= B2R (distanceLine a b)
          <= (1 + eps) ^ 3 * distR a b + 2 * tiny)%R).
Proof.
  split; [|split].
  - intros n t c r t'.
    apply (binary32_curve_chord validQuadratic quadratic_polygon_sign quadratic_polygon_valid
             quadratic_split_valid quadratic_split_chain quadratic_polygon_error
             quadratic_ends_valid).
  - intros n t c r t'.
    apply (binary32_curve_chord validCubic cubic_polygon_sign cubic_polygon_valid
             cubic_split_valid cubic_split_chain cubic_polygon_error
             cubic_ends_valid).
  - intros a b Va Vb F. destruct (distanceLine_error a b Va Vb F) as [L U].
    split.
    + replace ((1 - eps) ^ 3)%R with ((1 - eps) * (1 - eps) * (1 - eps))%R by ring. exact L.
    + replace ((1 + eps) ^ 3)%R with ((1 + eps) * (1 + eps) * (1 + eps))%R by ring. exact U.
Qed.

Lemma binary32_length_at_least_chord_up_to_rounding_witness :
  exists r t',
    curveLength 5 Sample.lengthQuery Sample.hairpin = Some (r, t')
    /\ Binary32.is_finite r = true
    /\ ((1 - eps) ^ (5 + 5) * distR (start Sample.hairpin) (end_ Sample.hairpin)
        - INR 5 * (3 * tiny) <= B2R r)%R.
Proof.
  destruct (curveLength 5 Sample.lengthQuery Sample.hairpin) as [[r t']|] eqn:E;
    [|vm_compute in E; discriminate E].
  assert (F : Binary32.is_finite r = true)
    by (vm_compute in E; inversion E; reflexivity).
  exists r, t'. split; [reflexivity|]. split; [exact F|].
  destruct binary32_length_at_least_chord_up_to_rounding as [H _].
  exact (proj1 (H 5%nat Sample.lengthQuery Sample.hairpin r t' eq_refl eq_refl E F)).
Defined.
(** * Properties of the SCH timing registers *)

Section SchTiming.
Import PataSch.
Local Open Scope Z_scope.

Lemma u32_range (z : Z) : 0 <= u32 z < 2 ^ 32.
Proof. unfold u32. apply Z.mod_pos_bound. reflexivity. Qed.

Lemma u32_small (z : Z) : 0 <= z < 2 ^ 32 -> u32 z = z.
Proof. intros H. unfold u32. apply Z.mod_small. exact H. Qed.

Lemma u32_bits (z i : Z) : 0 <= i -> Z.testbit (u32 z) i = (i <? 32) && Z.testbit z i.
Proof. intros Hi. unfold u32. apply Z.testbit_mod_pow2. lia. Qed.

Lemma small_bits (p k i : Z) : 0 <= p < 2 ^ k -> 0 <= k <= i -> Z.testbit p i = false.
Proof.
  intros Hp Hk. rewrite <- (Z.mod_small p (2 ^ k)) by exact Hp.
  apply Z.mod_pow2_bits_high. lia.
Qed.

Lemma bits_range (v : Z) :
  (forall i, 32 <= i -> Z.testbit v i = false) -> 0 <= v < 2 ^ 32.
Proof.
  intros H.
  assert (Hv : v = u32 v).
  { apply Z.bits_inj'. intros i Hi. rewrite u32_bits by exact Hi.
    destruct (Z.ltb_spec i 32) as [Hl|Hl]; [reflexivity|].
    rewrite H by lia. reflexivity. }
  rewrite Hv. apply u32_range.
Qed.

Lemma PM_bits (i : Z) : 0 <= i -> Z.testbit PM i = (i <? 3).
Proof.
  intros Hi. change PM with (Z.ones 3).
  destruct (Z.ltb_spec i 3).
  - apply Z.ones_spec_low. lia.
  - apply Z.ones_spec_high. lia.
Qed.

Lemma PPE_bits (i : Z) : 0 <= i -> Z.testbit PPE i = (i =? 30).
Proof.
  intros Hi. change PPE with (2 ^ 30).
  rewrite Z.pow2_bits_eqb by lia. apply Z.eqb_sym.
Qed.

Lemma USD_bits (i : Z) : 0 <= i -> Z.testbit USD i = (31 <=? i).
Proof.
  intros Hi. change USD with (Z.lnot (Z.ones 31)).
  rewrite Z.lnot_spec by exact Hi.
  destruct (Z.leb_spec 31 i).
  - rewrite Z.ones_spec_high by lia. reflexivity.
  - rewrite Z.ones_spec_low by lia. reflexivity.
Qed.

Lemma MDM_bits (i : Z) : 0 <= i -> Z.testbit MDM i = (8 <=? i) && (i <? 10).
Proof.
  intros Hi. change MDM with (Z.shiftl (Z.ones 2) 8).
  rewrite Z.shiftl_spec by exact Hi.
  destruct (Z.leb_spec 8 i), (Z.ltb_spec i 10); cbn [andb].
  - apply Z.ones_spec_low. lia.
  - apply Z.ones_spec_high. lia.
  - apply Z.testbit_neg_r. lia.
  - apply Z.testbit_neg_r. lia.
Qed.

Lemma UDM_bits (i : Z) : 0 <= i -> Z.testbit UDM i = (16 <=? i) && (i <? 19).
Proof.
  intros Hi. change UDM with (Z.shiftl (Z.ones 3) 16).
  rewrite Z.shiftl_spec by exact Hi.
  destruct (Z.leb_spec 16 i), (Z.ltb_spec i 19); cbn [andb].
  - apply Z.ones_spec_low. lia.
  - apply Z.ones_spec_high. lia.
  - apply Z.testbit_neg_r. lia.
  - apply Z.testbit_neg_r. lia.
Qed.

(** A field value shifted into place: bits below the field and above it
    are clear. *)
Lemma field_bits (m k w i : Z) :
  0 <= m < 2 ^ w -> 0 <= k -> 0 <= w -> 0 <= i ->
  Z.testbit (Z.shiftl m k) i = (k <=? i) && (i <? k + w) && Z.testbit m (i - k).
Proof.
  intros Hm Hk Hw Hi. rewrite Z.shiftl_spec by exact Hi.
  destruct (Z.leb_spec k i), (Z.ltb_spec i (k + w)); cbn [andb]; try reflexivity.
  - apply (small_bits m w); [exact Hm|lia].
  - apply Z.testbit_neg_r. lia.
  - apply Z.testbit_neg_r. lia.
Qed.


Section DriverFacts.
Context {K : AtaConstants} {pci_dev : Type} {P : PciConfig pci_dev}.

Lemma sch_set_piomode_writes (dev : pci_dev) (adev : ata_device) :
  sch_set_piomode dev adev
  = pci_write_config_dword dev (timing_port adev)
      (piomode_data adev (u32 (pci_read_config_dword dev (timing_port adev)))).
Proof. reflexivity. Qed.

Lemma sch_set_dmamode_writes (dev : pci_dev) (adev : ata_device) :
  sch_set_dmamode dev adev
  = pci_write_config_dword dev (timing_port adev)
      (dmamode_data adev (u32 (pci_read_config_dword dev (timing_port adev)))).
Proof.
  unfold sch_set_dmamode, dmamode_data, timing_port.
  destruct (_ <=? _); reflexivity.
Qed.

Lemma timing_port_register (adev : ata_device) : timing_register (timing_port adev).
Proof. unfold timing_port, timing_register. destruct (_ =? _); auto. Qed.

Lemma piomode_data_bits (adev : ata_device) (d i : Z) :
  0 <= d < 2 ^ 32 -> 0 <= pio_mode adev - XFER_PIO_0 <= 7 -> 0 <= i ->
  Z.testbit (piomode_data adev d) i
  = if i <? 3 then Z.testbit (pio_mode adev - XFER_PIO_0) i
    else if i =? 30 then class adev =? ATA_DEV_ATA
    else Z.testbit d i.
Proof.
  intros Hd Hm Hi. unfold piomode_data.
  rewrite (u32_small (pio_mode adev - XFER_PIO_0)) by lia.
  set (m := pio_mode adev - XFER_PIO_0) in *.
  assert (Hmi : 3 <= i -> Z.testbit m i = false)
    by (intros; apply (small_bits m 3); lia).
  assert (Hdi : 32 <= i -> Z.testbit d i = false)
    by (intros; apply (small_bits d 32); lia).
  destruct (class adev =? ATA_DEV_ATA);
    repeat first
      [ rewrite Z.land_spec | rewrite Z.lor_spec
      | rewrite u32_bits by lia | rewrite Z.lnot_spec by lia
      | rewrite PM_bits by lia | rewrite PPE_bits by lia ];
    destruct (Z.ltb_spec i 3), (Z.eqb_spec i 30), (Z.ltb_spec i 32); try lia;
    try rewrite Hmi by lia; try rewrite Hdi by lia;
    cbn [andb orb negb];
    repeat rewrite Bool.andb_true_r; repeat rewrite Bool.andb_false_r;
    repeat rewrite Bool.orb_true_r; repeat rewrite Bool.orb_false_r;
    reflexivity.
Qed.

Lemma piomode_data_range (adev : ata_device) (d : Z) :
  0 <= d < 2 ^ 32 -> 0 <= piomode_data adev d < 2 ^ 32.
Proof.
  intros Hd. apply bits_range. intros i Hi. unfold piomode_data.
  assert (Hdi : Z.testbit d i = false) by (apply (small_bits d 32); lia).
  destruct (class adev =? ATA_DEV_ATA);
    repeat first [ rewrite Z.land_spec | rewrite Z.lor_spec | rewrite u32_bits by lia ];
    rewrite Hdi; destruct (Z.ltb_spec i 32); try lia; reflexivity.
Qed.

Lemma dmamode_data_range (adev : ata_device) (d : Z) :
  0 <= d < 2 ^ 32 -> 0 <= dmamode_data adev d < 2 ^ 32.
Proof.
  intros Hd. apply bits_range. intros i Hi. unfold dmamode_data.
  assert (Hdi : Z.testbit d i = false) by (apply (small_bits d 32); lia).
  destruct (_ <=? _);
    repeat first [ rewrite Z.land_spec | rewrite Z.lor_spec | rewrite u32_bits by lia ];
    rewrite Hdi; destruct (Z.ltb_spec i 32); try lia; reflexivity.
Qed.

Lemma dmamode_data_udma_bits (adev : ata_device) (d i : Z) :
  0 <= d < 2 ^ 32 -> 0 <= XFER_UDMA_0 ->
  XFER_UDMA_0 <= dma_mode adev <= XFER_UDMA_0 + 7 -> dma_mode adev < 2 ^ 32 ->
  0 <= i ->
  Z.testbit (dmamode_data adev d) i
  = if i =? 31 then true
    else if (16 <=? i) && (i <? 19) then Z.testbit (dma_mode adev - XFER_UDMA_0) (i - 16)
    else Z.testbit d i.
Proof.
  intros Hd Hx Hm Hlt Hi. unfold dmamode_data.
  rewrite (u32_small (dma_mode adev)) by lia.
  rewrite (u32_small XFER_UDMA_0) by lia.
  destruct (Z.leb_spec XFER_UDMA_0 (dma_mode adev)) as [_|]; [|lia].
  rewrite (u32_small (dma_mode adev - XFER_UDMA_0)) by lia.
  set (m := dma_mode adev - XFER_UDMA_0) in *.
  assert (Hdi : 32 <= i -> Z.testbit d i = false)
    by (intros; apply (small_bits d 32); lia).
  repeat first
    [ rewrite Z.land_spec | rewrite Z.lor_spec
    | rewrite u32_bits by lia | rewrite Z.lnot_spec by lia
    | rewrite USD_bits by lia | rewrite UDM_bits by lia ].
  rewrite (field_bits m 16 3 i) by lia. change (16 + 3) with 19.
  destruct (Z.eqb_spec i 31), (Z.ltb_spec i 32), (Z.leb_spec 31 i),
           (Z.leb_spec 16 i), (Z.ltb_spec i 19); try lia;
    try rewrite Hdi by lia; cbn [andb orb negb];
    repeat rewrite Bool.andb_true_r; repeat rewrite Bool.andb_false_r;
    repeat rewrite Bool.orb_true_r; repeat rewrite Bool.orb_false_r;
    reflexivity.
Qed.

Lemma dmamode_data_mwdma_bits (adev : ata_device) (d i : Z) :
  0 <= d < 2 ^ 32 -> 0 <= XFER_MW_DMA_0 -> XFER_UDMA_0 < 2 ^ 32 ->
  XFER_MW_DMA_0 <= dma_mode adev <= XFER_MW_DMA_0 + 3 ->
  dma_mode adev < XFER_UDMA_0 ->
  0 <= i ->
  Z.testbit (dmamode_data adev d) i
  = if i =? 31 then false
    else if (8 <=? i) && (i <? 10) then Z.testbit (dma_mode adev - XFER_MW_DMA_0) (i - 8)
    else Z.testbit d i.
Proof.
  intros Hd Hx Hu Hm Hlt Hi. unfold dmamode_data.
  rewrite (u32_small (dma_mode adev)) by lia.
  rewrite (u32_small XFER_UDMA_0) by lia.
  destruct (Z.leb_spec XFER_UDMA_0 (dma_mode adev)) as [|_]; [lia|].
  rewrite (u32_small (dma_mode adev - XFER_MW_DMA_0)) by lia.
  set (m := dma_mode adev - XFER_MW_DMA_0) in *.
  assert (Hdi : 32 <= i -> Z.testbit d i = false)
    by (intros; apply (small_bits d 32); lia).
  repeat first
    [ rewrite Z.land_spec | rewrite Z.lor_spec
    | rewrite u32_bits by lia | rewrite Z.lnot_spec by lia
    | rewrite USD_bits by lia | rewrite MDM_bits by lia ].
  rewrite (field_bits m 8 2 i) by lia. change (8 + 2) with 10.
  destruct (Z.eqb_spec i 31), (Z.ltb_spec i 32), (Z.leb_spec 31 i),
           (Z.leb_spec 8 i), (Z.ltb_spec i 10); try lia;
    try rewrite Hdi by lia; cbn [andb orb negb];
    repeat rewrite Bool.andb_true_r; repeat rewrite Bool.andb_false_r;
    repeat rewrite Bool.orb_true_r; repeat rewrite Bool.orb_false_r;
    reflexivity.
Qed.

(** Writing the same mode again changes nothing, in range or not. *)
Lemma piomode_data_idempotent (adev : ata_device) (d : Z) :
  piomode_data adev (piomode_data adev d) = piomode_data adev d.
Proof.
  unfold piomode_data. apply Z.bits_inj'. intros i Hi.
  destruct (class adev =? ATA_DEV_ATA);
    repeat first
      [ rewrite Z.land_spec | rewrite Z.lor_spec
      | rewrite u32_bits by lia | rewrite Z.lnot_spec by lia ];
    btauto.
Qed.

Lemma dmamode_data_idempotent (adev : ata_device) (d : Z) :
  dmamode_data adev (dmamode_data adev d) = dmamode_data adev d.
Proof.
  unfold dmamode_data. apply Z.bits_inj'. intros i Hi.
  destruct (_ <=? _);
    repeat first
      [ rewrite Z.land_spec | rewrite Z.lor_spec
      | rewrite u32_bits by lia | rewrite Z.lnot_spec by lia
      | rewrite USD_bits by lia | rewrite UDM_bits by lia | rewrite MDM_bits by lia ];
    destruct (Z.ltb_spec i 32), (Z.leb_spec 31 i),
             (Z.leb_spec 16 i), (Z.ltb_spec i 19),
             (Z.leb_spec 8 i), (Z.ltb_spec i 10); try lia;
    btauto.
Qed.

(** Programming PIO timings and programming DMA timings touch different
    bits of the register. *)
Lemma piomode_dmamode_data_commute (a b : ata_device) (d : Z) :
  0 <= d < 2 ^ 32 ->
  0 <= XFER_MW_DMA_0 -> 0 <= XFER_UDMA_0 -> XFER_UDMA_0 + 7 < 2 ^ 32 ->
  0 <= pio_mode a - XFER_PIO_0 <= 7 ->
  XFER_UDMA_0 <= dma_mode b <= XFER_UDMA_0 + 7
  \/ XFER_MW_DMA_0 <= dma_mode b <= XFER_MW_DMA_0 + 3 /\ dma_mode b < XFER_UDMA_0 ->
  dmamode_data b (piomode_data a d) = piomode_data a (dmamode_data b d).
Proof.
  intros Hd Hmw Hud Hlt Hpio Hdma.
  pose proof (piomode_data_range a d Hd) as Hp.
  pose proof (dmamode_data_range b d Hd) as Hq.
  apply Z.bits_inj'. intros i Hi.
  rewrite (piomode_data_bits a (dmamode_data b d) i Hq Hpio Hi).
  destruct Hdma as [Hu | [Hm Hlow]].
  - rewrite (dmamode_data_udma_bits b (piomode_data a d) i) by lia.
    rewrite (dmamode_data_udma_bits b d i) by lia.
    rewrite (piomode_data_bits a d i Hd Hpio Hi).
    destruct (Z.eqb_spec i 31), (Z.ltb_spec i 3), (Z.eqb_spec i 30),
             (Z.leb_spec 16 i), (Z.ltb_spec i 19); try lia; reflexivity.
  - rewrite (dmamode_data_mwdma_bits b (piomode_data a d) i) by lia.
    rewrite (dmamode_data_mwdma_bits b d i) by lia.
    rewrite (piomode_data_bits a d i Hd Hpio Hi).
    destruct (Z.eqb_spec i 31), (Z.ltb_spec i 3), (Z.eqb_spec i 30),
             (Z.leb_spec 8 i), (Z.ltb_spec i 10); try lia; reflexivity.
Qed.

End DriverFacts.

Lemma timing_laws : TimingRegisterLaws (P := timing_config).
Proof.
  split.
  - intros dev port data [-> | ->] _; reflexivity.
  - intros dev port port' data [-> | ->] [-> | ->] Hne;
      try reflexivity; contradiction.
  - intros dev port data data' [-> | ->]; reflexivity.
  - intros dev port port' data data' [-> | ->] [-> | ->] Hne;
      try reflexivity; contradiction.
Qed.

(** X11.  [sch_set_piomode] with a PIO mode in range, that is with
    [pio_mode - XFER_PIO_0] between 0 and 7, writes once, to the timing
    register of the device ([D1TIM] if [devno] is not zero, [D0TIM]
    otherwise), a 32-bit value whose PM field is [pio_mode - XFER_PIO_0],
    whose PPE bit is set exactly when the device's class is [ATA_DEV_ATA],
    and whose other bits, the DMA fields among them, are those read. *)
Theorem sch_set_piomode_programs_pio_field
        {K : AtaConstants} {pci_dev : Type} {P : PciConfig pci_dev}
        (dev : pci_dev) (adev : ata_device) :
  0 <= pio_mode adev - XFER_PIO_0 <= 7 ->
  let port := if devno adev =? 0 then D0TIM else D1TIM in
  let d := u32 (pci_read_config_dword dev port) in
  exists v : Z,
    sch_set_piomode dev adev = pci_write_config_dword dev port v
    /\ 0 <= v < 2 ^ 32
    /\ Z.land v PM = pio_mode adev - XFER_PIO_0
    /\ Z.testbit v 30 = (class adev =? ATA_DEV_ATA)
    /\ (forall i : Z, 3 <= i -> i <> 30 -> Z.testbit v i = Z.testbit d i).
Proof.
  intros Hm port d.
  assert (Hd : 0 <= d < 2 ^ 32) by apply u32_range.
  exists (piomode_data adev d). split; [reflexivity|].
  split; [apply piomode_data_range; exact Hd|].
  split; [|split].
  - apply Z.bits_inj'. intros i Hi.
    rewrite Z.land_spec, PM_bits, (piomode_data_bits adev d i Hd Hm Hi) by exact Hi.
    destruct (Z.ltb_spec i 3).
    + apply Bool.andb_true_r.
    + rewrite Bool.andb_false_r. symmetry.
      apply (small_bits _ 3); lia.
  - rewrite (piomode_data_bits adev d 30 Hd Hm) by lia. reflexivity.
  - intros i Hi Hne. rewrite (piomode_data_bits adev d i Hd Hm) by lia.
    destruct (Z.ltb_spec i 3), (Z.eqb_spec i 30); try lia. reflexivity.
Qed.

Lemma sch_set_piomode_programs_pio_field_witness :
  0 <= pio_mode sample_device - XFER_PIO_0 (AtaConstants := sample_constants) <= 7
  /\ exists v : Z,
       sch_set_piomode (K := sample_constants) sample_timing sample_device
       = pci_write_config_dword sample_timing D1TIM v
       /\ Z.land v PM = 4.
Proof.
  split; [vm_compute; split; discriminate|].
  destruct (sch_set_piomode_programs_pio_field
              (K := sample_constants) sample_timing sample_device)
    as (v & Hw & _ & Hpm & _).
  - vm_compute; split; discriminate.
  - exists v. split; [exact Hw | exact Hpm].
Defined.

(** X12.  [sch_set_dmamode] with an Ultra DMA mode, that is with
    [dma_mode] from [XFER_UDMA_0] to [XFER_UDMA_0 + 7], writes to the
    device's timing register a 32-bit value with USD set and the UDM field
    equal to [dma_mode - XFER_UDMA_0]; every other bit, the multi-word
    DMA field included, is as it was read. *)
Theorem sch_set_dmamode_programs_udma_field
        {K : AtaConstants} {pci_dev : Type} {P : PciConfig pci_dev}
        (dev : pci_dev) (adev : ata_device) :
  0 <= XFER_UDMA_0 -> XFER_UDMA_0 + 7 < 2 ^ 32 ->
  XFER_UDMA_0 <= dma_mode adev <= XFER_UDMA_0 + 7 ->
  let port := if devno adev =? 0 then D0TIM else D1TIM in
  let d := u32 (pci_read_config_dword dev port) in
  exists v : Z,
    sch_set_dmamode dev adev = pci_write_config_dword dev port v
    /\ 0 <= v < 2 ^ 32
    /\ Z.testbit v 31 = true
    /\ Z.land (Z.shiftr v 16) 0x07 = dma_mode adev - XFER_UDMA_0
    /\ (forall i : Z, 0 <= i -> i <> 31 -> ~ 16 <= i < 19 ->
        Z.testbit v i = Z.testbit d i).
Proof.
  intros Hx Hlt Hm port d.
  assert (Hd : 0 <= d < 2 ^ 32) by apply u32_range.
  exists (dmamode_data adev d). split; [apply sch_set_dmamode_writes|].
  split; [apply dmamode_data_range; exact Hd|].
  split; [|split].
  - rewrite (dmamode_data_udma_bits adev d 31) by lia. reflexivity.
  - apply Z.bits_inj'. intros i Hi.
    rewrite Z.land_spec, Z.shiftr_spec by exact Hi.
    rewrite (dmamode_data_udma_bits adev d (i + 16)) by lia.
    change 7 with (Z.ones 3).
    replace (i + 16 - 16) with i by lia.
    destruct (Z.ltb_spec i 3).
    + rewrite Z.ones_spec_low by lia.
      destruct (Z.eqb_spec (i + 16) 31), (Z.leb_spec 16 (i + 16)),
               (Z.ltb_spec (i + 16) 19); try lia.
      apply Bool.andb_true_r.
    + rewrite Z.ones_spec_high, Bool.andb_false_r by lia.
      symmetry. apply (small_bits _ 3); lia.
  - intros i Hi Hne Hout. rewrite (dmamode_data_udma_bits adev d i) by lia.
    destruct (Z.eqb_spec i 31), (Z.leb_spec 16 i), (Z.ltb_spec i 19);
      try lia; reflexivity.
Qed.

Lemma sch_set_dmamode_programs_udma_field_witness :
  (0 <= XFER_UDMA_0 (AtaConstants := sample_constants)
   /\ XFER_UDMA_0 (AtaConstants := sample_constants) + 7 < 2 ^ 32
   /\ XFER_UDMA_0 (AtaConstants := sample_constants) <= dma_mode sample_device
      <= XFER_UDMA_0 (AtaConstants := sample_constants) + 7)
  /\ exists v : Z,
       sch_set_dmamode (K := sample_constants) sample_timing sample_device
       = pci_write_config_dword sample_timing D1TIM v
       /\ Z.land (Z.shiftr v 16) 0x07 = 5.
Proof.
  split; [vm_compute; repeat split; discriminate|].
  destruct (sch_set_dmamode_programs_udma_field
              (K := sample_constants) sample_timing sample_device)
    as (v & Hw & _ & _ & Hf & _).
  - vm_compute; discriminate.
  - vm_compute; reflexivity.
  - vm_compute; split; discriminate.
  - exists v. split; [exact Hw | exact Hf].
Defined.

(** X13.  [sch_set_dmamode] with a multi-word DMA mode, that is with
    [dma_mode] from [XFER_MW_DMA_0] to [XFER_MW_DMA_0 + 3] and below
    [XFER_UDMA_0], writes a 32-bit value with USD cleared and the MDM field
    equal to [dma_mode - XFER_MW_DMA_0]; every other bit, the stale UDM
    field included, is as it was read. *)
Theorem sch_set_dmamode_programs_mwdma_field
        {K : AtaConstants} {pci_dev : Type} {P : PciConfig pci_dev}
        (dev : pci_dev) (adev : ata_device) :
  0 <= XFER_MW_DMA_0 -> XFER_UDMA_0 < 2 ^ 32 ->
  XFER_MW_DMA_0 <= dma_mode adev <= XFER_MW_DMA_0 + 3 ->
  dma_mode adev < XFER_UDMA_0 ->
  let port := if devno adev =? 0 then D0TIM else D1TIM in
  let d := u32 (pci_read_config_dword dev port) in
  exists v : Z,
    sch_set_dmamode dev adev = pci_write_config_dword dev port v
    /\ 0 <= v < 2 ^ 32
    /\ Z.testbit v 31 = false
    /\ Z.land (Z.shiftr v 8) 0x03 = dma_mode adev - XFER_MW_DMA_0
    /\ (forall i : Z, 0 <= i -> i <> 31 -> ~ 8 <= i < 10 ->
        Z.testbit v i = Z.testbit d i).
Proof.
  intros Hx Hu Hm Hlow port d.
  assert (Hd : 0 <= d < 2 ^ 32) by apply u32_range.
  exists (dmamode_data adev d). split; [apply sch_set_dmamode_writes|].
  split; [apply dmamode_data_range; exact Hd|].
  split; [|split].
  - rewrite (dmamode_data_mwdma_bits adev d 31) by lia. reflexivity.
  - apply Z.bits_inj'. intros i Hi.
    rewrite Z.land_spec, Z.shiftr_spec by exact Hi.
    rewrite (dmamode_data_mwdma_bits adev d (i + 8)) by lia.
    change 3 with (Z.ones 2).
    replace (i + 8 - 8) with i by lia.
    destruct (Z.ltb_spec i 2).
    + rewrite Z.ones_spec_low by lia.
      destruct (Z.eqb_spec (i + 8) 31), (Z.leb_spec 8 (i + 8)),
               (Z.ltb_spec (i + 8) 10); try lia.
      apply Bool.andb_true_r.
    + rewrite Z.ones_spec_high, Bool.andb_false_r by lia.
      symmetry. apply (small_bits _ 2); lia.
  - intros i Hi Hne Hout. rewrite (dmamode_data_mwdma_bits adev d i) by lia.
    destruct (Z.eqb_spec i 31), (Z.leb_spec 8 i), (Z.ltb_spec i 10);
      try lia; reflexivity.
Qed.

Lemma sch_set_dmamode_programs_mwdma_field_witness :
  (0 <= XFER_MW_DMA_0 (AtaConstants := sample_constants)
   /\ XFER_UDMA_0 (AtaConstants := sample_constants) < 2 ^ 32
   /\ XFER_MW_DMA_0 (AtaConstants := sample_constants) <= dma_mode sample_mwdma_device
      <= XFER_MW_DMA_0 (AtaConstants := sample_constants) + 3
   /\ dma_mode sample_mwdma_device < XFER_UDMA_0 (AtaConstants := sample_constants))
  /\ exists v : Z,
       sch_set_dmamode (K := sample_constants) sample_timing sample_mwdma_device
       = pci_write_config_dword sample_timing D0TIM v
       /\ Z.testbit v 31 = false.
Proof.
  split; [vm_compute; repeat split; discriminate|].
  destruct (sch_set_dmamode_programs_mwdma_field
              (K := sample_constants) sample_timing sample_mwdma_device)
    as (v & Hw & _ & Hf & _).
  - vm_compute; discriminate.
  - vm_compute; reflexivity.
  - vm_compute; split; discriminate.
  - vm_compute; reflexivity.
  - exists v. split; [exact Hw | exact Hf].
Defined.


(** X14.  [sch_set_dmamode] does not check the mode.  With a mode below
    [XFER_MW_DMA_0] (at most 256), which the else branch takes for a
    multi-word mode, the subtraction wraps around and the value written
    has USD set and the UDM field at 7: the branch that is to turn
    synchronous DMA off turns it on, at the highest mode. *)
Theorem sch_set_dmamode_below_mwdma_turns_udma_on
        {K : AtaConstants} {pci_dev : Type} {P : PciConfig pci_dev}
        (dev : pci_dev) (adev : ata_device) :
  0 <= dma_mode adev < XFER_MW_DMA_0 -> XFER_MW_DMA_0 <= 256 ->
  dma_mode adev < XFER_UDMA_0 -> XFER_UDMA_0 < 2 ^ 32 ->
  let port := if devno adev =? 0 then D0TIM else D1TIM in
  exists v : Z,
    sch_set_dmamode dev adev = pci_write_config_dword dev port v
    /\ Z.testbit v 31 = true
    /\ Z.land (Z.shiftr v 16) 0x07 = 7.
Proof.
  intros Hm Hmw Hlow Hu port.
  set (d := u32 (pci_read_config_dword dev port)).
  exists (dmamode_data adev d). split; [apply sch_set_dmamode_writes|].
  assert (Hbits : forall i, 16 <= i < 32 -> Z.testbit (dmamode_data adev d) i = true).
  { intros i Hi. unfold dmamode_data.
    rewrite (u32_small (dma_mode adev)) by lia.
    rewrite (u32_small XFER_UDMA_0) by lia.
    destruct (Z.leb_spec XFER_UDMA_0 (dma_mode adev)) as [|_]; [lia|].
    rewrite Z.lor_spec, u32_bits, Z.shiftl_spec, u32_bits by lia.
    replace (dma_mode adev - XFER_MW_DMA_0)
      with (Z.lnot (XFER_MW_DMA_0 - dma_mode adev - 1)) by (unfold Z.lnot; lia).
    rewrite Z.lnot_spec by lia.
    rewrite (small_bits (XFER_MW_DMA_0 - dma_mode adev - 1) 8 (i - 8)) by lia.
    destruct (Z.ltb_spec i 32), (Z.ltb_spec (i - 8) 32);
      first [lia | apply Bool.orb_true_r]. }
  split; [apply Hbits; lia|].
  apply Z.bits_inj'. intros i Hi.
  rewrite Z.land_spec, Z.shiftr_spec by exact Hi.
  change 7 with (Z.ones 3).
  destruct (Z.ltb_spec i 3).
  - rewrite Hbits by lia. reflexivity.
  - rewrite Z.ones_spec_high by lia. apply Bool.andb_false_r.
Qed.

Lemma sch_set_dmamode_below_mwdma_turns_udma_on_witness :
  (0 <= dma_mode sample_swdma_device < XFER_MW_DMA_0 (AtaConstants := sample_constants)
   /\ XFER_MW_DMA_0 (AtaConstants := sample_constants) <= 256
   /\ dma_mode sample_swdma_device < XFER_UDMA_0 (AtaConstants := sample_constants)
   /\ XFER_UDMA_0 (AtaConstants := sample_constants) < 2 ^ 32)
  /\ exists v : Z,
       sch_set_dmamode (K := sample_constants) sample_timing sample_swdma_device
       = pci_write_config_dword sample_timing D0TIM v
       /\ Z.testbit v 31 = true.
Proof.
  split; [vm_compute; repeat split; discriminate|].
  destruct (sch_set_dmamode_below_mwdma_turns_udma_on
              (K := sample_constants) sample_timing sample_swdma_device)
    as (v & Hw & Hf & _).
  - vm_compute; split; [discriminate | reflexivity].
  - vm_compute; discriminate.
  - vm_compute; reflexivity.
  - vm_compute; reflexivity.
  - exists v. split; [exact Hw | exact Hf].
Defined.

(** X15.  Where the timing registers behave as memory, programming is
    idempotent and the two functions do not interfere: calling
    [sch_set_piomode], or [sch_set_dmamode], a second time with the same
    device changes nothing; with modes in range, PIO and DMA programming
    give the same configuration in either order, for the same or for two
    devices; and neither function changes what the other device's timing
    register holds. *)
Theorem sch_timing_programming_composes
        {K : AtaConstants} {pci_dev : Type} {P : PciConfig pci_dev}
        {L : TimingRegisterLaws}
        (dev : pci_dev) (a b : ata_device) :
  0 <= XFER_MW_DMA_0 -> 0 <= XFER_UDMA_0 -> XFER_UDMA_0 + 7 < 2 ^ 32 ->
  0 <= pio_mode a - XFER_PIO_0 <= 7 ->
  XFER_UDMA_0 <= dma_mode b <= XFER_UDMA_0 + 7
  \/ XFER_MW_DMA_0 <= dma_mode b <= XFER_MW_DMA_0 + 3 /\ dma_mode b < XFER_UDMA_0 ->
  sch_set_piomode (sch_set_piomode dev a) a = sch_set_piomode dev a
  /\ sch_set_dmamode (sch_set_dmamode dev b) b = sch_set_dmamode dev b
  /\ sch_set_dmamode (sch_set_piomode dev a) b
     = sch_set_piomode (sch_set_dmamode dev b) a
  /\ (forall port : Z, timing_register port -> port <> timing_port a ->
      pci_read_config_dword (sch_set_piomode dev a) port
      = pci_read_config_dword dev port)
  /\ (forall port : Z, timing_register port -> port <> timing_port b ->
      pci_read_config_dword (sch_set_dmamode dev b) port
      = pci_read_config_dword dev port).
Proof.
  intros Hmw Hud Hlt Hpio Hdma.
  pose proof (timing_port_register a) as Ha.
  pose proof (timing_port_register b) as Hb.
  assert (Hr : forall z, 0 <= u32 z < 2 ^ 32) by apply u32_range.
  split; [|split; [|split; [|split]]].
  - rewrite (sch_set_piomode_writes dev a).
    rewrite sch_set_piomode_writes.
    rewrite read_written by (try apply piomode_data_range; auto).
    rewrite write_written by exact Ha.
    rewrite (u32_small (piomode_data _ _)) by (apply piomode_data_range; auto).
    rewrite piomode_data_idempotent. reflexivity.
  - rewrite (sch_set_dmamode_writes dev b).
    rewrite sch_set_dmamode_writes.
    rewrite read_written by (try apply dmamode_data_range; auto).
    rewrite write_written by exact Hb.
    rewrite (u32_small (dmamode_data _ _)) by (apply dmamode_data_range; auto).
    rewrite dmamode_data_idempotent. reflexivity.
  - rewrite (sch_set_piomode_writes dev a), (sch_set_dmamode_writes dev b).
    rewrite sch_set_piomode_writes, sch_set_dmamode_writes.
    destruct (Z.eq_dec (timing_port a) (timing_port b)) as [Heq | Hne].
    + rewrite <- Heq.
      rewrite !read_written by (try apply piomode_data_range;
                                try apply dmamode_data_range; auto).
      rewrite !write_written by exact Ha.
      rewrite (u32_small (piomode_data _ _)) by (apply piomode_data_range; auto).
      rewrite (u32_small (dmamode_data _ _)) by (apply dmamode_data_range; auto).
      rewrite piomode_dmamode_data_commute by auto. reflexivity.
    + rewrite (read_other dev (timing_port a) (timing_port b)) by auto.
      rewrite (read_other dev (timing_port b) (timing_port a)) by auto.
      apply write_other; auto.
  - intros port Hp Hne. rewrite sch_set_piomode_writes.
    apply read_other; auto.
  - intros port Hp Hne. rewrite sch_set_dmamode_writes.
    apply read_other; auto.
Qed.

Lemma sch_timing_programming_composes_witness :
  sch_set_dmamode (K := sample_constants)
    (sch_set_piomode (K := sample_constants) sample_timing sample_device)
    sample_mwdma_device
  = sch_set_piomode (K := sample_constants)
      (sch_set_dmamode (K := sample_constants) sample_timing sample_mwdma_device)
      sample_device.
Proof.
  destruct (sch_timing_programming_composes
              (K := sample_constants) (L := timing_laws)
              sample_timing sample_device sample_mwdma_device)
    as (_ & _ & H & _).
  - vm_compute; discriminate.
  - vm_compute; discriminate.
  - vm_compute; reflexivity.
  - vm_compute; split; discriminate.
  - right. vm_compute. repeat split; discriminate.
  - exact H.
Defined.

End SchTiming.
